(** * bro-sms: record normalisation, aggregation and search

    A shallow embedding of the message viewer's core:
    - [normalizePhoneNumber]            (utils/phoneUtils.ts)
    - [mapSMSStatusToMessageStatus], [extractPhoneFromParty],
      [processMessagesData]             (utils/messageUtils.ts)
    - the search worker's [onmessage]   (workers/search.worker.ts)
    - the match-location lookup         (components/ContactList.tsx)

    JavaScript strings are sequences of UTF-16 code units; numbers that the
    code uses as indices, counters or time values are integers or NaN. *)

From Stdlib Require Import List NArith ZArith Bool Lia Ascii.
From Stdlib Require String.
Import String.StringSyntax.
Delimit Scope string_scope with string.
From Stdlib Require Import Sorted Permutation.
Import ListNotations.

Set Implicit Arguments.

(* ================================================================== *)
(** ** JavaScript values and built-ins used by the program *)
(* ================================================================== *)

Module JS.

(** A string is the list of its UTF-16 code units. *)
Abbreviation char := N (only parsing).
Abbreviation jsstring := (list N) (only parsing).

(** [str "abc"] is the string literal 'abc' (one code unit per character). *)
Definition str (s : String.string) : jsstring :=
  map N_of_ascii (String.list_ascii_of_string s).
Arguments str s%_string.

Definition streq (a b : jsstring) : bool :=
  if list_eq_dec N.eq_dec a b then true else false.

(** Truthiness of a string: only the empty string is falsy. *)
Definition truthy (s : jsstring) : bool :=
  match s with [] => false | _ :: _ => true end.

(** [a || b] on strings. *)
Definition orElse (a b : jsstring) : jsstring := if truthy a then a else b.

(** Character classes of ECMAScript regular expressions and of [trim]. *)
Definition isDigit (c : char) : bool := ((48 <=? c) && (c <=? 57))%N.

Definition isLineTerminator (c : char) : bool :=
  ((c =? 10) || (c =? 13) || (c =? 8232) || (c =? 8233))%N.

(** WhiteSpace and LineTerminator code points: what [\s] matches and what
    [trim] strips. *)
Definition isWhiteSpace (c : char) : bool :=
  (((9 <=? c) && (c <=? 13)) || (c =? 32) || (c =? 160) || (c =? 5760)
   || ((8192 <=? c) && (c <=? 8202)) || (c =? 8232) || (c =? 8233)
   || (c =? 8239) || (c =? 8287) || (c =? 12288) || (c =? 65279))%N.

(** [toLowerCase], code unit by code unit.  The mapping covers Basic Latin
    and the Latin-1 Supplement (A-Z, and U+00C0..U+00DE but the
    multiplication sign); other code units are kept as they are. *)
Definition lowerUnit (c : char) : char :=
  (if (65 <=? c) && (c <=? 90) then c + 32
   else if (192 <=? c) && (c <=? 222) && negb (c =? 215) then c + 32
   else c)%N.

Definition toLowerCase (s : jsstring) : jsstring := map lowerUnit s.

Fixpoint dropWhile (p : char -> bool) (s : jsstring) : jsstring :=
  match s with
  | [] => []
  | c :: s' => if p c then dropWhile p s' else s
  end.

Definition trimStart (s : jsstring) : jsstring := dropWhile isWhiteSpace s.
Definition trimEnd (s : jsstring) : jsstring :=
  rev (dropWhile isWhiteSpace (rev s)).
Definition trim (s : jsstring) : jsstring := trimEnd (trimStart s).

Fixpoint startsWith (s p : jsstring) {struct p} : bool :=
  match p, s with
  | [], _ => true
  | _ :: _, [] => false
  | a :: p', b :: s' => (a =? b)%N && startsWith s' p'
  end.

(** [s.indexOf(q)]: the first position at which [q] occurs, or -1. *)
Fixpoint indexOfFrom (i : Z) (s q : jsstring) : Z :=
  if startsWith s q then i
  else match s with
       | [] => (-1)%Z
       | _ :: s' => indexOfFrom (i + 1) s' q
       end.

Definition indexOf (s q : jsstring) : Z := indexOfFrom 0 s q.

Definition includes (s q : jsstring) : bool := (0 <=? indexOf s q)%Z.

Definition strlen (s : jsstring) : Z := Z.of_nat (length s).

(** [s.slice(from, to)], negative arguments counting from the end. *)
Definition slice (s : jsstring) (from to : Z) : jsstring :=
  let len := strlen s in
  let k := if (from <? 0)%Z then Z.max (len + from) 0 else Z.min from len in
  let e := if (to <? 0)%Z then Z.max (len + to) 0 else Z.min to len in
  firstn (Z.to_nat (Z.max (e - k) 0)) (skipn (Z.to_nat k) s).

(** [s.substring(1)]. *)
Definition substring1 (s : jsstring) : jsstring := skipn 1 s.

(** [s.replace(pat, '')] with a string pattern: the first occurrence goes. *)
Definition removeFirst (s pat : jsstring) : jsstring :=
  let i := indexOf s pat in
  if (i <? 0)%Z then s
  else firstn (Z.to_nat i) s ++ skipn (Z.to_nat i + length pat) s.

(** Numbers: an integer or NaN. *)
Inductive number := Num (z : Z) | NaN.

Definition num_gt (a b : number) : bool :=
  match a, b with
  | Num x, Num y => (y <? x)%Z
  | _, _ => false
  end.

Definition num_sub (a b : number) : number :=
  match a, b with
  | Num x, Num y => Num (x - y)
  | _, _ => NaN
  end.

(** A Date is its time value: milliseconds since the epoch, or NaN for an
    Invalid Date. *)
Record Date := mkDate { getTime : number }.

(** [a > b] on two Dates compares the time values. *)
Definition date_gt (a b : Date) : bool := num_gt (getTime a) (getTime b).

(** [Array.prototype.sort(comparefn)]: a stable sort; [x] moves behind [y]
    only when [comparefn(x, y) > 0], and a NaN result counts as +0. *)
Section ArraySort.
Variable A : Type.
Variable comparefn : A -> A -> number.

Definition sortsAfter (x y : A) : bool := num_gt (comparefn x y) (Num 0).

Fixpoint sortInsert (x : A) (l : list A) : list A :=
  match l with
  | [] => [x]
  | y :: l' => if sortsAfter x y then y :: sortInsert x l' else x :: l
  end.

Fixpoint sort (l : list A) : list A :=
  match l with
  | [] => []
  | x :: l' => sortInsert x (sort l')
  end.
End ArraySort.

(** Ascending order of an integer key. *)
Definition ascendingBy (A : Type) (key : A -> Z) (a b : A) : Prop :=
    (key a <= key b)%Z.

(** A [Map] with string keys, in insertion order. *)
Section JsMap.
Variable V : Type.
Definition Map := list (jsstring * V).

Fixpoint Map_get (k : jsstring) (m : Map) : option V :=
  match m with
  | [] => None
  | (k', v) :: m' => if streq k k' then Some v else Map_get k m'
  end.

Definition Map_has (k : jsstring) (m : Map) : bool :=
  match Map_get k m with Some _ => true | None => false end.

(** [m.set(k, v)]: an existing key keeps its place. *)
Fixpoint Map_set (k : jsstring) (v : V) (m : Map) : Map :=
  match m with
  | [] => [(k, v)]
  | (k', v') :: m' =>
      if streq k k' then (k', v) :: m' else (k', v') :: Map_set k v m'
  end.

Definition Map_keys (m : Map) : list jsstring := map fst m.
Definition Map_values (m : Map) : list V := map snd m.
End JsMap.

(** [parseInt(s)] with no radix: leading white space, a sign, an optional
    0x prefix, then the longest run of digits; NaN when there is none.  The
    value is the exact integer. *)
Definition digitValue (radix : N) (c : char) : option N :=
  let v := (if isDigit c then Some (c - 48)
            else if (97 <=? c) && (c <=? 122) then Some (c - 87)
            else if (65 <=? c) && (c <=? 90) then Some (c - 55)
            else None)%N in
  match v with
  | Some d => if (d <? radix)%N then Some d else None
  | None => None
  end.

Fixpoint parseDigits (radix : N) (acc : option N) (s : jsstring) : option N :=
  match s with
  | [] => acc
  | c :: s' =>
      match digitValue radix c with
      | Some d =>
          parseDigits radix
            (Some (match acc with Some a => a * radix + d | None => d end)%N) s'
      | None => acc
      end
  end.

Definition parseInt (s : jsstring) : number :=
  let s1 := trimStart s in
  let '(negative, s2) :=
    match s1 with
    | 45%N :: r => (true, r)
    | 43%N :: r => (false, r)
    | _ => (false, s1)
    end in
  let '(radix, s3) :=
    match s2 with
    | 48%N :: x :: r =>
        if ((x =? 120) || (x =? 88))%N then (16%N, r) else (10%N, s2)
    | _ => (10%N, s2)
    end in
  match parseDigits radix None s3 with
  | Some n => Num (if negative then - Z.of_N n else Z.of_N n)
  | None => NaN
  end.

(** *** Regular expressions

    The program's patterns are written with backtracking matchers in
    continuation style: a matcher consumes a prefix of the input, hands the
    rest to the continuation [k], and gives back what it consumed with the
    continuation's result.  Greedy quantifiers try the longest prefix first
    and give characters back one at a time while [k] fails. *)
Section Regex.
Variable R : Type.
Variable k : jsstring -> option R.

Definition consumed0 (t : jsstring) : option (jsstring * R) :=
  match k t with Some r => Some ([], r) | None => None end.

Definition consumed1 (c : char) (o : option (jsstring * R))
  : option (jsstring * R) :=
  match o with Some (m, r) => Some (c :: m, r) | None => None end.

(** [p*] *)
Fixpoint re_star (p : char -> bool) (t : jsstring) : option (jsstring * R) :=
  match t with
  | c :: t' =>
      if p c then
        match consumed1 c (re_star p t') with
        | Some r => Some r
        | None => consumed0 t
        end
      else consumed0 t
  | [] => consumed0 t
  end.

(** [p+] *)
Definition re_plus (p : char -> bool) (t : jsstring) : option (jsstring * R) :=
  match t with
  | c :: t' => if p c then consumed1 c (re_star p t') else None
  | [] => None
  end.

(** [p{0,n}] *)
Fixpoint re_upto (n : nat) (p : char -> bool) (t : jsstring)
  : option (jsstring * R) :=
  match n, t with
  | S n', c :: t' =>
      if p c then
        match consumed1 c (re_upto n' p t') with
        | Some r => Some r
        | None => consumed0 t
        end
      else consumed0 t
  | _, _ => consumed0 t
  end.

(** [p{n}] followed by [rest], which is [p{0,m}] in [p{n,n+m}]. *)
Fixpoint re_times (n : nat) (p : char -> bool)
  (rest : jsstring -> option (jsstring * R)) (t : jsstring)
  : option (jsstring * R) :=
  match n with
  | O => rest t
  | S n' =>
      match t with
      | c :: t' => if p c then consumed1 c (re_times n' p rest t') else None
      | [] => None
      end
  end.

(** [c?] for one literal character *)
Definition re_opt (c : char) (t : jsstring) : option (jsstring * R) :=
  match t with
  | c' :: t' =>
      if (c' =? c)%N then
        match k t' with
        | Some r => Some ([c'], r)
        | None => consumed0 t
        end
      else consumed0 t
  | [] => consumed0 t
  end.

(** A literal string; [eqc] compares a pattern character with an input
    character. *)
Fixpoint re_lit (eqc : char -> char -> bool) (lit t : jsstring) : option R :=
  match lit, t with
  | [], _ => k t
  | a :: lit', c :: t' => if eqc a c then re_lit eqc lit' t' else None
  | _ :: _, [] => None
  end.
End Regex.

(** An unanchored pattern is tried at every position from the left. *)
Fixpoint re_search (R : Type) (m : jsstring -> option R) (t : jsstring)
  : option R :=
  match m t with
  | Some r => Some r
  | None => match t with [] => None | _ :: t' => re_search m t' end
  end.

(** End of the pattern and the [$] assertion (no [m] flag). *)
Definition re_done (t : jsstring) : option unit := Some tt.
Definition re_eos (t : jsstring) : option unit :=
  match t with [] => Some tt | _ :: _ => None end.

(** [.] matches everything but line terminators. *)
Definition isDot (c : char) : bool := negb (isLineTerminator c).

(** Character comparison of a pattern without and with the [i] flag; the
    patterns compared with [i] consist of Basic Latin characters, which only
    their other-case twin canonicalises to. *)
Definition eqc (a c : char) : bool := (a =? c)%N.
Definition upperBasicLatin (c : char) : char :=
  (if (97 <=? c) && (c <=? 122) then c - 32 else c)%N.
Definition eqci (a c : char) : bool :=
  (upperBasicLatin a =? upperBasicLatin c)%N.

End JS.

Import JS.

(* ================================================================== *)
(** ** utils/phoneUtils.ts *)
(* ================================================================== *)

Definition normalizePhoneNumber (phone : jsstring) : jsstring :=
  if negb (truthy phone) then []
  else
    let cleaned := filter isDigit phone in
    if startsWith cleaned (str "960") then cleaned
    else if (length cleaned =? 7)%nat && forallb isDigit cleaned
      then str "960" ++ cleaned
    else if startsWith cleaned (str "0") then str "960" ++ substring1 cleaned
    else if (10 <=? length cleaned)%nat then cleaned
    else if (length cleaned =? 7)%nat then str "960" ++ cleaned
    else cleaned.


(* ================================================================== *)
(** ** types/index.ts *)
(* ================================================================== *)

(** The records keep the fields the core reads.  A timestamp field holds the
    [Date] that the program's timestamp parsing yields for the record
    ([parseNewTimestamp(record.Timestamp)] for a unified record, the
    [new Date(month/day/year time)] block for a legacy one): the engine's
    date parser and clock stay outside the model, and every result they can
    give, [Invalid Date] included, is a possible value of the field. *)

Module SMSParty.
Record t := mk { direction : jsstring; phone : jsstring; name : jsstring }.
End SMSParty.

(** Legacy format.  [party] and [status] may be missing from a record. *)
Module SMSRecord.
Record t := mk {
  id : number;
  party : option SMSParty.t;
  time : Date;
  status : option jsstring;
  message : jsstring
}.
End SMSRecord.

(** Unified format. *)
Module DataRecord.
Record t := mk {
  ID : jsstring;
  Type_ : jsstring;
  Direction : jsstring;
  Timestamp : Date;
  Party : jsstring;
  Description : jsstring
}.
End DataRecord.

(** [isDataRecord] tells the two shapes apart by the fields present; here
    the shape is the constructor. *)
Inductive UnifiedRecord :=
| Legacy (r : SMSRecord.t)
| Unified (r : DataRecord.t).

Definition isDataRecord (record : UnifiedRecord) : bool :=
  match record with Unified _ => true | Legacy _ => false end.

Inductive MessageStatus := sent | delivered | read | failed.

Module Message.
Record t := mk {
  id : number;
  text : jsstring;
  timestamp : Date;
  isFromMe : bool;
  isRead : bool;
  status : MessageStatus;
  isCallLog : bool
}.
End Message.

Module Contact.
Record t := mk {
  phone : jsstring;
  name : jsstring;
  normalizedPhone : jsstring;
  lastMessage : jsstring;
  lastMessageTime : Date;
  messageCount : nat;
  isRead : bool
}.
End Contact.

(* ================================================================== *)
(** ** utils/messageUtils.ts *)
(* ================================================================== *)

(** [smsStatus] is [None] for a missing (undefined) value. *)
Definition mapSMSStatusToMessageStatus (smsStatus : option jsstring)
  (isFromMe : bool) : MessageStatus :=
  let normalizedStatus := option_map toLowerCase smsStatus in
  let equals (lit : jsstring) :=
    match normalizedStatus with Some s => streq s lit | None => false end in
  if negb isFromMe then
    if equals (str "read") then read
    else if equals (str "unread") then delivered
    else delivered
  else
    if equals (str "sent") then delivered
    else if equals (str "read") then read
    else if equals (str "unsent") || equals (str "failed") || equals (str "error")
      then failed
    else sent.

(** [/(?:From:|To:)\s*(.+)/]: the text of group 1.  [partyRest] is
    [\s*(.+)], [matchPartyAt] the pattern tried at one position. *)
Definition partyRest : jsstring -> option (jsstring * (jsstring * unit)) :=
  re_star (re_plus re_done isDot) isWhiteSpace.

Definition partyGroup1 (o : option (jsstring * (jsstring * unit)))
  : option jsstring :=
  match o with Some (_, (g, _)) => Some g | None => None end.

Definition matchPartyAt (t : jsstring) : option jsstring :=
  match partyGroup1 (re_lit partyRest eqc (str "From:") t) with
  | Some g => Some g
  | None => partyGroup1 (re_lit partyRest eqc (str "To:") t)
  end.

Definition matchPartyPrefix (party : jsstring) : option jsstring :=
  re_search matchPartyAt party.

(** [/^(\+?\d+)\s+(.+)$/]: groups 1 and 2. *)
Definition matchPhoneName (s : jsstring) : option (jsstring * jsstring) :=
  let tail := re_plus (re_plus re_eos isDot) isWhiteSpace in
  match re_opt (re_plus tail isDigit) 43%N s with
  | Some (sign, (digits, (_, (g2, _)))) => Some (sign ++ digits, g2)
  | None => None
  end.

(** [/^\+?\d+$/] *)
Definition matchPhoneOnly (s : jsstring) : bool :=
  match re_opt (re_plus re_eos isDigit) 43%N s with
  | Some _ => true
  | None => false
  end.

(** [/(\+?\d{7,15})/]: group 1. *)
Definition matchEmbeddedPhone (s : jsstring) : option jsstring :=
  re_search
    (fun t =>
       match re_opt (re_times 7 isDigit (re_upto re_done 8 isDigit)) 43%N t with
       | Some (sign, (digits, _)) => Some (sign ++ digits)
       | None => None
       end)
    s.

(** [/^From:\s*$/i] and [/^To:\s*$/i] *)
Definition matchEmptyParty (prefix s : jsstring) : bool :=
  match re_lit (re_star re_eos isWhiteSpace) eqci prefix s with
  | Some _ => true
  | None => false
  end.

Definition extractPhoneFromParty (party : jsstring)
  : option (jsstring * jsstring) :=
  if negb (truthy party) then None
  else
    match matchPartyPrefix party with
    | None => None
    | Some m1 =>
        let partyContent := trim m1 in
        match matchPhoneName partyContent with
        | Some (g1, g2) => Some (g1, trim g2)
        | None =>
            if matchPhoneOnly partyContent
            then Some (partyContent, str "Unknown")
            else
              match matchEmbeddedPhone partyContent with
              | Some phone =>
                  let name := trim (removeFirst partyContent phone) in
                  Some (phone, orElse name (str "Unknown"))
              | None => None
              end
        end
    end.

(** The three maps and [lastContactKey] that the [forEach] callback of
    [processMessagesData] reads and writes. *)
Record State := mkState {
  contactsMap : Map Contact.t;
  messagesByContact : Map (list Message.t);
  searchableData : Map (list jsstring);
  lastContactKey : option jsstring
}.

Definition initialState : State := mkState [] [] [] None.

(** The callback's local variables once a record has got past the format
    specific part. *)
Record Fields := mkFields {
  f_phone : jsstring;
  f_contactName : jsstring;
  f_messageText : jsstring;
  f_timestamp : Date;
  f_isFromMe : bool;
  f_messageId : number;
  f_isRead : bool
}.

(** The [if (isDataRecord(record)) ... else ...] part of the callback;
    [None] is an early [return]. *)
Definition extractFields (st : State) (record : UnifiedRecord)
  : option Fields :=
  match record with
  | Unified record =>
      let isCallLog := streq (DataRecord.Type_ record) (str "Call Log") in
      let isSMS :=
        streq (DataRecord.Type_ record) (str "SMS Messages")
        || streq (DataRecord.Type_ record) (str "Instant Messages") in
      if negb isSMS && negb isCallLog then None
      else
        let partyRaw := trim (orElse (DataRecord.Party record) []) in
        let hasEmptyFrom := matchEmptyParty (str "From:") partyRaw in
        let hasEmptyTo := matchEmptyParty (str "To:") partyRaw in
        let partyInfo := extractPhoneFromParty (DataRecord.Party record) in
        if negb isCallLog && negb (truthy (DataRecord.Description record))
        then None
        else
          let attributed :=
            match partyInfo with
            | Some (phone, name) => Some (phone, name)
            | None =>
                if hasEmptyFrom || hasEmptyTo then
                  match lastContactKey st with
                  | None => None
                  | Some key =>
                      if negb (truthy key) then None
                      else
                        match Map_get key (contactsMap st) with
                        | None => None
                        | Some existing =>
                            Some (Contact.phone existing, Contact.name existing)
                        end
                  end
                else if isCallLog
                        && truthy (DataRecord.Party record)
                        && negb (includes (DataRecord.Party record) (str "From:"))
                        && negb (includes (DataRecord.Party record) (str "To:"))
                then Some (DataRecord.Party record, str "Unknown")
                else None
            end in
          match attributed with
          | None => None
          | Some (phone, contactName) =>
              Some (mkFields phone contactName
                      (orElse (DataRecord.Description record) [])
                      (DataRecord.Timestamp record)
                      (streq (DataRecord.Direction record) (str "To")
                       || hasEmptyFrom)
                      (parseInt (DataRecord.ID record))
                      true)
          end
  | Legacy record =>
      match SMSRecord.party record with
      | None => None
      | Some party =>
          if negb (truthy (SMSParty.phone party))
             || negb (truthy (SMSRecord.message record))
          then None
          else
            Some (mkFields (SMSParty.phone party)
                    (orElse (SMSParty.name party) (str "Unknown"))
                    (SMSRecord.message record)
                    (SMSRecord.time record)
                    (streq (SMSParty.direction party) (str "to"))
                    (SMSRecord.id record)
                    (match SMSRecord.status record with
                     | Some s => streq s (str "Read")
                     | None => false
                     end))
      end
  end.

(** [normalizedPhone || phone] *)
Definition contactKeyOf (phone : jsstring) : jsstring :=
  orElse (normalizePhoneNumber phone) phone.

(** The terms a record adds to its contact's searchable data. *)
Definition searchTermsOf (record : UnifiedRecord) : list jsstring :=
  let term (s : jsstring) := if truthy s then [s] else [] in
  match record with
  | Unified record =>
      term (DataRecord.Party record) ++ term (DataRecord.Description record)
  | Legacy record =>
      match SMSRecord.party record with
      | Some party =>
          term (SMSParty.name party) ++ term (SMSParty.phone party)
      | None => []
      end ++ term (SMSRecord.message record)
  end.

(** [if (!map.has(key)) map.set(key, []);] then [map.get(key)!.push(...)]. *)
Definition Map_push (V : Type) (key : jsstring) (xs : list V)
  (m : Map (list V)) : Map (list V) :=
  let m1 := if negb (Map_has key m) then Map_set key [] m else m in
  match Map_get key m1 with
  | Some old => Map_set key (old ++ xs) m1
  | None => m1
  end.

(** The message built for a record that got past extraction. *)
Definition buildMessage (record : UnifiedRecord) (f : Fields) : Message.t :=
  Message.mk (f_messageId f) (f_messageText f) (f_timestamp f)
    (f_isFromMe f) (f_isRead f)
    (mapSMSStatusToMessageStatus
       (Some (if f_isRead f then str "Read" else str "Unread")) (f_isFromMe f))
    (match record with
     | Unified r => streq (DataRecord.Type_ r) (str "Call Log")
     | Legacy _ => false
     end).

(** The update-or-create step on the contact registry. *)
Definition updateContact (contactKey : jsstring) (f : Fields)
  (m : Map Contact.t) : Map Contact.t :=
  match Map_get contactKey m with
  | Some existingContact =>
      let newer := date_gt (f_timestamp f) (Contact.lastMessageTime existingContact) in
      Map_set contactKey
        (Contact.mk
           (Contact.phone existingContact)
           (Contact.name existingContact)
           (Contact.normalizedPhone existingContact)
           (if newer then f_messageText f
            else Contact.lastMessage existingContact)
           (if newer then f_timestamp f
            else Contact.lastMessageTime existingContact)
           (Contact.messageCount existingContact + 1)
           (if negb (f_isFromMe f) && negb (f_isRead f) then false
            else Contact.isRead existingContact))
        m
  | None =>
      Map_set contactKey
        (Contact.mk (f_phone f) (f_contactName f)
           (normalizePhoneNumber (f_phone f))
           (f_messageText f) (f_timestamp f) 1
           (if negb (f_isFromMe f) then f_isRead f else true))
        m
  end.

(** One call of the [forEach] callback. *)
Definition processRecord (st : State) (record : UnifiedRecord) : State :=
  match extractFields st record with
  | None => st
  | Some f =>
      if negb (truthy (f_phone f)) then st
      else
        let contactKey := contactKeyOf (f_phone f) in
        mkState
          (updateContact contactKey f (contactsMap st))
          (Map_push contactKey [buildMessage record f] (messagesByContact st))
          (Map_push contactKey (searchTermsOf record) (searchableData st))
          (Some contactKey)
  end.

Definition processAll (data : list UnifiedRecord) : State :=
  fold_left processRecord data initialState.

Definition byTimestamp (a b : Message.t) : number :=
  num_sub (getTime (Message.timestamp a)) (getTime (Message.timestamp b)).

Definition byLastMessageTimeDesc (a b : Contact.t) : number :=
  num_sub (getTime (Contact.lastMessageTime b))
          (getTime (Contact.lastMessageTime a)).

Record Processed := mkProcessed {
  contacts : list Contact.t;
  out_messagesByContact : Map (list Message.t);
  out_searchableData : Map (list jsstring)
}.

Definition processMessagesData (data : list UnifiedRecord) : Processed :=
  let st := processAll data in
  mkProcessed
    (sort byLastMessageTimeDesc (Map_values (contactsMap st)))
    (map (fun kv => (fst kv, sort byTimestamp (snd kv))) (messagesByContact st))
    (searchableData st).

(** The message status as the earlier, legacy-only [processMessagesData]
    derived it: from the record's own status. *)
Definition legacyMessageStatus (record : SMSRecord.t) : option MessageStatus :=
  match SMSRecord.party record with
  | None => None
  | Some party =>
      if negb (truthy (SMSParty.phone party))
         || negb (truthy (SMSRecord.message record))
      then None
      else
        let isFromMe := streq (SMSParty.direction party) (str "to") in
        Some (mapSMSStatusToMessageStatus (SMSRecord.status record) isFromMe)
  end.

(* ================================================================== *)
(** ** workers/search.worker.ts *)
(* ================================================================== *)

Module SearchIndexItem.
Record t := mk { contactId : jsstring; text : jsstring }.
End SearchIndexItem.

Inductive IncomingMessage :=
| InitMessage (searchIndex : list SearchIndexItem.t)
| SearchMessage (id : number) (query : jsstring).

Record ResultMessage := mkResult { result_id : number; results : list jsstring }.

(** The worker's state is its module variable [index]; a handler call maps
    the state and the incoming message to the new state and what was posted. *)
Definition onmessage (index : list SearchIndexItem.t) (e : IncomingMessage)
  : list SearchIndexItem.t * option ResultMessage :=
  match e with
  | InitMessage searchIndex =>
      (map (fun it =>
              SearchIndexItem.mk (SearchIndexItem.contactId it)
                (toLowerCase (orElse (SearchIndexItem.text it) [])))
           searchIndex,
       None)
  | SearchMessage id query =>
      let lowerQuery := trim (toLowerCase (orElse query [])) in
      if negb (truthy lowerQuery) then (index, Some (mkResult id []))
      else
        (index,
         Some (mkResult id
                 (map SearchIndexItem.contactId
                    (filter
                       (fun it => includes (SearchIndexItem.text it) lowerQuery)
                       index))))
  end.

(** The worker after [init(corpus)], asked [search(id, query)]. *)
Definition searchCorpus (corpus : list SearchIndexItem.t) (id : number)
  (query : jsstring) : option ResultMessage :=
  snd (onmessage (fst (onmessage [] (InitMessage corpus)))
                 (SearchMessage id query)).

(** [q] occurs in [s] as a contiguous substring. *)
Definition isSubstring (q s : jsstring) : Prop :=
  exists a b, s = a ++ q ++ b.

(* ================================================================== *)
(** ** components/ContactList.tsx: match-location lookup *)
(* ================================================================== *)

(** The horizontal ellipsis, U+2026. *)
Definition ellipsis : jsstring := [8230%N].

Record MatchMeta := mkMeta { snippet : jsstring; messageId : number }.

(** The snippet around a match at [idx]. *)
Definition snippetAt (text query : jsstring) (idx : Z) : jsstring :=
  let start := Z.max 0 (idx - 20) in
  let end_ := Z.min (strlen text) (idx + strlen query + 20) in
  let prefix := if (0 <? start)%Z then ellipsis else [] in
  let suffix := if (end_ <? strlen text)%Z then ellipsis else [] in
  prefix ++ slice text start end_ ++ suffix.

Section MatchLocation.
(** [String.prototype.toLowerCase] as the lookup uses it.  The lookup finds
    the query in the lowercased body and cuts the snippet out of the body
    itself, so the lengths of the two matter, and the built-in does not
    always keep them: U+0130 lowers to the two code units U+0069 U+0307.
    The functions of the lookup are therefore given for any lowering. *)
Variable lower : jsstring -> jsstring.

(** The inner loop of [processChunk] over one contact's messages. *)
Fixpoint findMatch (query : jsstring) (messages : list Message.t)
  : option MatchMeta :=
  match messages with
  | [] => None
  | m :: rest =>
      if negb (truthy (Message.text m)) then findMatch query rest
      else
        let text := Message.text m in
        let lowerText := lower text in
        let idx := indexOf lowerText query in
        if (0 <=? idx)%Z
        then Some (mkMeta (snippetAt text query idx) (Message.id m))
        else findMatch query rest
  end.

(** [if (!found && messages.length > 0)]: the most recent message. *)
Definition fallbackMeta (messages : list Message.t) : option MatchMeta :=
  match rev messages with
  | [] => None
  | firstMsg :: _ =>
      if truthy (Message.text firstMsg) then
        let text := Message.text firstMsg in
        Some (mkMeta
                (if (60 <? strlen text)%Z then slice text 0 60 ++ ellipsis
                 else text)
                (Message.id firstMsg))
      else None
  end.

(** What one turn of the loop over [filteredContactIds] stores for its
    contact ([None]: nothing is stored), given [messagesByContact.get]. *)
Definition matchMetaFor (messages : option (list Message.t))
  (query : jsstring) : option MatchMeta :=
  match messages with
  | None => None
  | Some [] => None
  | Some ((_ :: _) as messages) =>
      match findMatch query messages with
      | Some meta => Some meta
      | None => fallbackMeta messages
      end
  end.

(** The effect that fills [matchMetaByContact].  It works through
    [filteredContactIds] in chunks of 20, one per timer tick; the map it
    leaves when the last chunk is done is the one built here. *)
Definition matchMetaByContact (searchQuery : jsstring)
  (messagesByContact : option (Map (list Message.t)))
  (filteredContactIds : option (list jsstring)) : Map MatchMeta :=
  let query := lower (trim searchQuery) in
  match messagesByContact, filteredContactIds with
  | Some byContact, Some ((_ :: _) as ids) =>
      if negb (truthy query) then []
      else
        fold_left
          (fun result contactId =>
             match matchMetaFor (Map_get contactId byContact) query with
             | Some meta => Map_set contactId meta result
             | None => result
             end)
          ids []
  | _, _ => []
  end.
End MatchLocation.

(* ================================================================== *)
(** ** Vocabulary of the statements *)
(* ================================================================== *)

(** The key under which the viewer looks a contact up:
    [contact.normalizedPhone || contact.phone]. *)
Definition contactIdOf (c : Contact.t) : jsstring :=
  orElse (Contact.normalizedPhone c) (Contact.phone c).

(** A record is accepted in a state when the callback gets past all of its
    early returns; the fields are then the callback's local variables. *)
Definition accepted (st : State) (record : UnifiedRecord) : option Fields :=
  match extractFields st record with
  | Some f => if truthy (f_phone f) then Some f else None
  | None => None
  end.

(** The accepted records of a run that starts in [st], in input order, each
    with its fields. *)
Fixpoint acceptedFrom (st : State) (data : list UnifiedRecord)
  : list (UnifiedRecord * Fields) :=
  match data with
  | [] => []
  | record :: rest =>
      match accepted st record with
      | Some f => [(record, f)]
      | None => []
      end ++ acceptedFrom (processRecord st record) rest
  end.

Definition acceptedRecords (data : list UnifiedRecord)
  : list (UnifiedRecord * Fields) :=
  acceptedFrom initialState data.

(** The ContactKey an accepted record maps to. *)
Definition keyOf (rf : UnifiedRecord * Fields) : jsstring :=
  contactKeyOf (f_phone (snd rf)).

Definition mapsTo (key : jsstring) (rf : UnifiedRecord * Fields) : bool :=
  streq (keyOf rf) key.

Definition messageOf (rf : UnifiedRecord * Fields) : Message.t :=
  buildMessage (fst rf) (snd rf).

(** An accepted record that is incoming (not from me) and unread. *)
Definition incomingUnread (rf : UnifiedRecord * Fields) : bool :=
  negb (f_isFromMe (snd rf)) && negb (f_isRead (snd rf)).

(** The list stored under a key, empty when the key is absent. *)
Definition listAt (V : Type) (key : jsstring) (m : Map (list V)) : list V :=
  match Map_get key m with Some l => l | None => [] end.

(** What holds of the callback's state between any two records. *)
Record Consistent (st : State) : Prop := mkConsistent {
  keys_agree :
    Map_keys (contactsMap st) = Map_keys (messagesByContact st);
  keys_nodup : NoDup (Map_keys (contactsMap st));
  contact_entry :
    forall key c,
      Map_get key (contactsMap st) = Some c ->
      contactKeyOf (Contact.phone c) = key
      /\ Contact.normalizedPhone c = normalizePhoneNumber (Contact.phone c)
      /\ truthy (Contact.phone c) = true
      /\ 1 <= Contact.messageCount c
      /\ exists messages,
           Map_get key (messagesByContact st) = Some messages
           /\ Contact.messageCount c = length messages;
  last_entry :
    forall key,
      lastContactKey st = Some key ->
      truthy key = true /\ Map_get key (contactsMap st) <> None
}.

(** A timestamp that is a valid date, and its time value. *)
Definition validDate (d : Date) : Prop := exists z, getTime d = Num z.

Definition timeOf (d : Date) : Z :=
  match getTime d with Num z => z | NaN => 0%Z end.

(** How many accepted records carry the raw phone string [phone]. *)
Definition recordsWithPhone (phone : jsstring)
  (l : list (UnifiedRecord * Fields)) : nat :=
  length (filter (fun rf => streq (f_phone (snd rf)) phone) l).

(** How many accepted records map to the ContactKey [key]. *)
Definition recordsWithKey (key : jsstring)
  (l : list (UnifiedRecord * Fields)) : nat :=
  length (filter (mapsTo key) l).

(* ================================================================== *)
(** ** Sample records *)
(* ================================================================== *)

Module Samples.
Definition at_ (ms : Z) : Date := mkDate (Num ms).
Definition invalidDate : Date := mkDate NaN.

Definition legacy (id : Z) (direction phone name : jsstring) (time : Date)
  (status message : jsstring) : UnifiedRecord :=
  Legacy (SMSRecord.mk (Num id)
            (Some (SMSParty.mk direction phone name)) time (Some status)
            message).

Definition unified (ID type direction : jsstring) (timestamp : Date)
  (party description : jsstring) : UnifiedRecord :=
  Unified (DataRecord.mk ID type direction timestamp party description).

(** Two spellings of one number, three records. *)
Definition twoSpellings : list UnifiedRecord :=
  [ legacy 1 (str "from") (str "+960 1234567") (str "Amy") (at_ 100)
      (str "Read") (str "one");
    legacy 2 (str "to") (str "1234567") (str "") (at_ 300)
      (str "Sent") (str "two");
    legacy 3 (str "from") (str "+960 1234567") (str "Amy") (at_ 200)
      (str "Unread") (str "three") ].

(** One contact's records at times T1, T3, T2. *)
Definition outOfOrder : list UnifiedRecord :=
  [ legacy 1 (str "from") (str "7781405") (str "Ali") (at_ 100)
      (str "Read") (str "one");
    legacy 3 (str "from") (str "7781405") (str "Ali") (at_ 300)
      (str "Read") (str "three");
    legacy 2 (str "to") (str "7781405") (str "Ali") (at_ 200)
      (str "Sent") (str "two") ].

(** An unread incoming message, then a sent one and a read one. *)
Definition unreadFirst : UnifiedRecord :=
  legacy 1 (str "from") (str "7781405") (str "Ali") (at_ 100)
    (str "Unread") (str "call me").

Definition repliesAfterUnread : list UnifiedRecord :=
  [ legacy 2 (str "to") (str "7781405") (str "Ali") (at_ 200)
      (str "Sent") (str "later");
    legacy 3 (str "from") (str "7781405") (str "Ali") (at_ 300)
      (str "Read") (str "ok") ].

(** The end-to-end scenario of the specification. *)
Definition amy : list UnifiedRecord :=
  [ unified (str "1") (str "SMS Messages") (str "From") (at_ 1577872800000)
      (str "From: +9601234567 Amy") (str "hi");
    unified (str "2") (str "SMS Messages") (str "To") (at_ 1577873100000)
      (str "To: +9601234567 Amy") (str "hello") ].
End Samples.

(* ================================================================== *)
(** ** Vocabulary of the statements on unified records *)
(* ================================================================== *)

Definition isCallLogRecord (r : DataRecord.t) : bool :=
  streq (DataRecord.Type_ r) (str "Call Log").

(** The Type is one of SMS Messages, Instant Messages, Call Log. *)
Definition consumedType (r : DataRecord.t) : bool :=
  streq (DataRecord.Type_ r) (str "SMS Messages")
  || streq (DataRecord.Type_ r) (str "Instant Messages")
  || isCallLogRecord r.

(** The Party, trimmed, is From: or To: (in any letter case) and nothing
    else: the two tests [hasEmptyFrom] and [hasEmptyTo] of the callback. *)
Definition isContinuation (r : DataRecord.t) : bool :=
  matchEmptyParty (str "From:") (trim (DataRecord.Party r))
  || matchEmptyParty (str "To:") (trim (DataRecord.Party r)).

(** A non-empty string of decimal digits. *)
Definition bareDigits (s : jsstring) : bool := truthy s && forallb isDigit s.

(** The call-log test of the callback: a non-empty Party with neither
    marker in it. *)
Definition unmarkedParty (s : jsstring) : bool :=
  truthy s && negb (includes s (str "From:")) && negb (includes s (str "To:")).

(** The three reasons to skip, with the call-log exception as [callParty]
    reads the Party. *)
Definition skipReasons (callParty : jsstring -> bool) (r : DataRecord.t)
  : bool :=
  negb (consumedType r)
  || (negb (isCallLogRecord r) && negb (truthy (DataRecord.Description r)))
  || (match extractPhoneFromParty (DataRecord.Party r) with
      | Some _ => false
      | None => true
      end
      && negb (isContinuation r)
      && negb (isCallLogRecord r && callParty (DataRecord.Party r))).

Module Samples2.
(** A call log whose Party is a phone number written with a plus sign and
    a space. *)
Definition plainCall : DataRecord.t :=
  DataRecord.mk (str "9") (str "Call Log") (str "") (Samples.at_ 500)
    (str "+960 7778787") (str "").

(** A calendar row and a message row without text, both with an empty
    From: party. *)
Definition calendarRow : DataRecord.t :=
  DataRecord.mk (str "3") (str "Calendar") (str "") (Samples.at_ 1577873400000)
    (str "From: ") (str "meeting").

Definition blankRow : DataRecord.t :=
  DataRecord.mk (str "4") (str "SMS Messages") (str "From")
    (Samples.at_ 1577873400000) (str "From: ") (str "").

(** A continuation row. *)
Definition continuationRow : DataRecord.t :=
  DataRecord.mk (str "5") (str "SMS Messages") (str "From")
    (Samples.at_ 1577873400000) (str "From: ") (str "part two").
End Samples2.

(** The key of the most recent accepted record of a run. *)
Definition lastAttributed (data : list UnifiedRecord) : option jsstring :=
  match rev (acceptedRecords data) with
  | [] => None
  | rf :: _ => Some (keyOf rf)
  end.

(** The message a continuation row becomes. *)
Definition continuationMessage (fromParty : bool) (r : DataRecord.t)
  : Message.t :=
  Message.mk (parseInt (DataRecord.ID r)) (DataRecord.Description r)
    (DataRecord.Timestamp r)
    (streq (DataRecord.Direction r) (str "To") || fromParty)
    true read (isCallLogRecord r).

Module Samples3.
(** A legacy record sent by the owner, with source status Sent. *)
Definition sentRecord : SMSRecord.t :=
  SMSRecord.mk (Num 2) (Some (SMSParty.mk (str "to") (str "7781405") (str "")))
    (Samples.at_ 300) (Some (str "Sent")) (str "on my way").

(** The same with source status Failed. *)
Definition failedRecord : SMSRecord.t :=
  SMSRecord.mk (Num 3) (Some (SMSParty.mk (str "to") (str "7781405") (str "")))
    (Samples.at_ 400) (Some (str "Failed")) (str "are you there").

(** Two rows of one contact; the first one's Timestamp string gives an
    Invalid Date (a month 13, say, which [new Date] rejects without
    throwing). *)
Definition undated : UnifiedRecord :=
  Samples.unified (str "1") (str "SMS Messages") (str "From")
    Samples.invalidDate (str "From: +9601234567 Amy") (str "first").

Definition dated : UnifiedRecord :=
  Samples.unified (str "2") (str "SMS Messages") (str "From")
    (Samples.at_ 1577873100000) (str "From: +9601234567 Amy") (str "second").
End Samples3.

(* ================================================================== *)
(** ** Vocabulary of the statements on the match-location lookup *)
(* ================================================================== *)




Module Samples4.







End Samples4.

(* ================================================================== *)
(** ** Vocabulary of the statements on time order *)
(* ================================================================== *)

(** The Date a record carries. *)
Definition recordTime (record : UnifiedRecord) : Date :=
  match record with
  | Legacy r => SMSRecord.time r
  | Unified r => DataRecord.Timestamp r
  end.

Definition messageTime (m : Message.t) : Z := timeOf (Message.timestamp m).

Definition validMessage (m : Message.t) : Prop :=
  validDate (Message.timestamp m).

(** Ascending time order. *)
Definition notAfter : Message.t -> Message.t -> Prop :=
  ascendingBy messageTime.

(** Every contact's last message is one of its messages, and none of its
    messages is newer. *)
Definition Dated (st : State) : Prop :=
  forall key c,
    Map_get key (contactsMap st) = Some c ->
    validDate (Contact.lastMessageTime c)
    /\ Forall (fun m => validMessage m
                        /\ (messageTime m <= timeOf (Contact.lastMessageTime c))%Z)
         (listAt key (messagesByContact st))
    /\ Exists (fun m => Message.timestamp m = Contact.lastMessageTime c
                        /\ Message.text m = Contact.lastMessage c)
         (listAt key (messagesByContact st)).


(* ================================================================== *)
(** ** The search worker over a stream of messages *)
(* ================================================================== *)

(** The worker handles its messages one at a time, in arrival order: the
    index it is left with and the results it posted, oldest first. *)
Fixpoint runWorker (index : list SearchIndexItem.t)
  (messages : list IncomingMessage)
  : list SearchIndexItem.t * list ResultMessage :=
  match messages with
  | [] => (index, [])
  | e :: rest =>
      let '(index', posted) := onmessage index e in
      let '(final, later) := runWorker index' rest in
      (final,
       match posted with Some r => r :: later | None => later end)
  end.

(** The corpus of the most recent [init] of a stream, if it has one. *)
Fixpoint lastInit (messages : list IncomingMessage)
  : option (list SearchIndexItem.t) :=
  match messages with
  | [] => None
  | e :: rest =>
      match lastInit rest with
      | Some corpus => Some corpus
      | None =>
          match e with
          | InitMessage corpus => Some corpus
          | SearchMessage _ _ => None
          end
      end
  end.

(** The ids of the [search] messages of a stream, in order. *)
Fixpoint searchIds (messages : list IncomingMessage) : list number :=
  match messages with
  | [] => []
  | InitMessage _ :: rest => searchIds rest
  | SearchMessage id _ :: rest => id :: searchIds rest
  end.

Definition isInit (e : IncomingMessage) : bool :=
  match e with InitMessage _ => true | SearchMessage _ _ => false end.

(** What [init] stores for a corpus. *)
Definition loweredCorpus (corpus : list SearchIndexItem.t)
  : list SearchIndexItem.t :=
  map (fun it => SearchIndexItem.mk (SearchIndexItem.contactId it)
                   (toLowerCase (SearchIndexItem.text it))) corpus.

(* ================================================================== *)
(** ** components/MessagingApp.tsx: the search index *)
(* ================================================================== *)

(** [parts.join(sep)] *)
Definition join (sep : jsstring) (parts : list jsstring) : jsstring :=
  match parts with
  | [] => []
  | first :: rest => first ++ concat (map (fun part => sep ++ part) rest)
  end.

(** The array that is joined for one contact. *)
Definition aggregatedParts (contact : Contact.t) (messages : list Message.t)
  (searchTerms : list jsstring) : list jsstring :=
  [ orElse (Contact.name contact) [];
    orElse (Contact.phone contact) [];
    orElse (Contact.normalizedPhone contact) [];
    orElse (Contact.lastMessage contact) [] ]
  ++ map (fun m => orElse (Message.text m) []) messages
  ++ searchTerms.

(** The [searchIndex] memo: one lowercased string per contact. *)
Definition buildSearchIndex (out : Processed) : Map jsstring :=
  match contacts out with
  | [] => []
  | _ :: _ =>
      fold_left
        (fun index contact =>
           let contactId :=
             orElse (Contact.normalizedPhone contact) (Contact.phone contact) in
           let messages :=
             match Map_get contactId (out_messagesByContact out) with
             | Some l => l
             | None => []
             end in
           let searchTerms :=
             match Map_get contactId (out_searchableData out) with
             | Some l => l
             | None => []
             end in
           let aggregated :=
             join [10%N] (aggregatedParts contact messages searchTerms) in
           Map_set contactId (toLowerCase aggregated) index)
        (contacts out) []
  end.

(* ================================================================== *)
(** ** components/ContactList.tsx: from the index to the filtered list *)
(* ================================================================== *)

(** The [workerSearchIndex] memo; [None] is a missing [searchIndex] prop. *)
Definition workerSearchIndex (searchIndex : option (Map jsstring))
  : list SearchIndexItem.t :=
  match searchIndex with
  | None => []
  | Some index => map (fun kv => SearchIndexItem.mk (fst kv) (snd kv)) index
  end.

(** The effect that hands the index to the worker: an empty one is not
    sent. *)
Definition initMessages (items : list SearchIndexItem.t)
  : list IncomingMessage :=
  match items with
  | [] => []
  | _ :: _ => [InitMessage items]
  end.

(** The [filteredContacts] memo; [None] is [filteredContactIds === null]. *)
Definition filteredContacts (contacts : list Contact.t)
  (searchQuery : jsstring) (filteredContactIds : option (list jsstring))
  : list Contact.t :=
  match filteredContactIds with
  | None => contacts
  | Some ids =>
      if negb (truthy (trim searchQuery)) then contacts
      else
        filter
          (fun contact =>
             let contactId :=
               orElse (Contact.normalizedPhone contact) (Contact.phone contact) in
             existsb (streq contactId) ids)
          contacts
  end.

(** The whole path of a query: the data is processed, the index built and
    sent to a fresh worker, and the worker asked; the ids it posts. *)
Definition searchData (data : list UnifiedRecord) (id : number)
  (query : jsstring) : list (list jsstring) :=
  let out := processMessagesData data in
  let items := workerSearchIndex (Some (buildSearchIndex out)) in
  map results
    (snd (runWorker [] (initMessages items ++ [SearchMessage id query]))).

(** The index entry of a contact, in the order of the source: name, phone,
    normalised phone, last message, message bodies, searchable terms. *)
Definition searchEntry (out : Processed) (contact : Contact.t) : jsstring :=
  toLowerCase
    (join [10%N]
       (aggregatedParts contact
          (listAt (contactIdOf contact) (out_messagesByContact out))
          (listAt (contactIdOf contact) (out_searchableData out)))).

(* ================================================================== *)
(** ** Vocabulary of further statements on the aggregation *)
(* ================================================================== *)

(** Newest conversation first. *)
Definition newestFirst (a b : Contact.t) : Prop :=
  (timeOf (Contact.lastMessageTime b) <= timeOf (Contact.lastMessageTime a))%Z.

(** The fields of a record that are searched, in the order in which they
    are stored: Party and Description of a unified record; of a legacy
    record the name and the phone of its party, when it has one, and the
    message. *)
Definition fieldsSearched (record : UnifiedRecord) : list jsstring :=
  match record with
  | Unified r => [DataRecord.Party r; DataRecord.Description r]
  | Legacy r =>
      match SMSRecord.party r with
      | Some party => [SMSParty.name party; SMSParty.phone party]
      | None => []
      end ++ [SMSRecord.message r]
  end.

(** The searchable terms a list of accepted records contributes: of each
    record, in order, its searched fields that are not empty. *)
Definition termsOf (l : list (UnifiedRecord * Fields)) : list jsstring :=
  flat_map (fun rf => filter truthy (fieldsSearched (fst rf))) l.

(** Every record of the input is of the unified format. *)
Definition allUnified (data : list UnifiedRecord) : Prop :=
  Forall (fun record => isDataRecord record = true) data.

(** The contact's last message is the first message, in input order, that
    carries the contact's newest timestamp. *)
Definition FirstNewest (st : State) : Prop :=
  forall key c,
    Map_get key (contactsMap st) = Some c ->
    validDate (Contact.lastMessageTime c)
    /\ exists earlier m later,
         listAt key (messagesByContact st) = earlier ++ m :: later
         /\ Message.timestamp m = Contact.lastMessageTime c
         /\ Message.text m = Contact.lastMessage c
         /\ Forall (fun m' => validMessage m'
                              /\ (messageTime m' < messageTime m)%Z) earlier
         /\ Forall (fun m' => validMessage m'
                              /\ (messageTime m' <= messageTime m)%Z) later.

Module Samples5.
(** One contact's records: an old one, then two of the same, newest time. *)
Definition sameTime : list UnifiedRecord :=
  [ Samples.legacy 1 (str "from") (str "7781405") (str "Ali") (Samples.at_ 100)
      (str "Read") (str "old");
    Samples.legacy 2 (str "from") (str "7781405") (str "Ali") (Samples.at_ 300)
      (str "Read") (str "first");
    Samples.legacy 3 (str "from") (str "7781405") (str "Ali") (Samples.at_ 300)
      (str "Read") (str "second") ].

(** The same number under two names. *)
Definition renamed : list UnifiedRecord :=
  [ Samples.legacy 1 (str "from") (str "+960 7781405") (str "Ali")
      (Samples.at_ 100) (str "Read") (str "one");
    Samples.legacy 2 (str "from") (str "7781405") (str "Ali Work")
      (Samples.at_ 200) (str "Read") (str "two") ].

(** The year of a time value, exact away from the turn of the year. *)
Definition approximateYear (d : Date) : number :=
  match getTime d with
  | Num ms => Num (1970 + ms / 31556952000)
  | NaN => NaN
  end.

Definition inJune2019 : Message.t :=
  Message.mk (Num 1) (str "before") (Samples.at_ 1560000000000)
    false true read false.

Definition inMay2020 : Message.t :=
  Message.mk (Num 2) (str "after") (Samples.at_ 1590000000000)
    false true read false.
End Samples5.

(* ================================================================== *)
(** ** utils/contactColors.ts *)
(* ================================================================== *)

Definition COLOR_COMBINATIONS : list jsstring :=
  [ str "from-blue-400 to-blue-600";
    str "from-green-400 to-green-600";
    str "from-purple-400 to-purple-600";
    str "from-pink-400 to-pink-600";
    str "from-indigo-400 to-indigo-600";
    str "from-red-400 to-red-600";
    str "from-yellow-400 to-yellow-600";
    str "from-cyan-400 to-cyan-600";
    str "from-orange-400 to-orange-600";
    str "from-teal-400 to-teal-600";
    str "from-lime-400 to-lime-600";
    str "from-emerald-400 to-emerald-600";
    str "from-violet-400 to-violet-600";
    str "from-fuchsia-400 to-fuchsia-600";
    str "from-rose-400 to-rose-600";
    str "from-sky-400 to-sky-600" ].

(** ToInt32: the operands and the result of [<<] and [&] are 32-bit
    two's-complement integers. *)
Definition toInt32 (z : Z) : Z := ((z + 2 ^ 31) mod 2 ^ 32 - 2 ^ 31)%Z.

(** One round of the loop of [hashString]; [-] and [+] are exact on
    numbers of this size. *)
Definition hashRound (hash : Z) (char : N) : Z :=
  let hash := (toInt32 (Z.shiftl (toInt32 hash) 5) - hash + Z.of_N char)%Z in
  Z.land (toInt32 hash) (toInt32 hash).

Definition hashString (s : jsstring) : Z :=
  Z.abs (fold_left hashRound s 0%Z).

(** [None] is [undefined], an index outside the array. *)
Definition getContactColor (contactId : jsstring) : option jsstring :=
  let hash := hashString contactId in
  let colorIndex := (hash mod Z.of_nat (length COLOR_COMBINATIONS))%Z in
  nth_error COLOR_COMBINATIONS (Z.to_nat colorIndex).

(** The value of the string as a numeral in base 31, without wrap-around. *)
Definition base31 (s : jsstring) : Z :=
  fold_left (fun h c => (31 * h + Z.of_N c)%Z) s 0%Z.

(* ================================================================== *)
(** ** utils/messageUtils.ts: the name shown for a contact *)
(* ================================================================== *)

Definition getContactDisplayName (contact : Contact.t) : jsstring :=
  if truthy (Contact.name contact)
     && negb (streq (Contact.name contact) (str "Unknown"))
     && negb (streq (trim (Contact.name contact)) [])
  then Contact.name contact
  else Contact.phone contact.

(* ================================================================== *)
(** ** components/MessageThread.tsx: year dividers *)
(* ================================================================== *)

(** [a !== b] on numbers: NaN differs from everything, itself included. *)
Definition strictNe (a b : number) : bool :=
  match a, b with
  | Num x, Num y => negb (x =? y)%Z
  | _, _ => true
  end.

(** The [data] of an item; its [type] is the constructor. *)
Inductive ItemData :=
| MessageData (message : Message.t)
| DividerData (year : number).

Record Item := mkItem { item_data : ItemData; item_index : nat }.

Section MessageThread.
(** [Date.prototype.getFullYear], which reads the time zone of the host
    and gives NaN for an invalid date, and [new Date().getFullYear()]. *)
Variable getFullYear : Date -> number.
Variable currentCalendarYear : number.

Definition getMessageYear (timestamp : Date) : number := getFullYear timestamp.

(** The callback of [messages.forEach], on the array [items]. *)
Definition pushItems (messages : list Message.t) (items : list Item)
  (message : Message.t) (index : nat) : list Item :=
  let currentYear := getMessageYear (Message.timestamp message) in
  let previousYear :=
    if (0 <? index)%nat
    then option_map (fun m => getMessageYear (Message.timestamp m))
           (nth_error messages (index - 1))
    else None in
  let showYearDivider :=
    match previousYear with
    | Some y => strictNe currentYear y
    | None => false
    end in
  let isFirstMessage := (index =? 0)%nat in
  let showFirstYearDivider :=
    isFirstMessage && strictNe currentYear currentCalendarYear in
  let items :=
    if showYearDivider || showFirstYearDivider
    then items ++ [mkItem (DividerData currentYear) (length items)]
    else items in
  items ++ [mkItem (MessageData message) (length items)].

(** [forEach] from position [index] on; [rest] is what is left of
    [messages] there. *)
Fixpoint forEachFrom (messages : list Message.t) (index : nat)
  (rest : list Message.t) (items : list Item) : list Item :=
  match rest with
  | [] => items
  | message :: rest' =>
      forEachFrom messages (S index) rest' (pushItems messages items message index)
  end.

Definition itemsWithDividers (messages : list Message.t) : list Item :=
  forEachFrom messages 0 messages [].

(** The messages among the items, in order. *)
Definition messagesOf (items : list Item) : list Message.t :=
  flat_map (fun item =>
              match item_data item with
              | MessageData m => [m]
              | DividerData _ => []
              end) items.

(** Rows in which every divider is directly followed by a message of the
    divider's year. *)
Inductive Framed : list ItemData -> Prop :=
| Framed_nil : Framed []
| Framed_message (m : Message.t) (rest : list ItemData) :
    Framed rest -> Framed (MessageData m :: rest)
| Framed_divider (m : Message.t) (rest : list ItemData) :
    Framed rest ->
    Framed (DividerData (getMessageYear (Message.timestamp m))
              :: MessageData m :: rest).

(** Whether a divider precedes [message], which comes after [previous], or
    first when there is none. *)
Definition dividerBefore (previous : option Message.t) (message : Message.t)
  : bool :=
  strictNe (getMessageYear (Message.timestamp message))
    match previous with
    | Some p => getMessageYear (Message.timestamp p)
    | None => currentCalendarYear
    end.

Definition rowsOf (previous : option Message.t) (message : Message.t)
  : list ItemData :=
  (if dividerBefore previous message
   then [DividerData (getMessageYear (Message.timestamp message))]
   else [])
  ++ [MessageData message].

Fixpoint rows (previous : option Message.t) (messages : list Message.t)
  : list ItemData :=
  match messages with
  | [] => []
  | message :: rest => rowsOf previous message ++ rows (Some message) rest
  end.
End MessageThread.

(* ================================================================== *)
(** ** hooks/useSearchWorker.ts *)
(* ================================================================== *)

(** The refs and the state of the hook.  A resolver in
    [resolversRef.current] is the [wrappedResolve] of the request it is
    stored under, so the map is given by its keys, in insertion order. *)
Record Hook := mkHook {
  workerRef : bool;          (* whether [workerRef.current] is set *)
  isSearching : bool;
  resolversRef : list Z;
  nextIdRef : Z
}.

Definition initialHook : Hook := mkHook false false [] 0.

(** What a handler does to the outside: it resolves the promise of a
    request, resolves the promise of a call that was never sent, or posts a
    message to the worker. *)
Inductive Effect :=
| Resolve (id : Z) (results : list jsstring)
| ResolveUnsent (results : list jsstring)
| PostMessage (message : IncomingMessage).

(** [e.data] of a message event of the worker: a result, whose [results]
    is [None] when it is not an array, or anything else. *)
Inductive WorkerData :=
| ResultData (id : number) (results : option (list jsstring))
| OtherData.

Inductive HookEvent :=
| Mount
| InitIndex (searchIndex : list SearchIndexItem.t)
| Search (query : jsstring)
| MessageEvent (data : option WorkerData)
| ErrorEvent
| TimeoutFires (id : Z).

Definition resolvers_has (id : Z) (resolvers : list Z) : bool :=
  existsb (Z.eqb id) resolvers.

Definition resolvers_delete (id : Z) (resolvers : list Z) : list Z :=
  filter (fun id' => negb (id =? id')%Z) resolvers.

Definition resolvers_set (id : Z) (resolvers : list Z) : list Z :=
  if resolvers_has id resolvers then resolvers else resolvers ++ [id].

(** [if (resolversRef.current.size === 0) setIsSearching(false)] *)
Definition settle (h : Hook) (resolvers : list Z) : Hook :=
  mkHook (workerRef h)
    (match resolvers with [] => false | _ :: _ => isSearching h end)
    resolvers (nextIdRef h).

Definition handleMessage (h : Hook) (data : option WorkerData)
  : Hook * list Effect :=
  match data with
  | Some (ResultData id results) =>
      match id with
      | Num id =>
          if resolvers_has id (resolversRef h)
          then (settle h (resolvers_delete id (resolversRef h)),
                [Resolve id (match results with Some r => r | None => [] end)])
          else (settle h (resolversRef h), [])
      | NaN => (settle h (resolversRef h), [])
      end
  | Some OtherData => (h, [])
  | None => (h, [])
  end.

Definition handleError (h : Hook) : Hook * list Effect :=
  (mkHook (workerRef h) false [] (nextIdRef h),
   map (fun id => Resolve id []) (resolversRef h)).

Definition initIndex (h : Hook) (searchIndex : list SearchIndexItem.t)
  : Hook * list Effect :=
  if negb (workerRef h) then (h, [])
  else (h, [PostMessage (InitMessage searchIndex)]).

Definition search (h : Hook) (query : jsstring) : Hook * list Effect :=
  if negb (workerRef h) then (h, [ResolveUnsent []])
  else
    let id := (nextIdRef h + 1)%Z in
    (mkHook (workerRef h) true (resolvers_set id (resolversRef h)) id,
     [PostMessage (SearchMessage (Num id) query)]).

(** The callback of the 5000 ms timer of request [id]. *)
Definition onTimeout (h : Hook) (id : Z) : Hook * list Effect :=
  if resolvers_has id (resolversRef h)
  then (settle h (resolvers_delete id (resolversRef h)), [Resolve id []])
  else (h, []).

Definition hookStep (h : Hook) (event : HookEvent) : Hook * list Effect :=
  match event with
  | Mount => (mkHook true (isSearching h) (resolversRef h) (nextIdRef h), [])
  | InitIndex searchIndex => initIndex h searchIndex
  | Search query => search h query
  | MessageEvent data => handleMessage h data
  | ErrorEvent => handleError h
  | TimeoutFires id => onTimeout h id
  end.

(** The hook over a sequence of events: the state it ends in and
    everything it did, oldest first. *)
Fixpoint runHook (h : Hook) (events : list HookEvent) : Hook * list Effect :=
  match events with
  | [] => (h, [])
  | event :: rest =>
      let '(h1, effects) := hookStep h event in
      let '(h2, later) := runHook h1 rest in
      (h2, effects ++ later)
  end.

(** The requests that were resolved, in order. *)
Definition resolvedIds (effects : list Effect) : list Z :=
  flat_map (fun e => match e with Resolve id _ => [id] | _ => [] end) effects.

(** The searching flag follows the pending requests. *)
Definition Flagged (h : Hook) : Prop :=
  isSearching h = match resolversRef h with [] => false | _ :: _ => true end.

(** With [done] the requests resolved so far: the requests issued are
    those resolved and those pending, each once. *)
Definition Accounted (h : Hook) (done : list Z) : Prop :=
  (0 <= nextIdRef h)%Z
  /\ NoDup (done ++ resolversRef h)
  /\ forall id, In id (done ++ resolversRef h) <-> (1 <= id <= nextIdRef h)%Z.
(* ================================================================== *)
(** ** Facts about the built-ins *)
(* ================================================================== *)

Unset Implicit Arguments.

Lemma streq_true (a b : jsstring) : streq a b = true <-> a = b.
Proof.
  unfold streq. destruct (list_eq_dec N.eq_dec a b); split; congruence.
Qed.

Lemma streq_false (a b : jsstring) : streq a b = false <-> a <> b.
Proof.
  unfold streq. destruct (list_eq_dec N.eq_dec a b); split; congruence.
Qed.

Lemma streq_refl (a : jsstring) : streq a a = true.
Proof. now apply streq_true. Qed.

Lemma filter_forallb (p : char -> bool) (s : jsstring) :
  forallb p (filter p s) = true.
Proof.
  induction s as [|c s IH]; simpl; [reflexivity|].
  destruct (p c) eqn:E; simpl; [rewrite E|]; assumption.
Qed.

Lemma filter_fixed (p : char -> bool) (s : jsstring) :
  forallb p s = true -> filter p s = s.
Proof.
  induction s as [|c s IH]; simpl; [reflexivity|].
  intros H. apply andb_true_iff in H as [Hc Hs]. rewrite Hc, IH; auto.
Qed.

Lemma startsWith_app (p s : jsstring) : startsWith (p ++ s) p = true.
Proof.
  induction p as [|a p IH]; simpl; [reflexivity|].
  now rewrite N.eqb_refl, IH.
Qed.

Lemma startsWith_truthy (s p : jsstring) :
  startsWith s p = true -> truthy p = true -> truthy s = true.
Proof. destruct p; destruct s; simpl; intros; congruence. Qed.

(* ================================================================== *)
(** ** Phone normalisation *)
(* ================================================================== *)

Lemma normalizePhoneNumber_digits (p : jsstring) :
  forallb isDigit (normalizePhoneNumber p) = true.
Proof.
  unfold normalizePhoneNumber.
  pose proof (filter_forallb isDigit p) as Hc.
  set (c := filter isDigit p) in *.
  assert (Ht : forallb isDigit (substring1 c) = true).
  { destruct c; simpl in *; [reflexivity|].
    now apply andb_true_iff in Hc as [_ Hc]. }
  repeat match goal with
         | |- context [if ?b then _ else _] => destruct b
         end;
    rewrite ?forallb_app; simpl; auto.
Qed.

(** What the function does on a string of digits. *)
Lemma normalizePhoneNumber_cleaned (c : jsstring) :
  forallb isDigit c = true ->
  normalizePhoneNumber c =
    if negb (truthy c) then []
    else if startsWith c (str "960") then c
    else if (length c =? 7)%nat then str "960" ++ c
    else if startsWith c (str "0") then str "960" ++ substring1 c
    else if (10 <=? length c)%nat then c
    else c.
Proof.
  intros H. unfold normalizePhoneNumber.
  rewrite (filter_fixed _ _ H), H, andb_true_r.
  destruct (length c =? 7)%nat; reflexivity.
Qed.

(** C9. Phone normalisation is idempotent: normalising the result of
    [normalizePhoneNumber] again gives the same string, for every input. *)
Theorem normalizePhoneNumber_idempotent (p : jsstring) :
  normalizePhoneNumber (normalizePhoneNumber p) = normalizePhoneNumber p.
Proof.
  rewrite (normalizePhoneNumber_cleaned _ (normalizePhoneNumber_digits p)).
  remember (normalizePhoneNumber p) as r eqn:Hr.
  unfold normalizePhoneNumber in Hr.
  pose proof (filter_forallb isDigit p) as Hc.
  set (c := filter isDigit p) in *.
  rewrite Hc, andb_true_r in Hr.
  destruct (truthy p); cbv beta iota delta [negb] in Hr; [|now subst r].
  destruct (startsWith c (str "960")) eqn:E960.
  - subst r. rewrite (startsWith_truthy _ _ E960 eq_refl), E960. reflexivity.
  - destruct (length c =? 7)%nat eqn:E7.
    + subst r. change (truthy (str "960" ++ c)) with true.
      rewrite startsWith_app. reflexivity.
    + destruct (startsWith c (str "0")) eqn:E0.
      * subst r. change (truthy (str "960" ++ substring1 c)) with true.
        rewrite startsWith_app. reflexivity.
      * assert (r = c) as -> by (now destruct (10 <=? length c)%nat).
        rewrite E960, E7, E0.
        destruct (truthy c) eqn:Et.
        -- destruct (10 <=? length c)%nat; reflexivity.
        -- destruct c; [reflexivity|discriminate].
Qed.

(* ------------------------------------------------------------------ *)
(** *** Substring search *)

Lemma startsWith_spec (s p : jsstring) :
  startsWith s p = true <-> exists t, s = p ++ t.
Proof.
  revert s. induction p as [|a p IH]; intros s; simpl.
  - split; [intros _; now exists s | reflexivity].
  - destruct s as [|b s].
    + split; [discriminate | intros [t Ht]; discriminate].
    + rewrite andb_true_iff, N.eqb_eq, IH. split.
      * intros [-> [t ->]]. now exists t.
      * intros [t Ht]. injection Ht as -> ->. split; [reflexivity | now exists t].
Qed.

Lemma indexOfFrom_shift (i : Z) (s q : jsstring) :
  indexOfFrom i s q = (-1)%Z /\ indexOfFrom 0 s q = (-1)%Z
  \/ (0 <= indexOfFrom 0 s q)%Z /\ indexOfFrom i s q = (i + indexOfFrom 0 s q)%Z.
Proof.
  revert i. induction s as [|c s IH]; intros i; simpl.
  - destruct (startsWith [] q); [right; lia | left; lia].
  - destruct (startsWith (c :: s) q); [right; lia|].
    destruct (IH (i + 1)%Z) as [[H1 H2]|[H1 H2]];
      destruct (IH 1%Z) as [[H3 H4]|[H3 H4]]; try lia.
Qed.

(** [indexOf] finds an occurrence, at the position it returns, and there is
    none further left. *)
Lemma indexOf_found (s q : jsstring) (j : Z) :
  indexOf s q = j -> (0 <= j)%Z ->
  exists a b, s = a ++ q ++ b /\ Z.of_nat (length a) = j.
Proof.
  unfold indexOf. revert j. induction s as [|c s IH]; intros j; simpl.
  - destruct (startsWith [] q) eqn:E; [|lia].
    intros <- _. apply startsWith_spec in E as [t Ht]. now exists [], t.
  - destruct (startsWith (c :: s) q) eqn:E.
    + intros <- _. apply startsWith_spec in E as [t Ht]. now exists [], t.
    + intros Hj Hpos.
      destruct (indexOfFrom_shift 1 s q) as [[H1 H2]|[H1 H2]]; [lia|].
      destruct (IH _ eq_refl H1) as (a & b & -> & Hlen).
      exists (c :: a), b. split; [reflexivity|]. simpl length. lia.
Qed.

Lemma indexOf_complete (s q a b : jsstring) :
  s = a ++ q ++ b -> (0 <= indexOf s q <= Z.of_nat (length a))%Z.
Proof.
  unfold indexOf. revert s. induction a as [|c a IH]; intros s ->.
  - simpl app. destruct (q ++ b) eqn:E; simpl;
      (replace (startsWith _ q) with true;
       [simpl; lia | symmetry; apply startsWith_spec; exists b; now rewrite E]).
  - simpl app. simpl indexOfFrom.
    destruct (startsWith (c :: a ++ q ++ b) q); [simpl; lia|].
    specialize (IH _ eq_refl).
    destruct (indexOfFrom_shift 1 (a ++ q ++ b) q) as [[H1 H2]|[H1 H2]];
      simpl length; lia.
Qed.

Lemma includes_spec (s q : jsstring) :
  includes s q = true <-> isSubstring q s.
Proof.
  unfold includes. rewrite Z.leb_le. split.
  - intros H. destruct (indexOf_found s q _ eq_refl H) as (a & b & Hs & _).
    now exists a, b.
  - intros (a & b & Hs). now apply (indexOf_complete _ _ _ _ Hs).
Qed.

Lemma toLowerCase_length (s : jsstring) : length (toLowerCase s) = length s.
Proof. apply length_map. Qed.

Lemma lowerUnit_idempotent (c : char) : lowerUnit (lowerUnit c) = lowerUnit c.
Proof.
  assert (Hc : lowerUnit c = c
               \/ lowerUnit c = (c + 32)%N
                  /\ (65 <= c <= 90 \/ 192 <= c <= 222)%N).
  { unfold lowerUnit.
    destruct (N.leb_spec 65 c), (N.leb_spec c 90), (N.leb_spec 192 c),
      (N.leb_spec c 222), (N.eqb_spec c 215); simpl; auto; right; lia. }
  destruct Hc as [Hc|[Hc Hr]]; rewrite Hc; [exact Hc|].
  unfold lowerUnit.
  destruct (N.leb_spec 65 (c + 32)), (N.leb_spec (c + 32) 90),
    (N.leb_spec 192 (c + 32)), (N.leb_spec (c + 32) 222),
    (N.eqb_spec (c + 32) 215); simpl; try reflexivity; lia.
Qed.

Lemma toLowerCase_idempotent (s : jsstring) :
  toLowerCase (toLowerCase s) = toLowerCase s.
Proof.
  unfold toLowerCase. rewrite map_map. apply map_ext, lowerUnit_idempotent.
Qed.

(* ================================================================== *)
(** ** Search executor *)
(* ================================================================== *)

Lemma truthy_false (s : jsstring) : truthy s = false <-> s = [].
Proof. destruct s; simpl; split; congruence. Qed.

Lemma init_index (index corpus : list SearchIndexItem.t) :
  fst (onmessage index (InitMessage corpus)) =
  map (fun it => SearchIndexItem.mk (SearchIndexItem.contactId it)
                   (toLowerCase (SearchIndexItem.text it))) corpus.
Proof.
  simpl. apply map_ext. intros [cid txt]. simpl.
  unfold orElse. now destruct txt.
Qed.

Lemma search_reply (index : list SearchIndexItem.t) (id : number)
  (query : jsstring) :
  snd (onmessage index (SearchMessage id query)) =
  Some (mkResult id
          (if truthy (trim (toLowerCase query))
           then map SearchIndexItem.contactId
                  (filter (fun it => includes (SearchIndexItem.text it)
                                       (trim (toLowerCase query))) index)
           else [])).
Proof.
  unfold onmessage.
  replace (orElse query []) with query by (unfold orElse; now destruct query).
  now destruct (truthy (trim (toLowerCase query))).
Qed.

Lemma filter_lowered (q : jsstring) (corpus : list SearchIndexItem.t) :
  map SearchIndexItem.contactId
    (filter (fun it => includes (SearchIndexItem.text it) q)
       (map (fun it => SearchIndexItem.mk (SearchIndexItem.contactId it)
                         (toLowerCase (SearchIndexItem.text it))) corpus))
  = map SearchIndexItem.contactId
      (filter (fun it => includes (toLowerCase (SearchIndexItem.text it)) q)
         corpus).
Proof.
  induction corpus as [|it l IH]; simpl; [reflexivity|].
  destruct (includes _ q); simpl; now rewrite IH.
Qed.

(** C1. After [init(corpus)], [search(id, query)] posts one result message
    carrying [id].  With [lowerQuery] the lowercased, trimmed query:
    when [lowerQuery] is empty the result list is empty, whatever the
    worker's index holds; otherwise the result list is the list of the
    contactIds of the corpus entries, in corpus order, whose lowercased text
    contains [lowerQuery], so a contactId is returned exactly when one of its
    entries has [lowerQuery] as a substring of its lowercased text. *)
Theorem search_correct (corpus : list SearchIndexItem.t) (id : number)
  (query : jsstring) :
  let lowerQuery := trim (toLowerCase query) in
  exists res,
    searchCorpus corpus id query = Some (mkResult id res)
    /\ (lowerQuery = [] ->
        res = []
        /\ forall index,
             snd (onmessage index (SearchMessage id query))
             = Some (mkResult id []))
    /\ (lowerQuery <> [] ->
        res = map SearchIndexItem.contactId
                (filter (fun it => includes (toLowerCase (SearchIndexItem.text it))
                                     lowerQuery) corpus)
        /\ forall cid,
             In cid res <->
             exists it, In it corpus
                        /\ SearchIndexItem.contactId it = cid
                        /\ isSubstring lowerQuery
                             (toLowerCase (SearchIndexItem.text it))).
Proof.
  intros lowerQuery. unfold searchCorpus.
  rewrite init_index, search_reply. fold lowerQuery.
  eexists. split; [reflexivity|].
  destruct (truthy lowerQuery) eqn:Ht.
  - split; [intros ->; discriminate|]. intros _.
    rewrite filter_lowered. split; [reflexivity|].
    intros cid. rewrite in_map_iff. split.
    + intros (it & Hid & Hin). apply filter_In in Hin as [Hin Hinc].
      exists it. repeat split; auto. now apply includes_spec.
    + intros (it & Hin & Hid & Hsub). exists it. split; [assumption|].
      apply filter_In. split; [assumption|]. now apply includes_spec.
  - apply truthy_false in Ht. split; [|intros Hne; contradiction].
    intros _. split; [reflexivity|]. intros index.
    rewrite search_reply. fold lowerQuery. now rewrite Ht.
Qed.

(** The spec's example entry: 'HELLO' matches it, 'xyz' does not, and an
    empty or blank query gives the empty list. *)
Example search_examples :
  let entry :=
    SearchIndexItem.mk (str "9601234567")
      (str "john" ++ [10%N] ++ str "+9601234567" ++ [10%N] ++ str "hello world") in
  searchCorpus [entry] (Num 1) (str "HELLO")
    = Some (mkResult (Num 1) [str "9601234567"])
  /\ searchCorpus [entry] (Num 2) (str "xyz") = Some (mkResult (Num 2) [])
  /\ searchCorpus [entry] (Num 3) (str "") = Some (mkResult (Num 3) [])
  /\ searchCorpus [entry] (Num 4) (str "   ") = Some (mkResult (Num 4) []).
Proof. repeat split; vm_compute; reflexivity. Qed.

Lemma search_correct_witness :
  exists res,
    searchCorpus [SearchIndexItem.mk (str "k1") (str "Hello World");
                  SearchIndexItem.mk (str "k2") (str "bye")]
      (Num 7) (str " WORLD ") = Some (mkResult (Num 7) res)
    /\ In (str "k1") res.
Proof.
  destruct (search_correct
              [SearchIndexItem.mk (str "k1") (str "Hello World");
               SearchIndexItem.mk (str "k2") (str "bye")]
              (Num 7) (str " WORLD ")) as (res & Hres & _ & Hfound).
  exists res. split; [exact Hres|].
  apply Hfound; [vm_compute; discriminate|].
  exists (SearchIndexItem.mk (str "k1") (str "Hello World")).
  split; [left; reflexivity|]. split; [reflexivity|].
  exists (str "hello "), []. reflexivity.
Defined.

(* ================================================================== *)
(** ** Maps in insertion order *)
(* ================================================================== *)

Section MapFacts.
Variable V : Type.
Implicit Types (m : Map V) (k : jsstring) (v : V).

Lemma Map_get_set k k' v m :
  Map_get k (Map_set k' v m) = if streq k k' then Some v else Map_get k m.
Proof.
  induction m as [|[k0 v0] m IH]; simpl.
  - destruct (streq k k'); reflexivity.
  - destruct (streq k' k0) eqn:E0; simpl.
    + apply streq_true in E0. subst k0.
      destruct (streq k k'); reflexivity.
    + rewrite IH. destruct (streq k k0) eqn:E1; [|reflexivity].
      apply streq_true in E1. subst k0.
      destruct (streq k k') eqn:E2; [|reflexivity].
      apply streq_true in E2. subst k'. rewrite streq_refl in E0. discriminate.
Qed.

Lemma Map_get_set_same k v m : Map_get k (Map_set k v m) = Some v.
Proof. now rewrite Map_get_set, streq_refl. Qed.

Lemma Map_get_set_other k k' v m :
  k <> k' -> Map_get k (Map_set k' v m) = Map_get k m.
Proof.
  intros H. rewrite Map_get_set.
  apply streq_false in H. now rewrite H.
Qed.

Lemma Map_get_In k v m : Map_get k m = Some v -> In (k, v) m.
Proof.
  induction m as [|[k0 v0] m IH]; simpl; [discriminate|].
  destruct (streq k k0) eqn:E.
  - apply streq_true in E. subst k0. intros [= ->]. now left.
  - intros H. right. now apply IH.
Qed.

Lemma Map_get_keys k m : Map_get k m <> None <-> In k (Map_keys m).
Proof.
  induction m as [|[k0 v0] m IH]; simpl.
  - split; [congruence | contradiction].
  - destruct (streq k k0) eqn:E.
    + apply streq_true in E. subst k0. split; [now left | discriminate].
    + apply streq_false in E. rewrite IH. split; [now right|].
      intros [H|H]; [congruence | assumption].
Qed.

Lemma Map_get_None_keys k m : Map_get k m = None <-> ~ In k (Map_keys m).
Proof.
  rewrite <- Map_get_keys. destruct (Map_get k m).
  - split; [discriminate | intros H; exfalso; apply H; discriminate].
  - split; [intros _ H; now apply H | reflexivity].
Qed.

Lemma Map_In_get k v m :
  NoDup (Map_keys m) -> In (k, v) m -> Map_get k m = Some v.
Proof.
  induction m as [|[k0 v0] m IH]; simpl; [contradiction|].
  intros Hnd Hin. inversion Hnd as [|? ? Hnotin Hnd']; subst.
  destruct Hin as [[= -> ->]|Hin].
  - now rewrite streq_refl.
  - destruct (streq k k0) eqn:E; [|now apply IH].
    apply streq_true in E. subst k0. exfalso. apply Hnotin.
    change k with (fst (k, v)). now apply in_map.
Qed.

(** Setting an existing key keeps the key list; a new key goes last. *)
Lemma Map_keys_set k v m :
  Map_keys (Map_set k v m) =
  match Map_get k m with
  | Some _ => Map_keys m
  | None => Map_keys m ++ [k]
  end.
Proof.
  unfold Map_keys.
  induction m as [|[k0 v0] m IH]; simpl; [reflexivity|].
  destruct (streq k k0) eqn:E; simpl; [reflexivity|].
  rewrite IH. now destruct (Map_get k m).
Qed.

Lemma Map_keys_set_NoDup k v m :
  NoDup (Map_keys m) -> NoDup (Map_keys (Map_set k v m)).
Proof.
  intros Hnd. rewrite Map_keys_set.
  destruct (Map_get k m) eqn:E; [assumption|].
  apply Map_get_None_keys in E.
  apply NoDup_rev in Hnd. rewrite <- (rev_involutive (_ ++ _)).
  apply NoDup_rev. rewrite rev_app_distr. simpl.
  constructor; [now rewrite <- in_rev | assumption].
Qed.
End MapFacts.

Lemma Map_push_set (V : Type) (k : jsstring) (xs : list V)
  (m : Map (list V)) :
  Map_push k xs m =
  match Map_get k m with
  | Some old => Map_set k (old ++ xs) m
  | None => Map_set k xs (Map_set k [] m)
  end.
Proof.
  unfold Map_push, Map_has.
  destruct (Map_get k m) eqn:E; simpl; [now rewrite E|].
  now rewrite Map_get_set_same.
Qed.

Lemma Map_get_push (V : Type) (k k' : jsstring) (xs : list V)
  (m : Map (list V)) :
  Map_get k (Map_push k' xs m) =
  if streq k k'
  then Some (match Map_get k' m with Some old => old | None => [] end ++ xs)
  else Map_get k m.
Proof.
  rewrite Map_push_set.
  destruct (Map_get k' m); rewrite !Map_get_set;
    destruct (streq k k'); reflexivity.
Qed.

Lemma Map_keys_push (V : Type) (k : jsstring) (xs : list V)
  (m : Map (list V)) :
  Map_keys (Map_push k xs m) =
  match Map_get k m with
  | Some _ => Map_keys m
  | None => Map_keys m ++ [k]
  end.
Proof.
  rewrite Map_push_set.
  destruct (Map_get k m) eqn:E; rewrite !Map_keys_set;
    [now rewrite E|].
  now rewrite Map_get_set_same, E.
Qed.

Lemma Forall_perm (A : Type) (P : A -> Prop) (l l' : list A) :
  Permutation l l' -> Forall P l -> Forall P l'.
Proof.
  intros Hp Hl. rewrite Forall_forall in *. intros x Hx.
  apply Hl. eapply Permutation_in; [symmetry; exact Hp | exact Hx].
Qed.

Section SortFacts.
Variable A : Type.
Variable comparefn : A -> A -> number.

Lemma sortInsert_perm (x : A) (l : list A) :
  Permutation (sortInsert comparefn x l) (x :: l).
Proof.
  induction l as [|y l IH]; simpl; [reflexivity|].
  destruct (sortsAfter comparefn x y); [|reflexivity].
  rewrite IH. apply perm_swap.
Qed.

Lemma sort_perm (l : list A) : Permutation (sort comparefn l) l.
Proof.
  induction l as [|x l IH]; simpl; [reflexivity|].
  rewrite sortInsert_perm. now constructor.
Qed.

Lemma sort_length (l : list A) : length (sort comparefn l) = length l.
Proof. apply Permutation_length, sort_perm. Qed.

Lemma sort_In (x : A) (l : list A) : In x (sort comparefn l) <-> In x l.
Proof.
  split; apply Permutation_in; [|symmetry]; apply sort_perm.
Qed.

(** When the comparator is the difference of an integer key, the result
    is in ascending key order, and elements of equal key keep their
    relative order. *)
Variable key : A -> Z.
Variable ok : A -> Prop.
Hypothesis comparefn_key :
  forall a b, ok a -> ok b -> comparefn a b = Num (key a - key b).

Lemma sortsAfter_key (a b : A) :
  ok a -> ok b -> sortsAfter comparefn a b = (key b <? key a)%Z.
Proof.
  intros Ha Hb. unfold sortsAfter. rewrite comparefn_key by assumption.
  simpl. destruct (Z.ltb_spec 0 (key a - key b)), (Z.ltb_spec (key b) (key a));
    auto; lia.
Qed.

Lemma sortInsert_sorted (x : A) (l : list A) :
  ok x -> Forall ok l ->
  StronglySorted (ascendingBy key) l ->
  StronglySorted (ascendingBy key) (sortInsert comparefn x l).
Proof.
  intros Hx Hok Hs. induction Hs as [|y l Hs IH Hy]; simpl.
  - repeat constructor.
  - inversion Hok as [|? ? Hoky Hokl]; subst.
    rewrite sortsAfter_key by assumption.
    destruct (Z.ltb_spec (key y) (key x)) as [Hlt|Hge].
    + constructor; [now apply IH|].
      apply (Forall_perm _ _ (x :: l));
        [symmetry; apply sortInsert_perm|].
      constructor; [unfold ascendingBy; lia | assumption].
    + constructor; [now constructor|].
      constructor; [assumption|].
      eapply Forall_impl; [|exact Hy]. unfold ascendingBy. intros; lia.
Qed.

Lemma sort_ok (l : list A) : Forall ok l -> Forall ok (sort comparefn l).
Proof.
  intros H. apply (Forall_perm _ _ l); [|assumption].
  symmetry. apply sort_perm.
Qed.

Lemma sort_sorted (l : list A) :
  Forall ok l -> StronglySorted (ascendingBy key) (sort comparefn l).
Proof.
  induction l as [|x l IH]; intros Hok; simpl; [constructor|].
  inversion Hok; subst.
  apply sortInsert_sorted; auto using sort_ok.
Qed.

Lemma sortInsert_stable (t : Z) (x : A) (l : list A) :
  ok x -> Forall ok l ->
  filter (fun a => key a =? t)%Z (sortInsert comparefn x l)
  = filter (fun a => key a =? t)%Z (x :: l).
Proof.
  intros Hx Hok. induction Hok as [|y l Hy Hl IH]; [reflexivity|].
  simpl sortInsert. rewrite sortsAfter_key by assumption.
  destruct (Z.ltb_spec (key y) (key x)) as [Hlt|Hge]; [|reflexivity].
  simpl in *. rewrite IH.
  destruct (Z.eqb_spec (key x) t), (Z.eqb_spec (key y) t);
    try reflexivity; lia.
Qed.

Lemma sort_stable (t : Z) (l : list A) :
  Forall ok l ->
  filter (fun a => key a =? t)%Z (sort comparefn l)
  = filter (fun a => key a =? t)%Z l.
Proof.
  induction l as [|x l IH]; intros Hok; [reflexivity|].
  inversion Hok; subst. simpl sort.
  rewrite sortInsert_stable by auto using sort_ok.
  simpl. now rewrite IH.
Qed.
End SortFacts.

Lemma Permutation_filter_length (A : Type) (p : A -> bool) (l l' : list A) :
  Permutation l l' -> length (filter p l) = length (filter p l').
Proof.
  induction 1 as [|x l l' _ IH|x y l|l l' l'' _ IH1 _ IH2]; simpl.
  - reflexivity.
  - destruct (p x); simpl; now rewrite IH.
  - destruct (p x), (p y); reflexivity.
  - congruence.
Qed.

(* ================================================================== *)
(** ** The aggregation fold *)
(* ================================================================== *)

Lemma processRecord_accepted (st : State) (record : UnifiedRecord) :
  processRecord st record =
  match accepted st record with
  | None => st
  | Some f =>
      let contactKey := contactKeyOf (f_phone f) in
      mkState
        (updateContact contactKey f (contactsMap st))
        (Map_push contactKey [buildMessage record f] (messagesByContact st))
        (Map_push contactKey (searchTermsOf record) (searchableData st))
        (Some contactKey)
  end.
Proof.
  unfold processRecord, accepted.
  destruct (extractFields st record) as [f|]; [|reflexivity].
  now destruct (truthy (f_phone f)).
Qed.

Lemma processAll_app (data1 data2 : list UnifiedRecord) :
  processAll (data1 ++ data2) = fold_left processRecord data2 (processAll data1).
Proof. unfold processAll. apply fold_left_app. Qed.

Lemma contactKeyOf_truthy (phone : jsstring) :
  truthy phone = true -> truthy (contactKeyOf phone) = true.
Proof.
  intros H. unfold contactKeyOf, orElse.
  now destruct (truthy (normalizePhoneNumber phone)) eqn:E.
Qed.

Lemma updateContact_get (key k : jsstring) (f : Fields) (m : Map Contact.t) :
  k <> key -> Map_get k (updateContact key f m) = Map_get k m.
Proof.
  intros H. unfold updateContact.
  destruct (Map_get key m); now rewrite Map_get_set_other.
Qed.

Lemma updateContact_keys (key : jsstring) (f : Fields) (m : Map Contact.t) :
  Map_keys (updateContact key f m) =
  match Map_get key m with
  | Some _ => Map_keys m
  | None => Map_keys m ++ [key]
  end.
Proof.
  unfold updateContact.
  destruct (Map_get key m) eqn:E; now rewrite Map_keys_set, E.
Qed.

Lemma initialState_consistent : Consistent initialState.
Proof.
  constructor; simpl; try discriminate; [reflexivity | constructor].
Qed.

Lemma keys_agree_get (st : State) (key : jsstring) :
  Consistent st ->
  (Map_get key (contactsMap st) = None
   <-> Map_get key (messagesByContact st) = None).
Proof.
  intros C. rewrite !Map_get_None_keys. now rewrite (keys_agree C).
Qed.

Lemma processRecord_consistent (st : State) (record : UnifiedRecord) :
  Consistent st -> Consistent (processRecord st record).
Proof.
  intros C. rewrite processRecord_accepted.
  destruct (accepted st record) as [f|] eqn:Hacc; [|assumption].
  assert (Hphone : truthy (f_phone f) = true).
  { unfold accepted in Hacc. destruct (extractFields st record); [|discriminate].
    destruct (truthy (f_phone f0)) eqn:E; [|discriminate]. congruence. }
  set (key := contactKeyOf (f_phone f)).
  pose proof (keys_agree_get st key C) as Hnone.
  constructor; simpl.
  - rewrite updateContact_keys, Map_keys_push, (keys_agree C).
    destruct (Map_get key (contactsMap st)) eqn:E1;
      destruct (Map_get key (messagesByContact st)) eqn:E2; try reflexivity.
    + destruct Hnone as [_ Hn]. specialize (Hn eq_refl). discriminate.
    + destruct Hnone as [Hn _]. specialize (Hn eq_refl). discriminate.
  - unfold updateContact.
    destruct (Map_get key (contactsMap st));
      apply Map_keys_set_NoDup, (keys_nodup C).
  - intros k c Hget. rewrite Map_get_push.
    destruct (streq k key) eqn:Ek.
    + apply streq_true in Ek. subst k. unfold updateContact in Hget.
      destruct (Map_get key (contactsMap st)) as [c0|] eqn:E0;
        rewrite Map_get_set_same in Hget; injection Hget as <-; simpl.
      * destruct (contact_entry C _ E0)
          as (Hk & Hn & Ht & Hone & ms & Hms & Hcount).
        repeat split; auto; [lia|]. rewrite Hms. eexists. split; [reflexivity|].
        rewrite length_app, Hcount. reflexivity.
      * repeat split; auto. destruct Hnone as [Hn _].
        rewrite (Hn eq_refl). eexists. split; reflexivity.
    + apply streq_false in Ek. rewrite updateContact_get in Hget by assumption.
      exact (contact_entry C _ Hget).
  - intros k [= <-]. split; [now apply contactKeyOf_truthy|].
    unfold updateContact.
    destruct (Map_get key (contactsMap st));
      rewrite Map_get_set_same; discriminate.
Qed.

Lemma run_consistent (data : list UnifiedRecord) (st : State) :
  Consistent st -> Consistent (fold_left processRecord data st).
Proof.
  revert st. induction data as [|r data IH]; intros st C; simpl; [assumption|].
  now apply IH, processRecord_consistent.
Qed.

Lemma processAll_consistent (data : list UnifiedRecord) :
  Consistent (processAll data).
Proof. apply run_consistent, initialState_consistent. Qed.

(** The list under a key after a run: what was there, then the messages of
    the accepted records that map to the key, in input order. *)
Lemma run_messages (data : list UnifiedRecord) (st : State) (key : jsstring) :
  listAt key (messagesByContact (fold_left processRecord data st)) =
  listAt key (messagesByContact st)
  ++ map messageOf (filter (mapsTo key) (acceptedFrom st data)).
Proof.
  revert st. induction data as [|r data IH]; intros st; simpl.
  - now rewrite app_nil_r.
  - rewrite IH, processRecord_accepted.
    destruct (accepted st r) as [f|]; simpl; [|reflexivity].
    unfold listAt at 1. rewrite Map_get_push.
    unfold mapsTo, keyOf. simpl snd.
    destruct (streq (contactKeyOf (f_phone f)) key) eqn:E.
    + apply streq_true in E. subst key. rewrite streq_refl.
      unfold listAt. simpl. now rewrite <- app_assoc.
    + assert (E' : streq key (contactKeyOf (f_phone f)) = false).
      { apply streq_false. apply streq_false in E. congruence. }
      rewrite E'. reflexivity.
Qed.

Lemma run_keys (data : list UnifiedRecord) (st : State) (key : jsstring) :
  In key (Map_keys (messagesByContact (fold_left processRecord data st))) <->
  In key (Map_keys (messagesByContact st))
  \/ filter (mapsTo key) (acceptedFrom st data) <> [].
Proof.
  revert st. induction data as [|r data IH]; intros st; simpl.
  - split; [now left | intros [H|H]; [assumption | congruence]].
  - rewrite IH, processRecord_accepted.
    destruct (accepted st r) as [f|]; simpl; [|reflexivity].
    rewrite Map_keys_push. unfold mapsTo at 2, keyOf. simpl snd.
    destruct (streq (contactKeyOf (f_phone f)) key) eqn:E.
    + apply streq_true in E. subst key. split; [intros _|].
      * right. discriminate.
      * intros _. left.
        destruct (Map_get _ (messagesByContact st)) eqn:G.
        -- apply Map_get_keys. congruence.
        -- apply in_or_app. right. now left.
    + apply streq_false in E.
      destruct (Map_get _ (messagesByContact st)) eqn:G; [reflexivity|].
      rewrite in_app_iff. simpl. tauto.
Qed.

(* ------------------------------------------------------------------ *)
(** *** What [processMessagesData] returns *)

Lemma out_messages_get (data : list UnifiedRecord) (key : jsstring) :
  Map_get key (out_messagesByContact (processMessagesData data)) =
  option_map (sort byTimestamp)
    (Map_get key (messagesByContact (processAll data))).
Proof.
  simpl. induction (messagesByContact (processAll data)) as [|[k v] m IH];
    simpl; [reflexivity|].
  destruct (streq key k); [reflexivity | exact IH].
Qed.

Lemma out_messages_keys (data : list UnifiedRecord) :
  Map_keys (out_messagesByContact (processMessagesData data)) =
  Map_keys (messagesByContact (processAll data)).
Proof.
  simpl. unfold Map_keys. rewrite map_map. reflexivity.
Qed.

Lemma contactIdOf_entry (st : State) (key : jsstring) (c : Contact.t) :
  Consistent st -> Map_get key (contactsMap st) = Some c -> contactIdOf c = key.
Proof.
  intros C H. destruct (contact_entry C _ H) as (Hk & Hn & _).
  unfold contactIdOf. rewrite Hn. exact Hk.
Qed.

Lemma Map_values_In (V : Type) (v : V) (m : Map V) :
  In v (Map_values m) <-> exists k, In (k, v) m.
Proof.
  unfold Map_values. rewrite in_map_iff. split.
  - intros ([k v'] & <- & H). now exists k.
  - intros (k & H). now exists (k, v).
Qed.

(** In a map whose entries carry their own key, a key's entry is the only
    value of that key. *)
Lemma Map_values_unique (V : Type) (idf : V -> jsstring) (m : Map V)
  (key : jsstring) (v : V) :
  NoDup (Map_keys m) ->
  (forall k v', In (k, v') m -> idf v' = k) ->
  In (key, v) m ->
  filter (fun v' => streq (idf v') key) (Map_values m) = [v].
Proof.
  induction m as [|[k0 v0] m IH]; simpl; [contradiction|].
  intros Hnd Hid Hin. inversion Hnd as [|? ? Hnotin Hnd']; subst.
  assert (Hrest : forall v', In v' (Map_values m) -> streq (idf v') k0 = false).
  { intros v' Hv'. apply Map_values_In in Hv' as (k & Hk).
    apply streq_false. rewrite (Hid k v') by now right.
    intros ->. apply Hnotin. change k0 with (fst (k0, v')). now apply in_map. }
  destruct Hin as [[= -> ->]|Hin].
  - rewrite (Hid key v) by now left. rewrite streq_refl. f_equal.
    clear -Hrest. induction (Map_values m) as [|v' l IHl]; [reflexivity|].
    simpl. rewrite Hrest by now left. apply IHl. intros; apply Hrest; now right.
  - assert (Hne : streq (idf v0) key = false).
    { apply streq_false. rewrite (Hid k0 v0) by now left.
      intros ->. apply Hnotin. change key with (fst (key, v)). now apply in_map. }
    rewrite Hne. apply IH; auto.
Qed.

Lemma filter_singleton_perm (A : Type) (p : A -> bool) (l l' : list A) (x : A) :
  Permutation l l' -> filter p l = [x] -> filter p l' = [x].
Proof.
  intros Hp Hl.
  assert (Hlen : length (filter p l') = 1)
    by now rewrite <- (Permutation_filter_length _ p _ _ Hp), Hl.
  assert (Hin : In x (filter p l')).
  { apply filter_In. assert (Hx : In x (filter p l)) by (rewrite Hl; now left).
    apply filter_In in Hx as [Hx Hpx]. split; [|assumption].
    eapply Permutation_in; eassumption. }
  destruct (filter p l') as [|y [|z r]]; try discriminate.
  destruct Hin as [->|[]]. reflexivity.
Qed.

(** The contact of a key in the returned [contacts] array. *)
Lemma contacts_of_key (data : list UnifiedRecord) (key : jsstring)
  (c : Contact.t) :
  Map_get key (contactsMap (processAll data)) = Some c ->
  filter (fun c' => streq (contactIdOf c') key)
    (contacts (processMessagesData data)) = [c].
Proof.
  intros Hget. pose proof (processAll_consistent data) as C.
  simpl contacts.
  apply (filter_singleton_perm _ _ (Map_values (contactsMap (processAll data))));
    [symmetry; apply sort_perm|].
  apply Map_values_unique.
  - exact (keys_nodup C).
  - intros k v' Hin. apply (contactIdOf_entry _ _ _ C).
    apply Map_In_get; [exact (keys_nodup C) | assumption].
  - now apply Map_get_In.
Qed.

Lemma contacts_In (data : list UnifiedRecord) (c : Contact.t) :
  In c (contacts (processMessagesData data)) <->
  Map_get (contactIdOf c) (contactsMap (processAll data)) = Some c.
Proof.
  pose proof (processAll_consistent data) as C.
  simpl contacts. rewrite sort_In, Map_values_In. split.
  - intros (k & Hin).
    apply Map_In_get in Hin; [|exact (keys_nodup C)].
    now rewrite (contactIdOf_entry _ _ _ C Hin).
  - intros H. exists (contactIdOf c). now apply Map_get_In.
Qed.

(** C10. When [processMessagesData] returns, the contact registry and
    [messagesByContact] list the same ContactKeys (in the same order); every
    returned contact has a message list under its key, and its
    [messageCount] is the length of that list, which is at least 1; and every
    message list in [messagesByContact] belongs to exactly one returned
    contact, whose [messageCount] is its length. *)
Theorem registry_and_messages_agree (data : list UnifiedRecord) :
  let st := processAll data in
  let out := processMessagesData data in
  Map_keys (contactsMap st) = Map_keys (out_messagesByContact out)
  /\ (forall c,
        In c (contacts out) ->
        exists messages,
          Map_get (contactIdOf c) (out_messagesByContact out) = Some messages
          /\ Contact.messageCount c = length messages
          /\ 1 <= length messages)
  /\ (forall key messages,
        Map_get key (out_messagesByContact out) = Some messages ->
        exists c,
          filter (fun c' => streq (contactIdOf c') key) (contacts out) = [c]
          /\ Map_get key (contactsMap st) = Some c
          /\ Contact.messageCount c = length messages).
Proof.
  intros st out. pose proof (processAll_consistent data) as C. fold st in C.
  split; [|split].
  - unfold out. rewrite out_messages_keys. exact (keys_agree C).
  - intros c Hc. apply contacts_In in Hc. fold st in Hc.
    destruct (contact_entry C _ Hc) as (_ & _ & _ & Hone & ms & Hms & Hcount).
    exists (sort byTimestamp ms). unfold out. rewrite out_messages_get.
    fold st. rewrite Hms. simpl. rewrite sort_length. repeat split; lia.
  - intros key messages Hget. unfold out in Hget.
    rewrite out_messages_get in Hget. fold st in Hget.
    destruct (Map_get key (messagesByContact st)) as [ms|] eqn:Hms;
      [|discriminate].
    injection Hget as <-.
    destruct (Map_get key (contactsMap st)) as [c|] eqn:Hc.
    + exists c. split; [now apply contacts_of_key|]. split; [reflexivity|].
      destruct (contact_entry C _ Hc) as (_ & _ & _ & _ & ms' & Hms' & Hcount).
      rewrite sort_length. congruence.
    + apply (keys_agree_get st key C) in Hc. congruence.
Qed.

(* ------------------------------------------------------------------ *)
(** *** Counting the records of a key *)

Lemma processAll_messages (data : list UnifiedRecord) (key : jsstring) :
  listAt key (messagesByContact (processAll data)) =
  map messageOf (filter (mapsTo key) (acceptedRecords data)).
Proof. unfold processAll, acceptedRecords. now rewrite run_messages. Qed.

Lemma processAll_keys (data : list UnifiedRecord) (key : jsstring) :
  In key (Map_keys (contactsMap (processAll data))) <->
  1 <= recordsWithKey key (acceptedRecords data).
Proof.
  rewrite (keys_agree (processAll_consistent data)).
  unfold processAll, acceptedRecords, recordsWithKey. rewrite run_keys. simpl.
  destruct (filter (mapsTo key) (acceptedFrom initialState data)); simpl.
  - split; [intros [[]|H]; congruence | lia].
  - split; [lia | intros _; right; discriminate].
Qed.

Lemma indicator_sum (q : jsstring) (phones : list jsstring) :
  NoDup phones ->
  list_sum (map (fun p => if streq q p then 1 else 0) phones) =
  if in_dec (list_eq_dec N.eq_dec) q phones then 1 else 0.
Proof.
  induction 1 as [|p phones Hnotin Hnd IH]; [reflexivity|].
  simpl map. simpl list_sum. rewrite IH.
  destruct (streq q p) eqn:E.
  - apply streq_true in E. subst p.
    destruct (in_dec (list_eq_dec N.eq_dec) q phones) as [Hi|Hi];
      [contradiction|].
    destruct (in_dec (list_eq_dec N.eq_dec) q (q :: phones)) as [Hj|Hj];
      [reflexivity | exfalso; apply Hj; now left].
  - apply streq_false in E.
    destruct (in_dec (list_eq_dec N.eq_dec) q phones) as [Hi|Hi];
      destruct (in_dec (list_eq_dec N.eq_dec) q (p :: phones)) as [Hj|Hj];
      try reflexivity.
    + exfalso. apply Hj. right. exact Hi.
    + exfalso. destruct Hj as [Hj|Hj]; [apply E; now symmetry | contradiction].
Qed.

Lemma list_sum_add (X : Type) (f g : X -> nat) (l : list X) :
  list_sum (map (fun x => f x + g x) l) =
  list_sum (map f l) + list_sum (map g l).
Proof. induction l as [|x l IH]; simpl; [reflexivity | rewrite IH; lia]. Qed.

(** The records of a key are the records of the raw phones that share it. *)
Lemma recordsWithKey_by_phone (key : jsstring) (phones : list jsstring)
  (l : list (UnifiedRecord * Fields)) :
  NoDup phones ->
  (forall p, In p phones -> contactKeyOf p = key) ->
  (forall rf, In rf l -> keyOf rf = key -> In (f_phone (snd rf)) phones) ->
  recordsWithKey key l =
  list_sum (map (fun p => recordsWithPhone p l) phones).
Proof.
  intros Hnd Hkey. unfold recordsWithKey, recordsWithPhone.
  induction l as [|rf l IH]; intros Hall.
  - assert (H0 : forall ps : list jsstring,
               list_sum (map (fun _ => 0) ps) = 0)
      by (induction ps; simpl; auto).
    simpl. now rewrite H0.
  - simpl filter.
    rewrite (map_ext _ (fun p => (if streq (f_phone (snd rf)) p then 1 else 0)
       + length (filter (fun rf0 => streq (f_phone (snd rf0)) p) l))).
    2:{ intros p. now destruct (streq (f_phone (snd rf)) p). }
    rewrite list_sum_add, <- IH by (intros; apply Hall; [now right | assumption]).
    rewrite indicator_sum by assumption.
    unfold mapsTo at 1. destruct (streq (keyOf rf) key) eqn:E.
    + apply streq_true in E.
      destruct (in_dec (list_eq_dec N.eq_dec) (f_phone (snd rf)) phones)
        as [_|Hn]; [reflexivity|].
      exfalso. apply Hn, Hall; [now left | assumption].
    + apply streq_false in E.
      destruct (in_dec (list_eq_dec N.eq_dec) (f_phone (snd rf)) phones)
        as [Hi|_]; [|reflexivity].
      exfalso. apply E. unfold keyOf. now apply Hkey.
Qed.

(** C3. Raw phone strings with the same normalisation have the same
    ContactKey.  For a ContactKey that at least one accepted record maps to,
    [processMessagesData] returns exactly one contact, and its
    [messageCount] is the number of accepted records that map to the key;
    that number is the sum, over the distinct raw phone strings that share
    the key, of the number of accepted records carrying each of them. *)
Theorem one_contact_per_key (data : list UnifiedRecord) (key : jsstring) :
  1 <= recordsWithKey key (acceptedRecords data) ->
  (forall p1 p2,
     truthy (normalizePhoneNumber p1) = true ->
     normalizePhoneNumber p1 = normalizePhoneNumber p2 ->
     contactKeyOf p1 = contactKeyOf p2)
  /\ exists c,
       filter (fun c' => streq (contactIdOf c') key)
         (contacts (processMessagesData data)) = [c]
       /\ Contact.messageCount c = recordsWithKey key (acceptedRecords data)
       /\ forall phones,
            NoDup phones ->
            (forall p, In p phones -> contactKeyOf p = key) ->
            (forall rf, In rf (acceptedRecords data) -> keyOf rf = key ->
                        In (f_phone (snd rf)) phones) ->
            Contact.messageCount c =
            list_sum (map (fun p => recordsWithPhone p (acceptedRecords data))
                        phones).
Proof.
  intros Hn. split.
  { intros p1 p2 Ht Heq. unfold contactKeyOf, orElse.
    rewrite <- Heq, Ht. reflexivity. }
  pose proof (processAll_consistent data) as C.
  apply processAll_keys, Map_get_keys in Hn.
  destruct (Map_get key (contactsMap (processAll data))) as [c|] eqn:Hc;
    [clear Hn | congruence].
  exists c. split; [now apply contacts_of_key|].
  destruct (contact_entry C _ Hc) as (_ & _ & _ & _ & ms & Hms & Hcount).
  assert (Hlen : Contact.messageCount c
                 = recordsWithKey key (acceptedRecords data)).
  { rewrite Hcount. pose proof (processAll_messages data key) as Hl.
    unfold listAt in Hl. rewrite Hms in Hl. rewrite Hl, length_map.
    reflexivity. }
  split; [exact Hlen|].
  intros phones Hnd Hkey Hall. rewrite Hlen.
  now apply recordsWithKey_by_phone.
Qed.

Lemma one_contact_per_key_witness :
  exists c,
    filter (fun c' => streq (contactIdOf c') (str "9601234567"))
      (contacts (processMessagesData Samples.twoSpellings)) = [c]
    /\ Contact.messageCount c = 3
    /\ Contact.messageCount c =
       recordsWithPhone (str "+960 1234567")
         (acceptedRecords Samples.twoSpellings)
       + recordsWithPhone (str "1234567")
           (acceptedRecords Samples.twoSpellings).
Proof.
  destruct (one_contact_per_key Samples.twoSpellings (str "9601234567"))
    as (_ & c & Hfilter & Hcount & _).
  - vm_compute. lia.
  - exists c. split; [exact Hfilter|]. rewrite Hcount.
    split; vm_compute; reflexivity.
Defined.

(** The end-to-end scenario: one contact, two messages in time order. *)
Example amy_scenario :
  match processMessagesData Samples.amy with
  | mkProcessed [c] [(key, [m1; m2])] _ =>
      Contact.phone c = str "+9601234567"
      /\ Contact.name c = str "Amy"
      /\ Contact.messageCount c = 2
      /\ Contact.lastMessage c = str "hello"
      /\ Contact.isRead c = true
      /\ key = str "9601234567"
      /\ Message.text m1 = str "hi" /\ Message.text m2 = str "hello"
  | _ => False
  end.
Proof. vm_compute. repeat split. Qed.

(* ------------------------------------------------------------------ *)
(** *** The unread flag *)

Lemma accepted_phone (st : State) (record : UnifiedRecord) (f : Fields) :
  accepted st record = Some f -> truthy (f_phone f) = true.
Proof.
  unfold accepted. destruct (extractFields st record) as [f0|]; [|discriminate].
  destruct (truthy (f_phone f0)) eqn:E; [|discriminate]. now intros [= <-].
Qed.

(** The contact of a key after one record, from the contact before. *)
Lemma processRecord_contact (st : State) (record : UnifiedRecord)
  (key : jsstring) (c : Contact.t) :
  Map_get key (contactsMap st) = Some c ->
  exists c',
    Map_get key (contactsMap (processRecord st record)) = Some c'
    /\ (Contact.isRead c' = true -> Contact.isRead c = true)
    /\ (forall f, accepted st record = Some f -> f_isFromMe f = true ->
                  Contact.isRead c' = Contact.isRead c)
    /\ Contact.phone c' = Contact.phone c
    /\ Contact.name c' = Contact.name c.
Proof.
  intros Hget. rewrite processRecord_accepted.
  destruct (accepted st record) as [f|]; [|exists c; auto].
  simpl contactsMap.
  destruct (list_eq_dec N.eq_dec key (contactKeyOf (f_phone f))) as [->|Hne].
  - unfold updateContact. rewrite Hget, Map_get_set_same.
    eexists. split; [reflexivity|]. simpl.
    split; [|split; [|split; reflexivity]].
    + destruct (negb (f_isFromMe f) && negb (f_isRead f));
        [discriminate | auto].
    + intros f' [= <-] ->. reflexivity.
  - rewrite updateContact_get by assumption. exists c. auto.
Qed.

Lemma run_unread (data : list UnifiedRecord) (st : State) (key : jsstring)
  (c : Contact.t) :
  Map_get key (contactsMap st) = Some c ->
  Contact.isRead c = false ->
  exists c',
    Map_get key (contactsMap (fold_left processRecord data st)) = Some c'
    /\ Contact.isRead c' = false.
Proof.
  revert st c. induction data as [|r data IH]; intros st c Hget Hread; simpl.
  - now exists c.
  - destruct (processRecord_contact st r key c Hget) as (c' & Hget' & Hmono & _).
    apply (IH _ c' Hget').
    destruct (Contact.isRead c'); [|reflexivity].
    rewrite Hmono in Hread by reflexivity. discriminate.
Qed.

Lemma processRecord_unread (st : State) (record : UnifiedRecord) (f : Fields) :
  accepted st record = Some f ->
  f_isFromMe f = false -> f_isRead f = false ->
  exists c,
    Map_get (contactKeyOf (f_phone f)) (contactsMap (processRecord st record))
    = Some c
    /\ Contact.isRead c = false.
Proof.
  intros Hacc Hin Hunread. rewrite processRecord_accepted, Hacc.
  simpl contactsMap. unfold updateContact.
  destruct (Map_get _ (contactsMap st)); rewrite Map_get_set_same;
    eexists; (split; [reflexivity|]); simpl; now rewrite Hin, Hunread.
Qed.

(** The flag of a key in a state: that of its contact, and true while the
    key has none. *)
Lemma processRecord_isRead (st : State) (record : UnifiedRecord) (f : Fields)
  (key : jsstring) (c' : Contact.t) :
  accepted st record = Some f ->
  Map_get key (contactsMap (processRecord st record)) = Some c' ->
  Contact.isRead c' =
  match Map_get key (contactsMap st) with
  | Some c => Contact.isRead c
  | None => true
  end
  && negb (mapsTo key (record, f) && incomingUnread (record, f)).
Proof.
  intros Hacc. rewrite processRecord_accepted, Hacc. simpl contactsMap.
  unfold mapsTo, keyOf, incomingUnread. simpl fst. simpl snd.
  destruct (streq (contactKeyOf (f_phone f)) key) eqn:Ek.
  - apply streq_true in Ek. subst key. unfold updateContact.
    destruct (Map_get _ (contactsMap st)) as [c0|];
      rewrite Map_get_set_same; intros [= <-]; simpl;
      destruct (f_isFromMe f), (f_isRead f), (Contact.isRead c0) ||
      destruct (f_isFromMe f), (f_isRead f); reflexivity.
  - apply streq_false in Ek. rewrite updateContact_get by congruence.
    intros ->. simpl. now rewrite andb_true_r.
Qed.

Lemma run_isRead (data : list UnifiedRecord) (st : State) (key : jsstring)
  (c : Contact.t) :
  Map_get key (contactsMap (fold_left processRecord data st)) = Some c ->
  Contact.isRead c =
  match Map_get key (contactsMap st) with
  | Some c0 => Contact.isRead c0
  | None => true
  end
  && negb (existsb incomingUnread
             (filter (mapsTo key) (acceptedFrom st data))).
Proof.
  revert st. induction data as [|r data IH]; intros st; simpl.
  - intros ->. now rewrite andb_true_r.
  - intros Hget. rewrite (IH _ Hget). clear IH Hget.
    rewrite filter_app, existsb_app, negb_orb, andb_assoc. f_equal.
    destruct (accepted st r) as [f|] eqn:Hacc.
    + destruct (Map_get key (contactsMap (processRecord st r))) as [c'|] eqn:E.
      * rewrite (processRecord_isRead _ _ _ _ _ Hacc E). f_equal. simpl.
        destruct (mapsTo key (r, f)); simpl; [now rewrite orb_false_r|].
        reflexivity.
      * rewrite processRecord_accepted, Hacc in E. simpl contactsMap in E.
        assert (Hne : key <> contactKeyOf (f_phone f)).
        { intros ->. unfold updateContact in E.
          destruct (Map_get _ (contactsMap st));
            rewrite Map_get_set_same in E; discriminate. }
        rewrite updateContact_get in E by assumption. rewrite E. simpl.
        unfold mapsTo, keyOf. simpl snd.
        assert (Es : streq (contactKeyOf (f_phone f)) key = false)
          by (apply streq_false; congruence).
        now rewrite Es.
    + rewrite processRecord_accepted, Hacc. simpl. now rewrite andb_true_r.
Qed.

(** C5. Once a record that is incoming (not from me) and unread has been
    folded into a contact, the contact's [isRead] is false after that record
    and after every sequence of further records, in the registry and in the
    returned [contacts].  A record that is from me, or read, leaves the
    [isRead] of every contact the registry already holds as it was; and a
    record that creates its contact gives it [isRead] true when it is from
    me, whatever its status, and its own read state when it is incoming.
    So for every input a returned contact has [isRead] false exactly when
    some incoming unread record was attributed to it. *)
Theorem unread_is_sticky :
  (forall data1 record f data2,
     accepted (processAll data1) record = Some f ->
     f_isFromMe f = false -> f_isRead f = false ->
     exists c,
       Map_get (contactKeyOf (f_phone f))
         (contactsMap (processAll (data1 ++ record :: data2))) = Some c
       /\ In c (contacts (processMessagesData (data1 ++ record :: data2)))
       /\ Contact.isRead c = false)
  /\ (forall st record f key c,
        accepted st record = Some f ->
        f_isFromMe f = true \/ f_isRead f = true ->
        Map_get key (contactsMap st) = Some c ->
        exists c',
          Map_get key (contactsMap (processRecord st record)) = Some c'
          /\ Contact.isRead c' = Contact.isRead c)
  /\ (forall st record f,
        accepted st record = Some f ->
        Map_get (contactKeyOf (f_phone f)) (contactsMap st) = None ->
        exists c',
          Map_get (contactKeyOf (f_phone f))
            (contactsMap (processRecord st record)) = Some c'
          /\ Contact.isRead c' = (f_isFromMe f || f_isRead f))
  /\ (forall data c,
        In c (contacts (processMessagesData data)) ->
        Contact.isRead c =
        negb (existsb incomingUnread
                (filter (mapsTo (contactIdOf c)) (acceptedRecords data)))).
Proof.
  split; [|split; [|split]].
  - intros data1 record f data2 Hacc Hin Hunread.
    destruct (processRecord_unread _ _ _ Hacc Hin Hunread) as (c0 & Hc0 & Hr0).
    destruct (run_unread data2 _ _ _ Hc0 Hr0) as (c & Hc & Hr).
    assert (Hrun : processAll (data1 ++ record :: data2)
                   = fold_left processRecord data2
                       (processRecord (processAll data1) record))
      by now rewrite processAll_app.
    rewrite Hrun. exists c. split; [exact Hc|]. split; [|exact Hr].
    apply contacts_In. rewrite Hrun.
    assert (C : Consistent (fold_left processRecord data2
                              (processRecord (processAll data1) record))).
    { rewrite <- Hrun. apply processAll_consistent. }
    now rewrite (contactIdOf_entry _ _ _ C Hc).
  - intros st record f key c Hacc Hquiet Hget.
    destruct (processRecord_contact st record key c Hget)
      as (c' & Hget' & _).
    exists c'. split; [exact Hget'|].
    rewrite (processRecord_isRead _ _ _ _ _ Hacc Hget'), Hget.
    unfold incomingUnread. simpl snd.
    destruct Hquiet as [-> | ->]; simpl;
      now rewrite ?andb_false_r, ?andb_true_r.
  - intros st record f Hacc Hnew.
    rewrite processRecord_accepted, Hacc. simpl contactsMap.
    unfold updateContact. rewrite Hnew, Map_get_set_same.
    eexists. split; [reflexivity|]. simpl.
    now destruct (f_isFromMe f).
  - intros data c Hc. apply contacts_In in Hc.
    unfold processAll in Hc. now rewrite (run_isRead _ _ _ _ Hc).
Qed.

Lemma unread_is_sticky_witness :
  (exists c,
     contacts (processMessagesData
                 (Samples.unreadFirst :: Samples.repliesAfterUnread)) = [c]
     /\ Contact.isRead c = false)
  /\ (exists c,
        contacts (processMessagesData Samples.repliesAfterUnread) = [c]
        /\ Contact.isRead c = true).
Proof.
  split.
  - destruct (proj1 unread_is_sticky [] Samples.unreadFirst
                (mkFields (str "7781405") (str "Ali") (str "call me")
                   (Samples.at_ 100) false (Num 1) false)
                Samples.repliesAfterUnread eq_refl eq_refl eq_refl)
      as (c & _ & Hin & Hread).
    exists c. split; [|exact Hread].
    simpl app in Hin.
    destruct (contacts (processMessagesData
                          (Samples.unreadFirst :: Samples.repliesAfterUnread)))
      as [|c0 [|c1 l]] eqn:E; try (vm_compute in E; discriminate).
    destruct Hin as [->|[]]. reflexivity.
  - assert (Hc : exists c,
               contacts (processMessagesData Samples.repliesAfterUnread) = [c]
               /\ contactIdOf c = str "9607781405")
      by (vm_compute; eexists; split; reflexivity).
    destruct Hc as (c & Hc & Hid). exists c. split; [exact Hc|].
    rewrite (proj2 (proj2 (proj2 unread_is_sticky))
               Samples.repliesAfterUnread c)
      by (rewrite Hc; now left).
    rewrite Hid. vm_compute. reflexivity.
Defined.

(* ------------------------------------------------------------------ *)
(** *** Skipped records *)

Lemma extractFields_skip (st : State) (r : DataRecord.t) :
  skipReasons unmarkedParty r = true -> extractFields st (Unified r) = None.
Proof.
  unfold skipReasons, consumedType, isCallLogRecord, isContinuation,
    unmarkedParty, extractFields.
  replace (orElse (DataRecord.Party r) []) with (DataRecord.Party r)
    by (unfold orElse; now destruct (DataRecord.Party r)).
  destruct (streq (DataRecord.Type_ r) (str "SMS Messages"));
    destruct (streq (DataRecord.Type_ r) (str "Instant Messages"));
    destruct (streq (DataRecord.Type_ r) (str "Call Log"));
    destruct (truthy (DataRecord.Description r));
    simpl; try reflexivity; try discriminate;
    destruct (extractPhoneFromParty (DataRecord.Party r)) as [[? ?]|];
    simpl; try discriminate;
    destruct (matchEmptyParty (str "From:") (trim (DataRecord.Party r)));
    destruct (matchEmptyParty (str "To:") (trim (DataRecord.Party r)));
    simpl; try discriminate;
    destruct (truthy (DataRecord.Party r)); simpl; try reflexivity;
    destruct (includes (DataRecord.Party r) (str "From:")); simpl;
    try reflexivity;
    destruct (includes (DataRecord.Party r) (str "To:")); simpl;
    try reflexivity; discriminate.
Qed.

(** C7, as the code has it.  A unified record leaves the callback's state
    as it was (no message, no contact created or updated, no searchable
    terms, and the records after it are processed as if it were not there)
    whenever its Type is not one of SMS Messages, Instant Messages, Call Log;
    or it is not a call log and its Description is empty; or its Party
    yields no phone from the sub-extractor, is not a From:/To: continuation,
    and the record is not a call log whose Party is non-empty and contains
    neither From: nor To:. *)
Theorem skipped_records_leave_no_trace (r : DataRecord.t) :
  skipReasons unmarkedParty r = true ->
  (forall st, processRecord st (Unified r) = st)
  /\ (forall data1 data2,
        processMessagesData (data1 ++ Unified r :: data2)
        = processMessagesData (data1 ++ data2)).
Proof.
  intros Hskip.
  assert (Hst : forall st, processRecord st (Unified r) = st).
  { intros st. unfold processRecord.
    now rewrite (extractFields_skip st r Hskip). }
  split; [exact Hst|].
  intros data1 data2. unfold processMessagesData.
  rewrite !processAll_app. simpl. now rewrite Hst.
Qed.

Lemma skipped_records_leave_no_trace_witness :
  processMessagesData (Samples.amy ++ [Unified Samples2.calendarRow])
  = processMessagesData Samples.amy.
Proof.
  rewrite <- (app_nil_r Samples.amy) at 2.
  apply (skipped_records_leave_no_trace Samples2.calendarRow).
  vm_compute. reflexivity.
Defined.

(** What the code does with a call log whose Party is a phone number
    written with a plus sign and a space. *)
Example plain_call_becomes_a_contact :
  extractPhoneFromParty (DataRecord.Party Samples2.plainCall) = None
  /\ isContinuation Samples2.plainCall = false
  /\ bareDigits (DataRecord.Party Samples2.plainCall) = false
  /\ exists c,
       contacts (processMessagesData [Unified Samples2.plainCall]) = [c]
       /\ Contact.phone c = str "+960 7778787"
       /\ Contact.normalizedPhone c = str "9607778787"
       /\ Contact.messageCount c = 1.
Proof.
  repeat split; try (vm_compute; reflexivity).
  eexists. split; [vm_compute; reflexivity|]. repeat split.
Qed.

(** C7 as stated: its call-log exception reads "a bare digit string".  The
    call log above yields no phone from the sub-extractor, is no
    continuation and no bare digit string, so it meets the claim's reasons
    to skip; it is not skipped. *)
Lemma call_log_number_with_plus_is_kept :
  ~ (skipReasons bareDigits Samples2.plainCall = true ->
     processRecord initialState (Unified Samples2.plainCall) = initialState).
Proof.
  intros H. specialize (H eq_refl). vm_compute in H. discriminate.
Qed.

(* ------------------------------------------------------------------ *)
(** *** Continuation rows *)

Lemma dropWhile_app_all (p : char -> bool) (s t : jsstring) :
  forallb p s = true -> dropWhile p (s ++ t) = dropWhile p t.
Proof.
  induction s as [|c s IH]; simpl; [reflexivity|].
  intros H. apply andb_true_iff in H as [Hc Hs]. now rewrite Hc, IH.
Qed.

Lemma forallb_rev (p : char -> bool) (s : jsstring) :
  forallb p (rev s) = forallb p s.
Proof.
  induction s as [|c s IH]; simpl; [reflexivity|].
  rewrite forallb_app, IH. simpl. rewrite andb_true_r. apply andb_comm.
Qed.

Lemma trim_blank (s : jsstring) : forallb isWhiteSpace s = true -> trim s = [].
Proof.
  intros H. unfold trim, trimStart.
  rewrite <- (app_nil_r s), dropWhile_app_all by assumption. reflexivity.
Qed.

Lemma trimEnd_app_blank (s ws : jsstring) :
  forallb isWhiteSpace ws = true -> trimEnd (s ++ ws) = trimEnd s.
Proof.
  intros H. unfold trimEnd.
  rewrite rev_app_distr, dropWhile_app_all by now rewrite forallb_rev.
  reflexivity.
Qed.

Lemma trimStart_nonblank (c : char) (s : jsstring) :
  isWhiteSpace c = false -> trimStart (c :: s) = c :: s.
Proof. intros H. unfold trimStart. simpl. now rewrite H. Qed.

(** The two markers, followed by blanks, trim to themselves. *)
Lemma trim_marker (fromParty : bool) (ws : jsstring) :
  forallb isWhiteSpace ws = true ->
  trim ((if fromParty then str "From:" else str "To:") ++ ws)
  = if fromParty then str "From:" else str "To:".
Proof.
  intros H. unfold trim.
  destruct fromParty.
  - change (str "From:" ++ ws) with (70%N :: str "rom:" ++ ws).
    rewrite trimStart_nonblank by reflexivity.
    change (70%N :: str "rom:" ++ ws) with (str "From:" ++ ws).
    now rewrite trimEnd_app_blank.
  - change (str "To:" ++ ws) with (84%N :: str "o:" ++ ws).
    rewrite trimStart_nonblank by reflexivity.
    change (84%N :: str "o:" ++ ws) with (str "To:" ++ ws).
    now rewrite trimEnd_app_blank.
Qed.

Section RegexFacts.
Variable R : Type.
Variable k : jsstring -> option R.

(** What a greedy star consumed is a part of the input in front. *)
Lemma re_star_consumed (p q : char -> bool) (t m : jsstring) (r : R) :
  re_star k p t = Some (m, r) -> forallb q t = true -> forallb q m = true.
Proof.
  revert m r. induction t as [|c t IH]; intros m r; simpl.
  - unfold consumed0. destruct (k []); [|discriminate].
    now intros [= <- _].
  - intros H Hq. apply andb_true_iff in Hq as [Hc Ht].
    assert (H0 : consumed0 k (c :: t) = Some (m, r) -> forallb q m = true).
    { unfold consumed0. destruct (k (c :: t)); [|discriminate].
      now intros [= <- _]. }
    destruct (p c); [|now apply H0].
    destruct (re_star k p t) as [[m' r']|] eqn:E; simpl in H;
      [|now apply H0].
    injection H as <- <-. simpl. rewrite Hc. now apply (IH m' r').
Qed.
End RegexFacts.

(** After the marker, a blank remainder gives group 1 only blanks. *)
Lemma party_rest_blank (ws : jsstring) :
  forallb isWhiteSpace ws = true ->
  match partyRest ws with
  | Some (_, (g, _)) => forallb isWhiteSpace g = true
  | None => True
  end.
Proof.
  unfold partyRest.
  induction ws as [|c ws IH]; simpl; [exact (fun _ => I)|].
  intros H. apply andb_true_iff in H as [Hc Hws]. rewrite Hc.
  specialize (IH Hws).
  destruct (re_star (re_plus re_done isDot) isWhiteSpace ws)
    as [[m [g u]]|]; simpl; [exact IH|].
  unfold consumed0, re_plus. destruct (isDot c); [|exact I].
  destruct (re_star re_done isDot ws) as [[m u]|] eqn:E; simpl; [|exact I].
  rewrite Hc. now apply (re_star_consumed _ _ _ _ _ _ _ E).
Qed.

Lemma blank_not_marker (c : char) :
  isWhiteSpace c = true -> eqc 70%N c = false /\ eqc 84%N c = false.
Proof.
  intros H. unfold eqc. split.
  - destruct (N.eqb_spec 70%N c) as [<-|]; [discriminate | reflexivity].
  - destruct (N.eqb_spec 84%N c) as [<-|]; [discriminate | reflexivity].
Qed.

(** Replaces the string literals of the goal by their code units. *)
Ltac literals :=
  repeat match goal with
         | |- context [str ?s] =>
             let v := eval vm_compute in (str s) in change (str s) with v
         end.

Lemma matchPartyAt_mismatch (c : char) (t : jsstring) :
  eqc 70%N c = false -> eqc 84%N c = false -> matchPartyAt (c :: t) = None.
Proof.
  intros HF HT. unfold matchPartyAt. literals. cbn [re_lit].
  now rewrite HF, HT.
Qed.

Lemma matchParty_blank (ws : jsstring) :
  forallb isWhiteSpace ws = true -> re_search matchPartyAt ws = None.
Proof.
  induction ws as [|c ws IH]; [reflexivity|].
  intros H. simpl in H. apply andb_true_iff in H as [Hc Hws].
  destruct (blank_not_marker c Hc) as [HF HT].
  cbn [re_search]. rewrite matchPartyAt_mismatch by assumption. now apply IH.
Qed.

(** On a marker followed by blanks, the pattern finds nothing or a blank
    group 1. *)
Lemma matchPartyPrefix_marker (fromParty : bool) (ws : jsstring) :
  forallb isWhiteSpace ws = true ->
  match matchPartyPrefix ((if fromParty then str "From:" else str "To:") ++ ws)
  with
  | Some g => forallb isWhiteSpace g = true
  | None => True
  end.
Proof.
  intros H. pose proof (party_rest_blank ws H) as Hrest.
  pose proof (matchParty_blank ws H) as Hblank.
  unfold matchPartyPrefix.
  destruct fromParty; literals; cbn [app re_search].
  - assert (Hat : matchPartyAt (70 :: 114 :: 111 :: 109 :: 58 :: ws)%N
                  = partyGroup1 (partyRest ws)).
    { unfold matchPartyAt. literals. cbn.
      now destruct (partyGroup1 (partyRest ws)). }
    rewrite Hat.
    destruct (partyRest ws) as [[m [g u]]|]; cbn [partyGroup1]; [exact Hrest|].
    rewrite !matchPartyAt_mismatch by reflexivity. now rewrite Hblank.
  - assert (Hat : matchPartyAt (84 :: 111 :: 58 :: ws)%N
                  = partyGroup1 (partyRest ws)).
    { unfold matchPartyAt. literals. cbn. reflexivity. }
    rewrite Hat.
    destruct (partyRest ws) as [[m [g u]]|]; cbn [partyGroup1]; [exact Hrest|].
    rewrite !matchPartyAt_mismatch by reflexivity. now rewrite Hblank.
Qed.

Lemma extractPhoneFromParty_marker (fromParty : bool) (ws : jsstring) :
  forallb isWhiteSpace ws = true ->
  extractPhoneFromParty ((if fromParty then str "From:" else str "To:") ++ ws)
  = None.
Proof.
  intros H. pose proof (matchPartyPrefix_marker fromParty ws H) as Hm.
  unfold extractPhoneFromParty.
  assert (Ht : truthy ((if fromParty then str "From:" else str "To:") ++ ws)
               = true) by now destruct fromParty.
  rewrite Ht. simpl negb. cbv iota.
  destruct (matchPartyPrefix _) as [g|]; [|reflexivity].
  now rewrite (trim_blank g Hm).
Qed.

Lemma run_last (data : list UnifiedRecord) (st : State) :
  lastContactKey (fold_left processRecord data st) =
  match rev (acceptedFrom st data) with
  | [] => lastContactKey st
  | rf :: _ => Some (keyOf rf)
  end.
Proof.
  revert st. induction data as [|r data IH]; intros st; [reflexivity|].
  simpl fold_left. simpl acceptedFrom. rewrite IH, rev_app_distr.
  destruct (rev (acceptedFrom (processRecord st r) data)); [|reflexivity].
  rewrite processRecord_accepted.
  now destruct (accepted st r).
Qed.

Lemma lastAttributed_spec (data : list UnifiedRecord) :
  lastContactKey (processAll data) = lastAttributed data.
Proof. unfold processAll, lastAttributed, acceptedRecords. apply run_last. Qed.

(** The fields of a continuation row of a consumed type that carries text
    or is a call log. *)
Lemma extractFields_continuation (st : State) (r : DataRecord.t)
  (fromParty : bool) (ws : jsstring) :
  DataRecord.Party r = (if fromParty then str "From:" else str "To:") ++ ws ->
  forallb isWhiteSpace ws = true ->
  consumedType r = true ->
  isCallLogRecord r || truthy (DataRecord.Description r) = true ->
  extractFields st (Unified r) =
  match lastContactKey st with
  | None => None
  | Some key =>
      if negb (truthy key) then None
      else
        match Map_get key (contactsMap st) with
        | None => None
        | Some existing =>
            Some (mkFields (Contact.phone existing) (Contact.name existing)
                    (DataRecord.Description r) (DataRecord.Timestamp r)
                    (streq (DataRecord.Direction r) (str "To") || fromParty)
                    (parseInt (DataRecord.ID r)) true)
        end
  end.
Proof.
  intros HParty Hws Htype Htext.
  unfold extractFields. unfold consumedType, isCallLogRecord in *.
  replace (orElse (DataRecord.Party r) []) with (DataRecord.Party r)
    by (unfold orElse; now destruct (DataRecord.Party r)).
  replace (orElse (DataRecord.Description r) []) with (DataRecord.Description r)
    by (unfold orElse; now destruct (DataRecord.Description r)).
  rewrite HParty, (trim_marker fromParty ws Hws),
    (extractPhoneFromParty_marker fromParty ws Hws).
  assert (HF : matchEmptyParty (str "From:")
                 (if fromParty then str "From:" else str "To:") = fromParty)
    by now destruct fromParty.
  assert (HT : matchEmptyParty (str "To:")
                 (if fromParty then str "From:" else str "To:") = negb fromParty)
    by now destruct fromParty.
  rewrite HF, HT.
  replace (fromParty || negb fromParty) with true by now destruct fromParty.
  destruct (streq (DataRecord.Type_ r) (str "SMS Messages"));
    destruct (streq (DataRecord.Type_ r) (str "Instant Messages"));
    destruct (streq (DataRecord.Type_ r) (str "Call Log"));
    destruct (truthy (DataRecord.Description r));
    try discriminate; simpl;
    destruct (lastContactKey st) as [key|]; try reflexivity;
    destruct (truthy key); try reflexivity;
    destruct (Map_get key (contactsMap st)); reflexivity.
Qed.

(** C6, as the code has it.  Take a unified record whose Party is From: or
    To: followed by white space only, whose Type is SMS Messages, Instant
    Messages or Call Log, and which has a Description or is a call log.
    When an earlier record was attributed, the contact of the most recent
    one takes the record: its fields are that contact's phone and name, the
    message is appended to that contact's list with [isFromMe] true for
    From: and [Direction == "To"] otherwise, the other lists stay as they
    are, and the contact keeps its phone and name and counts one more
    message.  When no record was attributed before, the record is
    skipped. *)
Theorem continuation_rows (data : list UnifiedRecord) (r : DataRecord.t)
  (fromParty : bool) (ws : jsstring) :
  DataRecord.Party r = (if fromParty then str "From:" else str "To:") ++ ws ->
  forallb isWhiteSpace ws = true ->
  consumedType r = true ->
  isCallLogRecord r || truthy (DataRecord.Description r) = true ->
  let st := processAll data in
  let st' := processRecord st (Unified r) in
  match lastAttributed data with
  | None => st' = st
  | Some key =>
      exists existing,
        Map_get key (contactsMap st) = Some existing
        /\ accepted st (Unified r) =
           Some (mkFields (Contact.phone existing) (Contact.name existing)
                   (DataRecord.Description r) (DataRecord.Timestamp r)
                   (streq (DataRecord.Direction r) (str "To") || fromParty)
                   (parseInt (DataRecord.ID r)) true)
        /\ listAt key (messagesByContact st') =
           listAt key (messagesByContact st) ++ [continuationMessage fromParty r]
        /\ (forall k, k <> key ->
              Map_get k (messagesByContact st')
              = Map_get k (messagesByContact st))
        /\ lastContactKey st' = Some key
        /\ exists c',
             Map_get key (contactsMap st') = Some c'
             /\ Contact.phone c' = Contact.phone existing
             /\ Contact.name c' = Contact.name existing
             /\ Contact.messageCount c' = Contact.messageCount existing + 1
  end.
Proof.
  intros HParty Hws Htype Htext st st'.
  pose proof (processAll_consistent data) as C. fold st in C.
  pose proof (extractFields_continuation st r fromParty ws
                HParty Hws Htype Htext) as Hext.
  rewrite <- lastAttributed_spec. fold st.
  destruct (lastContactKey st) as [key|] eqn:Hlast.
  2:{ unfold st', processRecord. now rewrite Hext. }
  destruct (last_entry C Hlast) as [Htruthy Hsome].
  rewrite Htruthy in Hext. simpl negb in Hext. cbv iota in Hext.
  destruct (Map_get key (contactsMap st)) as [existing|] eqn:Hget;
    [clear Hsome | congruence].
  destruct (contact_entry C _ Hget) as (Hkey & _ & Hphone & _).
  exists existing. split; [reflexivity|].
  assert (Hacc : accepted st (Unified r) =
                 Some (mkFields (Contact.phone existing) (Contact.name existing)
                         (DataRecord.Description r) (DataRecord.Timestamp r)
                         (streq (DataRecord.Direction r) (str "To") || fromParty)
                         (parseInt (DataRecord.ID r)) true)).
  { unfold accepted. rewrite Hext. simpl f_phone. now rewrite Hphone. }
  split; [exact Hacc|].
  unfold st'. rewrite processRecord_accepted, Hacc.
  simpl f_phone. rewrite Hkey. cbn [messagesByContact contactsMap lastContactKey].
  split; [|split; [|split]].
  - unfold listAt. rewrite Map_get_push, streq_refl. f_equal.
    unfold buildMessage, continuationMessage, isCallLogRecord. simpl.
    now destruct (streq (DataRecord.Direction r) (str "To") || fromParty).
  - intros k Hk. rewrite Map_get_push. apply streq_false in Hk. now rewrite Hk.
  - reflexivity.
  - unfold updateContact. rewrite Hget, Map_get_set_same.
    eexists. split; [reflexivity|]. simpl. repeat split.
Qed.

Lemma continuation_rows_witness :
  exists key,
    lastAttributed Samples.amy = Some key
    /\ listAt key
         (messagesByContact
            (processRecord (processAll Samples.amy)
               (Unified Samples2.continuationRow)))
       = listAt key (messagesByContact (processAll Samples.amy))
         ++ [continuationMessage true Samples2.continuationRow]
    /\ Message.isFromMe (continuationMessage true Samples2.continuationRow)
       = true.
Proof.
  pose proof (continuation_rows Samples.amy Samples2.continuationRow true
                (str " ") eq_refl eq_refl eq_refl eq_refl) as H.
  cbv zeta in H.
  destruct (lastAttributed Samples.amy) as [key|] eqn:E;
    [|vm_compute in E; discriminate].
  destruct H as (existing & _ & _ & Hlist & _).
  exists key. split; [reflexivity|]. split; [exact Hlist|].
  vm_compute. reflexivity.
Defined.

(** C6 as stated takes every unified record with such a Party.  A calendar
    row and a message row without text have the Party From: followed by a
    blank and come after an attributed record; the claim has their message
    appended to that contact's list, and the code skips them. *)
Lemma continuation_needs_type_and_text :
  let st := processAll Samples.amy in
  let key := str "9601234567" in
  lastAttributed Samples.amy = Some key
  /\ DataRecord.Party Samples2.calendarRow = str "From:" ++ str " "
  /\ DataRecord.Party Samples2.blankRow = str "From:" ++ str " "
  /\ ~ (listAt key
          (messagesByContact (processRecord st (Unified Samples2.calendarRow)))
        = listAt key (messagesByContact st)
          ++ [continuationMessage true Samples2.calendarRow])
  /\ ~ (listAt key
          (messagesByContact (processRecord st (Unified Samples2.blankRow)))
        = listAt key (messagesByContact st)
          ++ [continuationMessage true Samples2.blankRow])
  /\ processRecord st (Unified Samples2.calendarRow) = st
  /\ processRecord st (Unified Samples2.blankRow) = st.
Proof.
  cbv zeta. repeat split; try (vm_compute; reflexivity);
    intros H; apply (f_equal (@length _)) in H;
    vm_compute in H; discriminate.
Qed.

(* ------------------------------------------------------------------ *)
(** *** Message status *)

(** The mapping function follows the table. *)
Lemma mapSMSStatusToMessageStatus_table (smsStatus : option jsstring) :
  let normalized := option_map toLowerCase smsStatus in
  let named (lit : jsstring) := normalized = Some lit in
  (named (str "read") -> mapSMSStatusToMessageStatus smsStatus false = read)
  /\ (~ named (str "read") ->
      mapSMSStatusToMessageStatus smsStatus false = delivered)
  /\ (named (str "sent") -> mapSMSStatusToMessageStatus smsStatus true = delivered)
  /\ (named (str "read") -> mapSMSStatusToMessageStatus smsStatus true = read)
  /\ (named (str "unsent") \/ named (str "failed") \/ named (str "error") ->
      mapSMSStatusToMessageStatus smsStatus true = failed)
  /\ (~ named (str "sent") -> ~ named (str "read") -> ~ named (str "unsent") ->
      ~ named (str "failed") -> ~ named (str "error") ->
      mapSMSStatusToMessageStatus smsStatus true = sent).
Proof.
  intros normalized named. unfold named, mapSMSStatusToMessageStatus.
  fold normalized.
  destruct normalized as [s|].
  - repeat split.
    + intros [= ->]. reflexivity.
    + intros Hn. simpl. destruct (streq s (str "read")) eqn:E.
      * apply streq_true in E. congruence.
      * now destruct (streq s (str "unread")).
    + intros [= ->]. reflexivity.
    + intros [= ->]. reflexivity.
    + intros [[= ->]|[[= ->]|[= ->]]]; reflexivity.
    + intros H1 H2 H3 H4 H5. simpl.
      destruct (streq s (str "sent")) eqn:E1;
        [apply streq_true in E1; congruence|].
      destruct (streq s (str "read")) eqn:E2;
        [apply streq_true in E2; congruence|].
      destruct (streq s (str "unsent")) eqn:E3;
        [apply streq_true in E3; congruence|].
      destruct (streq s (str "failed")) eqn:E4;
        [apply streq_true in E4; congruence|].
      destruct (streq s (str "error")) eqn:E5;
        [apply streq_true in E5; congruence|].
      reflexivity.
  - repeat split; try discriminate; try reflexivity.
    intros [H|[H|H]]; discriminate.
Qed.

(** The status of a built message depends on [isRead] and [isFromMe]
    alone: the call passes Read or Unread, never the record's status. *)
Lemma buildMessage_status (record : UnifiedRecord) (f : Fields) :
  Message.status (buildMessage record f) =
  if f_isRead f then read
  else if f_isFromMe f then sent else delivered.
Proof.
  unfold buildMessage. simpl.
  destruct (f_isRead f), (f_isFromMe f); reflexivity.
Qed.

(** C4 at a legacy record sent by the owner with source status Sent, and
    at one with source status Failed: the table, and the earlier
    [processMessagesData], give delivered and failed; the message that
    [processMessagesData] builds has status sent in both cases. *)
Theorem outgoing_status_is_lost :
  mapSMSStatusToMessageStatus (SMSRecord.status Samples3.sentRecord) true
    = delivered
  /\ legacyMessageStatus Samples3.sentRecord = Some delivered
  /\ map Message.status
       (listAt (str "9607781405")
          (out_messagesByContact
             (processMessagesData [Legacy Samples3.sentRecord]))) = [sent]
  /\ mapSMSStatusToMessageStatus (SMSRecord.status Samples3.failedRecord) true
     = failed
  /\ legacyMessageStatus Samples3.failedRecord = Some failed
  /\ map Message.status
       (listAt (str "9607781405")
          (out_messagesByContact
             (processMessagesData [Legacy Samples3.failedRecord]))) = [sent].
Proof. vm_compute. repeat split. Qed.

(* ------------------------------------------------------------------ *)
(** *** Time order when every timestamp is a valid date *)

Lemma accepted_timestamp (st : State) (record : UnifiedRecord) (f : Fields) :
  accepted st record = Some f -> f_timestamp f = recordTime record.
Proof.
  unfold accepted.
  destruct (extractFields st record) as [f0|] eqn:E; [|discriminate].
  destruct (truthy (f_phone f0)); [|discriminate]. intros [= <-].
  destruct record as [r|r]; simpl in E.
  - destruct (SMSRecord.party r); [|discriminate].
    destruct (_ || _); [discriminate|]. now injection E as <-.
  - repeat match type of E with
           | (if ?b then _ else _) = _ => destruct b; try discriminate
           | match ?x with _ => _ end = _ => destruct x; try discriminate
           end;
      now injection E as <-.
Qed.

Lemma byTimestamp_valid (a b : Message.t) :
  validMessage a -> validMessage b ->
  byTimestamp a b = Num (messageTime a - messageTime b).
Proof.
  intros [x Hx] [y Hy]. unfold byTimestamp, messageTime, timeOf.
  now rewrite Hx, Hy.
Qed.

Lemma date_gt_valid (a b : Date) :
  validDate a -> validDate b -> date_gt a b = (timeOf b <? timeOf a)%Z.
Proof.
  intros [x Hx] [y Hy]. unfold date_gt, timeOf. now rewrite Hx, Hy.
Qed.

Lemma processRecord_dated (st : State) (record : UnifiedRecord) :
  Consistent st -> Dated st -> validDate (recordTime record) ->
  Dated (processRecord st record).
Proof.
  intros C D Hvalid. rewrite processRecord_accepted.
  destruct (accepted st record) as [f|] eqn:Hacc; [|assumption].
  rewrite <- (accepted_timestamp _ _ _ Hacc) in Hvalid.
  set (key := contactKeyOf (f_phone f)).
  intros k c. cbn [contactsMap messagesByContact]. intros Hget.
  unfold listAt. rewrite Map_get_push.
  destruct (streq k key) eqn:Ek.
  2:{ apply streq_false in Ek. rewrite updateContact_get in Hget by assumption.
      exact (D k c Hget). }
  apply streq_true in Ek. subst k.
  assert (Hm : validMessage (buildMessage record f)) by exact Hvalid.
  unfold updateContact in Hget.
  destruct (Map_get key (contactsMap st)) as [c0|] eqn:E0;
    rewrite Map_get_set_same in Hget; injection Hget as <-; simpl.
  - destruct (D key c0 E0) as (Hlast & Hall & Hex).
    unfold listAt in Hall, Hex.
    destruct (Map_get key (messagesByContact st)) as [ms|]; [|inversion Hex].
    rewrite date_gt_valid by assumption.
    destruct (Z.ltb_spec (timeOf (Contact.lastMessageTime c0))
                (timeOf (f_timestamp f))) as [Hnew|Hold].
    + split; [assumption|]. split.
      * apply Forall_app. split.
        -- eapply Forall_impl; [|exact Hall]. simpl. intros m [? ?].
           split; [assumption | lia].
        -- constructor; [|constructor]. split; [assumption|].
           unfold messageTime. simpl. lia.
      * apply Exists_app. right. constructor. split; reflexivity.
    + split; [assumption|]. split.
      * apply Forall_app. split; [assumption|].
        constructor; [|constructor]. split; [assumption|].
        unfold messageTime. simpl. lia.
      * apply Exists_app. now left.
  - apply (keys_agree_get st key C) in E0. rewrite E0. simpl.
    split; [assumption|]. split.
    + constructor; [|constructor]. split; [assumption|].
      unfold messageTime. simpl. lia.
    + constructor. split; reflexivity.
Qed.

Lemma run_dated (data : list UnifiedRecord) (st : State) :
  Consistent st -> Dated st ->
  Forall (fun record => validDate (recordTime record)) data ->
  Dated (fold_left processRecord data st).
Proof.
  revert st. induction data as [|r data IH]; intros st C D Hall; simpl;
    [assumption|].
  inversion Hall; subst.
  apply IH; auto using processRecord_consistent, processRecord_dated.
Qed.

(** When every record's timestamp is a valid date, each returned contact's
    message list is its messages in ascending time order, messages of equal
    time in input order, and the contact's last message is the newest of
    them ([lastMessageTime] is the greatest timestamp). *)
Lemma dated_input_is_sorted_and_last_is_newest (data : list UnifiedRecord) :
  Forall (fun record => validDate (recordTime record)) data ->
  forall c,
    In c (contacts (processMessagesData data)) ->
    let key := contactIdOf c in
    let inInputOrder :=
      map messageOf (filter (mapsTo key) (acceptedRecords data)) in
    exists messages,
      Map_get key (out_messagesByContact (processMessagesData data))
      = Some messages
      /\ Permutation messages inInputOrder
      /\ StronglySorted notAfter messages
      /\ (forall t,
            filter (fun m => messageTime m =? t)%Z messages
            = filter (fun m => messageTime m =? t)%Z inInputOrder)
      /\ Forall (fun m => (messageTime m
                           <= timeOf (Contact.lastMessageTime c))%Z) messages
      /\ Exists (fun m => Message.timestamp m = Contact.lastMessageTime c
                          /\ Message.text m = Contact.lastMessage c) messages.
Proof.
  intros Hvalid c Hc key inInputOrder.
  pose proof (processAll_consistent data) as C.
  assert (D : Dated (processAll data))
    by (apply run_dated; auto using initialState_consistent;
        intros k c0 H0; discriminate).
  apply contacts_In in Hc. fold key in Hc.
  destruct (D key c Hc) as (Hlast & Hall & Hex).
  destruct (contact_entry C _ Hc) as (_ & _ & _ & _ & ms & Hms & _).
  pose proof (processAll_messages data key) as Hlist.
  unfold listAt in Hall, Hex, Hlist. rewrite Hms in Hall, Hex, Hlist.
  fold inInputOrder in Hlist. subst ms.
  assert (Hok : Forall validMessage inInputOrder)
    by (eapply Forall_impl; [|exact Hall]; now intros m [? ?]).
  exists (sort byTimestamp inInputOrder).
  rewrite out_messages_get, Hms. split; [reflexivity|].
  split; [apply sort_perm|].
  split; [exact (sort_sorted _ _ messageTime validMessage
                   byTimestamp_valid _ Hok)|].
  split; [intros t; exact (sort_stable _ _ messageTime validMessage
                             byTimestamp_valid t _ Hok)|].
  split.
  - apply (Forall_perm _ _ inInputOrder); [symmetry; apply sort_perm|].
    eapply Forall_impl; [|exact Hall]. now intros m [? ?].
  - apply Exists_exists in Hex as (m & Hin & Hm).
    apply Exists_exists. exists m. split; [|assumption].
    now apply sort_In.
Qed.

(** The spec's scenario: records timestamped T1, T3, T2 for one contact
    come out as T1, T2, T3, and the last message is the one of T3. *)
Example out_of_order_scenario :
  match processMessagesData Samples.outOfOrder with
  | mkProcessed [c] [(_, [m1; m2; m3])] _ =>
      map Message.text [m1; m2; m3] = [str "one"; str "two"; str "three"]
      /\ Contact.lastMessage c = str "three"
      /\ Contact.lastMessageTime c = Samples.at_ 300
  | _ => False
  end.
Proof. vm_compute. repeat split. Qed.

(* ------------------------------------------------------------------ *)
(** *** Last message and Invalid Date *)

(** C2 at two rows of one contact of which the first has an Invalid Date:
    the contact keeps the first row as its last message, with the Invalid
    Date as [lastMessageTime], although the second row has the only (hence
    the greatest) valid timestamp; with the rows in the other order the
    contact's last message is the dated row. *)
Theorem invalid_date_blocks_last_message :
  (exists c,
     contacts (processMessagesData [Samples3.undated; Samples3.dated]) = [c]
     /\ Contact.lastMessageTime c = Samples.invalidDate
     /\ Contact.lastMessage c = str "first"
     /\ Contact.messageCount c = 2)
  /\ (exists c,
        contacts (processMessagesData [Samples3.dated; Samples3.undated]) = [c]
        /\ Contact.lastMessageTime c = Samples.at_ 1577873100000
        /\ Contact.lastMessage c = str "second").
Proof.
  split; eexists; (split; [vm_compute; reflexivity|]); repeat split.
Qed.

(* ================================================================== *)
(** ** Match-location lookup *)
(* ================================================================== *)




Section MatchLocationFacts.
Variable lower : jsstring -> jsstring.






End MatchLocationFacts.






(** What the effect stores for each filtered contact is what the lookup
    gives for that contact's message list. *)
Lemma matchMetaByContact_lookup (lower : jsstring -> jsstring)
  (searchQuery : jsstring)
  (byContact : Map (list Message.t)) (ids : list jsstring)
  (contactId : jsstring) :
  lower (trim searchQuery) <> [] ->
  In contactId ids ->
  Map_get contactId (matchMetaByContact lower searchQuery (Some byContact) (Some ids))
  = matchMetaFor lower (Map_get contactId byContact) (lower (trim searchQuery)).
Proof.
  intros Hq Hin. unfold matchMetaByContact.
  set (query := lower (trim searchQuery)) in *.
  destruct ids as [|i0 ids0] eqn:Eids; [contradiction|]. rewrite <- Eids in *.
  replace (truthy query) with true by (now destruct query).
  simpl negb. cbv iota.
  set (step := fun (result : Map MatchMeta) (cid : jsstring) =>
                 match matchMetaFor lower (Map_get cid byContact) query with
                 | Some meta => Map_set cid meta result
                 | None => result
                 end).
  assert (Hfold : forall l (init : Map MatchMeta),
             Map_get contactId (fold_left step l init) =
             if in_dec (list_eq_dec N.eq_dec) contactId l
             then match matchMetaFor lower (Map_get contactId byContact) query with
                  | Some meta => Some meta
                  | None => Map_get contactId init
                  end
             else Map_get contactId init).
  { induction l as [|cid l IH]; intros init; [reflexivity|].
    simpl fold_left. rewrite IH.
    assert (Hstep : Map_get contactId (step init cid) =
                    if list_eq_dec N.eq_dec cid contactId
                    then match matchMetaFor lower (Map_get contactId byContact) query
                         with
                         | Some meta => Some meta
                         | None => Map_get contactId init
                         end
                    else Map_get contactId init).
    { unfold step.
      destruct (list_eq_dec N.eq_dec cid contactId) as [->|Hne].
      - destruct (matchMetaFor lower (Map_get contactId byContact) query);
          [apply Map_get_set_same | reflexivity].
      - destruct (matchMetaFor lower (Map_get cid byContact) query);
          [|reflexivity].
        apply Map_get_set_other. congruence. }
    rewrite Hstep.
    destruct (in_dec (list_eq_dec N.eq_dec) contactId l) as [Hi|Hi];
      destruct (in_dec (list_eq_dec N.eq_dec) contactId (cid :: l)) as [Hj|Hj];
      destruct (list_eq_dec N.eq_dec cid contactId) as [He|He];
      destruct (matchMetaFor lower (Map_get contactId byContact) query);
      try reflexivity;
      try (exfalso; apply Hj; now right);
      try (exfalso; apply Hj; now left);
      try (destruct Hj as [Hj|Hj]; [congruence | contradiction]). }
  rewrite Hfold.
  destruct (in_dec _ contactId ids) as [_|Hn]; [|contradiction].
  now destruct (matchMetaFor lower (Map_get contactId byContact) query).
Qed.


(* ================================================================== *)
(** ** Further properties of phone normalisation *)
(* ================================================================== *)

Lemma normalizePhoneNumber_nil : normalizePhoneNumber [] = [].
Proof. reflexivity. Qed.

Lemma normalizePhoneNumber_no_digits (p : jsstring) :
  filter isDigit p = [] -> normalizePhoneNumber p = [].
Proof.
  intros H. unfold normalizePhoneNumber. rewrite H.
  now destruct (truthy p).
Qed.

Lemma normalizePhoneNumber_of_digits (s : jsstring) :
  normalizePhoneNumber s = normalizePhoneNumber (filter isDigit s).
Proof.
  destruct (filter isDigit s) as [|d c] eqn:E.
  - now rewrite normalizePhoneNumber_no_digits.
  - rewrite <- E.
    rewrite (normalizePhoneNumber_cleaned _ (filter_forallb isDigit s)).
    unfold normalizePhoneNumber.
    assert (Hs : truthy s = true) by (destruct s; [discriminate | reflexivity]).
    rewrite Hs, E. simpl negb. cbv iota. rewrite <- E.
    rewrite (filter_forallb isDigit s), andb_true_r.
    destruct (startsWith _ (str "960")); [reflexivity|].
    destruct (length (filter isDigit s) =? 7); [reflexivity|].
    destruct (startsWith _ (str "0")); [reflexivity|].
    destruct (10 <=? length (filter isDigit s)); reflexivity.
Qed.

(** X1. The normalised number depends on the digits of the input alone:
    strings with the same digits, in the same order, normalise to the same
    string, whatever else they contain. *)
Theorem normalizePhoneNumber_reads_digits_only (p q : jsstring) :
  filter isDigit p = filter isDigit q ->
  normalizePhoneNumber p = normalizePhoneNumber q.
Proof.
  intros E.
  now rewrite (normalizePhoneNumber_of_digits p),
    (normalizePhoneNumber_of_digits q), E.
Qed.

Lemma normalizePhoneNumber_reads_digits_only_witness :
  normalizePhoneNumber (str "+960 778-1405")
  = normalizePhoneNumber (str "(960) 7781405").
Proof.
  apply normalizePhoneNumber_reads_digits_only. reflexivity.
Defined.

(** X2. The result is empty exactly when the input has no digit at all;
    so the ContactKey of a phone string is its normalisation when the string
    has a digit, and the raw string itself when it has none. *)
Theorem normalizePhoneNumber_empty_iff_no_digit (p : jsstring) :
  (normalizePhoneNumber p = [] <-> filter isDigit p = [])
  /\ contactKeyOf p =
     match filter isDigit p with
     | [] => p
     | _ :: _ => normalizePhoneNumber p
     end.
Proof.
  assert (H : normalizePhoneNumber p = [] <-> filter isDigit p = []).
  { split; [|apply normalizePhoneNumber_no_digits].
    unfold normalizePhoneNumber.
    destruct (filter isDigit p) as [|d c] eqn:E; [reflexivity|].
    destruct (truthy p) eqn:Ht; [|destruct p; discriminate].
    simpl negb. cbv iota.
    repeat match goal with
           | |- context [if ?b then _ else _] => destruct b
           end; intros H; try discriminate H;
      destruct c; discriminate H. }
  split; [exact H|].
  unfold contactKeyOf, orElse.
  destruct (filter isDigit p) as [|d c] eqn:E.
  - now rewrite (proj2 H eq_refl).
  - destruct (normalizePhoneNumber p) eqn:En; [|reflexivity].
    destruct H as [H _]. specialize (H eq_refl). discriminate.
Qed.

(** X3. A local number of 7 digits that does not itself begin with 960
    gets the country code, and the same number written with a leading 0 or
    with the country code already in front normalises to the same string:
    the three spellings share one ContactKey. *)
Theorem local_trunk_and_international_collapse (d : jsstring) :
  forallb isDigit d = true -> length d = 7 ->
  startsWith d (str "960") = false ->
  normalizePhoneNumber d = str "960" ++ d
  /\ normalizePhoneNumber (str "0" ++ d) = str "960" ++ d
  /\ normalizePhoneNumber (str "960" ++ d) = str "960" ++ d
  /\ contactKeyOf d = contactKeyOf (str "0" ++ d)
  /\ contactKeyOf d = contactKeyOf (str "+960 " ++ d).
Proof.
  intros Hd Hlen H960.
  assert (H1 : normalizePhoneNumber d = str "960" ++ d).
  { rewrite (normalizePhoneNumber_cleaned _ Hd), H960, Hlen.
    now destruct d. }
  assert (H2 : normalizePhoneNumber (str "0" ++ d) = str "960" ++ d).
  { rewrite normalizePhoneNumber_cleaned by (simpl; exact Hd).
    simpl length. rewrite Hlen. reflexivity. }
  assert (H3 : normalizePhoneNumber (str "960" ++ d) = str "960" ++ d).
  { rewrite normalizePhoneNumber_cleaned by (simpl; exact Hd).
    now rewrite startsWith_app. }
  assert (H4 : normalizePhoneNumber (str "+960 " ++ d) = str "960" ++ d).
  { rewrite <- H3.
    rewrite (normalizePhoneNumber_of_digits (str "+960 " ++ d)),
      (normalizePhoneNumber_of_digits (str "960" ++ d)).
    reflexivity. }
  repeat split; try assumption; unfold contactKeyOf, orElse;
    now rewrite ?H1, ?H2, ?H4.
Qed.

Lemma local_trunk_and_international_collapse_witness :
  contactKeyOf (str "7781405") = contactKeyOf (str "07781405")
  /\ contactKeyOf (str "7781405") = contactKeyOf (str "+960 7781405").
Proof.
  destruct (local_trunk_and_international_collapse (str "7781405")
              eq_refl eq_refl eq_refl) as (_ & _ & _ & H4 & H5).
  split; [exact H4 | exact H5].
Defined.

(* ================================================================== *)
(** ** The query as the two sides normalise it *)
(* ================================================================== *)

Lemma letters_are_not_blank (x : char) :
  (65 <= x <= 254)%N -> x <> 160%N -> isWhiteSpace x = false.
Proof.
  intros Hx H160. unfold isWhiteSpace.
  replace (x <=? 13)%N with false by (symmetry; apply N.leb_gt; lia).
  replace (8192 <=? x)%N with false by (symmetry; apply N.leb_gt; lia).
  replace (x =? 32)%N with false by (symmetry; apply N.eqb_neq; lia).
  replace (x =? 160)%N with false by (symmetry; apply N.eqb_neq; lia).
  replace (x =? 5760)%N with false by (symmetry; apply N.eqb_neq; lia).
  replace (x =? 8232)%N with false by (symmetry; apply N.eqb_neq; lia).
  replace (x =? 8233)%N with false by (symmetry; apply N.eqb_neq; lia).
  replace (x =? 8239)%N with false by (symmetry; apply N.eqb_neq; lia).
  replace (x =? 8287)%N with false by (symmetry; apply N.eqb_neq; lia).
  replace (x =? 12288)%N with false by (symmetry; apply N.eqb_neq; lia).
  replace (x =? 65279)%N with false by (symmetry; apply N.eqb_neq; lia).
  now rewrite andb_false_r.
Qed.

Lemma lowerUnit_keeps_blank (c : char) :
  isWhiteSpace (lowerUnit c) = isWhiteSpace c.
Proof.
  assert (Hc : lowerUnit c = c
               \/ lowerUnit c = (c + 32)%N
                  /\ (65 <= c <= 90 \/ 192 <= c <= 222)%N).
  { unfold lowerUnit.
    destruct (N.leb_spec 65 c), (N.leb_spec c 90), (N.leb_spec 192 c),
      (N.leb_spec c 222), (N.eqb_spec c 215); simpl; auto; right; lia. }
  destruct Hc as [->|[-> Hr]]; [reflexivity|].
  rewrite !letters_are_not_blank by lia. reflexivity.
Qed.

Lemma dropWhile_blank_lower (s : jsstring) :
  dropWhile isWhiteSpace (toLowerCase s)
  = toLowerCase (dropWhile isWhiteSpace s).
Proof.
  induction s as [|c s IH]; [reflexivity|]. simpl.
  rewrite lowerUnit_keeps_blank. now destruct (isWhiteSpace c).
Qed.

Lemma trim_toLowerCase (s : jsstring) :
  trim (toLowerCase s) = toLowerCase (trim s).
Proof.
  unfold trim, trimStart, trimEnd.
  rewrite dropWhile_blank_lower.
  unfold toLowerCase at 1. rewrite <- map_rev.
  fold (toLowerCase (rev (dropWhile isWhiteSpace s))).
  rewrite dropWhile_blank_lower.
  unfold toLowerCase. now rewrite map_rev.
Qed.


(* ================================================================== *)
(** ** The worker over a stream of messages *)
(* ================================================================== *)

Lemma onmessage_init (index corpus : list SearchIndexItem.t) :
  onmessage index (InitMessage corpus) = (loweredCorpus corpus, None).
Proof.
  unfold onmessage, loweredCorpus. f_equal. apply map_ext.
  intros [cid txt]. simpl. unfold orElse. now destruct txt.
Qed.

Lemma onmessage_search (index : list SearchIndexItem.t) (id : number)
  (query : jsstring) :
  exists res, onmessage index (SearchMessage id query)
              = (index, Some (mkResult id res)).
Proof.
  unfold onmessage.
  destruct (negb (truthy (trim (toLowerCase (orElse query [])))));
    eexists; reflexivity.
Qed.

Lemma runWorker_state (index : list SearchIndexItem.t)
  (messages : list IncomingMessage) :
  fst (runWorker index messages) =
  match lastInit messages with
  | Some corpus => loweredCorpus corpus
  | None => index
  end.
Proof.
  revert index. induction messages as [|e rest IH]; intros index;
    [reflexivity|].
  simpl runWorker. destruct e as [corpus|id query].
  - rewrite onmessage_init. specialize (IH (loweredCorpus corpus)).
    destruct (runWorker (loweredCorpus corpus) rest) as [final later].
    simpl in *. rewrite IH. now destruct (lastInit rest).
  - destruct (onmessage_search index id query) as [res ->].
    specialize (IH index).
    destruct (runWorker index rest) as [final later].
    simpl in *. rewrite IH. now destruct (lastInit rest).
Qed.

Lemma lastInit_app_init (before between : list IncomingMessage)
  (corpus : list SearchIndexItem.t) :
  forallb (fun e => negb (isInit e)) between = true ->
  lastInit (before ++ InitMessage corpus :: between) = Some corpus.
Proof.
  intros Hb.
  assert (Hnone : lastInit between = None).
  { induction between as [|e l IH]; [reflexivity|]. simpl in *.
    apply andb_true_iff in Hb as [He Hl]. rewrite (IH Hl).
    now destruct e. }
  induction before as [|e l IH]; simpl.
  - now rewrite Hnone.
  - now rewrite IH.
Qed.

Lemma runWorker_app (index : list SearchIndexItem.t)
  (first second : list IncomingMessage) :
  runWorker index (first ++ second) =
  (fst (runWorker (fst (runWorker index first)) second),
   snd (runWorker index first)
   ++ snd (runWorker (fst (runWorker index first)) second)).
Proof.
  revert index. induction first as [|e first IH]; intros index.
  - simpl. now destruct (runWorker index second).
  - simpl. destruct (onmessage index e) as [index' posted].
    rewrite IH.
    destruct (runWorker index' first) as [mid p1]. simpl.
    now destruct posted.
Qed.

(** X5. Whatever messages the worker has handled, its index is the
    lowercased corpus of the most recent [init] (its starting value when
    there was none), and it has posted exactly one result per [search]
    message, in the order of the requests, each carrying the id of its
    request. *)
Theorem worker_replies_once_per_search
  (index : list SearchIndexItem.t) (messages : list IncomingMessage) :
  fst (runWorker index messages) =
    match lastInit messages with
    | Some corpus => loweredCorpus corpus
    | None => index
    end
  /\ map result_id (snd (runWorker index messages)) = searchIds messages.
Proof.
  split; [apply runWorker_state|].
  revert index. induction messages as [|e rest IH]; intros index;
    [reflexivity|].
  simpl runWorker. destruct e as [corpus|id query].
  - rewrite onmessage_init. specialize (IH (loweredCorpus corpus)).
    now destruct (runWorker (loweredCorpus corpus) rest) as [final later].
  - destruct (onmessage_search index id query) as [res ->].
    specialize (IH index).
    destruct (runWorker index rest) as [final later].
    simpl in *. now rewrite IH.
Qed.

Lemma runWorker_single (index : list SearchIndexItem.t) (e : IncomingMessage) :
  runWorker index [e] =
  (fst (onmessage index e),
   match snd (onmessage index e) with Some r => [r] | None => [] end).
Proof.
  cbn [runWorker]. now destruct (onmessage index e) as [i [r|]].
Qed.

(** X6. A search is answered from the corpus of the latest [init] before
    it: earlier corpora are replaced as a whole, and searches in between do
    not touch the index. *)
Theorem worker_answers_from_latest_init
  (index : list SearchIndexItem.t) (before between : list IncomingMessage)
  (corpus : list SearchIndexItem.t) (id : number) (query : jsstring) :
  forallb (fun e => negb (isInit e)) between = true ->
  snd (runWorker index
         (before ++ InitMessage corpus :: between ++ [SearchMessage id query]))
  = snd (runWorker index (before ++ InitMessage corpus :: between))
    ++ match searchCorpus corpus id query with
       | Some r => [r]
       | None => []
       end.
Proof.
  intros Hbetween.
  replace (before ++ InitMessage corpus :: between ++ [SearchMessage id query])
    with ((before ++ InitMessage corpus :: between) ++ [SearchMessage id query])
    by (rewrite <- app_assoc; reflexivity).
  rewrite runWorker_app, runWorker_single. cbn [snd fst].
  assert (Hidx : fst (runWorker index (before ++ InitMessage corpus :: between))
                 = loweredCorpus corpus).
  { now rewrite runWorker_state, lastInit_app_init. }
  rewrite Hidx. unfold searchCorpus.
  rewrite onmessage_init. reflexivity.
Qed.

Lemma worker_answers_from_latest_init_witness :
  snd (runWorker []
         ([InitMessage [SearchIndexItem.mk (str "k1") (str "Old")]]
          ++ InitMessage [SearchIndexItem.mk (str "k2") (str "New")]
          :: [SearchMessage (Num 1) (str "x")]
          ++ [SearchMessage (Num 2) (str "new")]))
  = snd (runWorker []
           ([InitMessage [SearchIndexItem.mk (str "k1") (str "Old")]]
            ++ InitMessage [SearchIndexItem.mk (str "k2") (str "New")]
            :: [SearchMessage (Num 1) (str "x")]))
    ++ match searchCorpus [SearchIndexItem.mk (str "k2") (str "New")]
               (Num 2) (str "new") with
       | Some r => [r]
       | None => []
       end.
Proof.
  apply worker_answers_from_latest_init. reflexivity.
Defined.

(* ================================================================== *)
(** ** From the records to the search results *)
(* ================================================================== *)

Lemma toLowerCase_app (a b : jsstring) :
  toLowerCase (a ++ b) = toLowerCase a ++ toLowerCase b.
Proof. apply map_app. Qed.

Lemma isSubstring_lower (part s : jsstring) :
  isSubstring part s -> isSubstring (toLowerCase part) (toLowerCase s).
Proof.
  intros (a & b & ->). exists (toLowerCase a), (toLowerCase b).
  now rewrite !toLowerCase_app.
Qed.

Lemma isSubstring_trans (q part s : jsstring) :
  isSubstring q part -> isSubstring part s -> isSubstring q s.
Proof.
  intros (a & b & ->) (c & d & ->). exists (c ++ a), (b ++ d).
  now rewrite <- !app_assoc.
Qed.

Lemma orElse_nil (s : jsstring) : orElse s [] = s.
Proof. unfold orElse. now destruct s. Qed.

Lemma concat_contains (sep part : jsstring) (rest : list jsstring) :
  In part rest ->
  isSubstring part (concat (map (fun p => sep ++ p) rest)).
Proof.
  induction rest as [|y rest IH]; [contradiction|].
  intros [->|Hin]; simpl.
  - exists sep, (concat (map (fun p => sep ++ p) rest)).
    now rewrite <- app_assoc.
  - destruct (IH Hin) as (c & d & Hcd).
    exists ((sep ++ y) ++ c), d. rewrite Hcd. now rewrite <- !app_assoc.
Qed.

(** Every part of a joined array occurs in the result. *)
Lemma join_contains (sep part : jsstring) (parts : list jsstring) :
  In part parts -> isSubstring part (join sep parts).
Proof.
  destruct parts as [|first rest]; [contradiction|].
  intros [->|Hin]; simpl.
  - exists [], (concat (map (fun p => sep ++ p) rest)). reflexivity.
  - destruct (concat_contains sep part rest Hin) as (c & d & Hcd).
    exists (first ++ c), d. rewrite Hcd. now rewrite <- !app_assoc.
Qed.

Lemma Map_set_fresh (V : Type) (k : jsstring) (v : V) (m : Map V) :
  ~ In k (Map_keys m) -> Map_set k v m = m ++ [(k, v)].
Proof.
  induction m as [|[k0 v0] m IH]; simpl; [reflexivity|].
  intros Hk. destruct (streq k k0) eqn:E.
  - apply streq_true in E. subst k0. exfalso. apply Hk. now left.
  - rewrite IH; [reflexivity|]. intros H. apply Hk. now right.
Qed.

(** Setting the entries of distinct keys one after the other lists them in
    that order. *)
Lemma fold_Map_set_distinct (X V : Type) (idf : X -> jsstring) (e : X -> V)
  (l : list X) (init : Map V) :
  NoDup (Map_keys init ++ map idf l) ->
  fold_left (fun m x => Map_set (idf x) (e x) m) l init
  = init ++ map (fun x => (idf x, e x)) l.
Proof.
  revert init. induction l as [|x l IH]; intros init Hnd; simpl.
  - now rewrite app_nil_r.
  - rewrite Map_set_fresh.
    + rewrite IH.
      * now rewrite <- app_assoc.
      * unfold Map_keys in *. rewrite map_app, <- app_assoc. exact Hnd.
    + apply NoDup_remove_2 in Hnd. intros H. apply Hnd.
      apply in_or_app. now left.
Qed.

Lemma Map_values_ids (st : State) :
  Consistent st ->
  map contactIdOf (Map_values (contactsMap st)) = Map_keys (contactsMap st).
Proof.
  intros C. unfold Map_values, Map_keys. rewrite map_map.
  apply map_ext_in. intros [k c] Hin. simpl.
  apply (contactIdOf_entry _ _ _ C).
  apply Map_In_get; [exact (keys_nodup C) | assumption].
Qed.

Lemma contacts_ids_NoDup (data : list UnifiedRecord) :
  NoDup (map contactIdOf (contacts (processMessagesData data))).
Proof.
  pose proof (processAll_consistent data) as C.
  apply (Permutation_NoDup
           (l := map contactIdOf (Map_values (contactsMap (processAll data))))).
  - apply Permutation_map. symmetry. apply sort_perm.
  - rewrite (Map_values_ids _ C). exact (keys_nodup C).
Qed.

Lemma buildSearchIndex_entries (data : list UnifiedRecord) :
  let out := processMessagesData data in
  buildSearchIndex out
  = map (fun c => (contactIdOf c, searchEntry out c)) (contacts out).
Proof.
  intros out. unfold buildSearchIndex.
  destruct (contacts out) as [|c0 l] eqn:E; [reflexivity|].
  rewrite <- E.
  rewrite (fold_Map_set_distinct _ _ contactIdOf (searchEntry out)).
  - reflexivity.
  - simpl. apply contacts_ids_NoDup.
Qed.

Lemma Map_get_map_entries (X V : Type) (idf : X -> jsstring) (e : X -> V)
  (l : list X) (x : X) :
  NoDup (map idf l) -> In x l ->
  Map_get (idf x) (map (fun y => (idf y, e y)) l) = Some (e x).
Proof.
  intros Hnd Hin. apply Map_In_get.
  - unfold Map_keys. rewrite map_map. simpl. exact Hnd.
  - apply in_map_iff. now exists x.
Qed.

(** X7. The search index has exactly one entry per returned contact, under
    the contact's id and in the order of the contacts.  The entry is in
    lower case and contains, lowercased, the contact's name, phone,
    normalised phone and last message, the body of every message of the
    contact and every searchable term collected for it. *)
Theorem search_index_covers_every_contact (data : list UnifiedRecord) :
  let out := processMessagesData data in
  let index := buildSearchIndex out in
  Map_keys index = map contactIdOf (contacts out)
  /\ forall c,
       In c (contacts out) ->
       Map_get (contactIdOf c) index = Some (searchEntry out c)
       /\ toLowerCase (searchEntry out c) = searchEntry out c
       /\ (forall part,
             part = Contact.name c \/ part = Contact.phone c
             \/ part = Contact.normalizedPhone c
             \/ part = Contact.lastMessage c
             \/ (exists m,
                   In m (listAt (contactIdOf c) (out_messagesByContact out))
                   /\ part = Message.text m)
             \/ In part (listAt (contactIdOf c) (out_searchableData out)) ->
             isSubstring (toLowerCase part) (searchEntry out c)).
Proof.
  intros out index. unfold index, out.
  rewrite buildSearchIndex_entries. fold out. split.
  - unfold Map_keys. now rewrite map_map.
  - intros c Hc. split; [|split].
    + apply (Map_get_map_entries _ _ contactIdOf (searchEntry out));
        [apply contacts_ids_NoDup | exact Hc].
    + unfold searchEntry. apply toLowerCase_idempotent.
    + intros part Hpart. unfold searchEntry.
      apply isSubstring_lower, join_contains. unfold aggregatedParts.
      rewrite !orElse_nil.
      destruct Hpart as [->|[->|[->|[->|[(m & Hm & ->)|Hterm]]]]].
      * now left.
      * right. now left.
      * right. right. now left.
      * right. right. right. now left.
      * apply in_or_app. right. apply in_or_app. left.
        rewrite in_map_iff. exists m. split; [apply orElse_nil | exact Hm].
      * apply in_or_app. right. apply in_or_app. now right.
Qed.

Lemma search_index_covers_every_contact_witness :
  exists c,
    contacts (processMessagesData Samples.amy) = [c]
    /\ isSubstring (str "hello")
         (searchEntry (processMessagesData Samples.amy) c).
Proof.
  assert (Hc : exists c m,
             contacts (processMessagesData Samples.amy) = [c]
             /\ In m (listAt (contactIdOf c)
                        (out_messagesByContact (processMessagesData Samples.amy)))
             /\ toLowerCase (Message.text m) = str "hello").
  { vm_compute. do 2 eexists. split; [reflexivity|].
    split; [right; left; reflexivity | reflexivity]. }
  destruct Hc as (c & m & Hc & Hm & Htext).
  exists c. split; [exact Hc|].
  destruct (search_index_covers_every_contact Samples.amy) as [_ Hentries].
  destruct (Hentries c) as (_ & _ & Hparts); [rewrite Hc; now left|].
  rewrite <- Htext. apply Hparts.
  right. right. right. right. left. now exists m.
Defined.

Lemma workerSearchIndex_entries (data : list UnifiedRecord) :
  let out := processMessagesData data in
  workerSearchIndex (Some (buildSearchIndex out))
  = map (fun c => SearchIndexItem.mk (contactIdOf c) (searchEntry out c))
      (contacts out).
Proof.
  intros out. unfold workerSearchIndex, out.
  rewrite buildSearchIndex_entries, map_map. reflexivity.
Qed.

Lemma filter_map_commute (X Y : Type) (g : X -> Y) (p : Y -> bool)
  (l : list X) :
  filter p (map g l) = map g (filter (fun x => p (g x)) l).
Proof.
  induction l as [|x l IH]; [reflexivity|]. simpl.
  destruct (p (g x)); simpl; now rewrite IH.
Qed.

Lemma runWorker_init_first (index corpus : list SearchIndexItem.t)
  (rest : list IncomingMessage) :
  runWorker index (InitMessage corpus :: rest)
  = runWorker (loweredCorpus corpus) rest.
Proof.
  cbn [runWorker]. rewrite onmessage_init.
  now destruct (runWorker (loweredCorpus corpus) rest).
Qed.

Lemma initMessages_cases (items : list SearchIndexItem.t) :
  initMessages items = [] /\ items = []
  \/ initMessages items = [InitMessage items].
Proof. destruct items; [left | right]; auto. Qed.

(** The ids the worker posts for a query over the index of the data. *)
Lemma searchData_value (data : list UnifiedRecord) (id : number)
  (query : jsstring) :
  let out := processMessagesData data in
  let lowerQuery := trim (toLowerCase query) in
  searchData data id query =
  [ if truthy lowerQuery
    then map contactIdOf
           (filter (fun c => includes (searchEntry out c) lowerQuery)
              (contacts out))
    else [] ].
Proof.
  intros out lowerQuery. unfold searchData. fold out.
  unfold out at 1. rewrite workerSearchIndex_entries. fold out.
  set (items := map (fun c => SearchIndexItem.mk (contactIdOf c)
                                (searchEntry out c)) (contacts out)).
  assert (Hsearch : forall index,
            index = [] /\ items = [] \/ index = loweredCorpus items ->
            map results (snd (runWorker index [SearchMessage id query]))
            = [ if truthy lowerQuery
                then map contactIdOf
                       (filter (fun c => includes (searchEntry out c) lowerQuery)
                          (contacts out))
                else [] ]).
  { intros index Hindex. rewrite runWorker_single, search_reply.
    fold lowerQuery. cbn [map results snd]. f_equal.
    destruct (truthy lowerQuery); [|reflexivity].
    destruct Hindex as [[-> Hitems] | ->].
    - unfold items in Hitems. apply map_eq_nil in Hitems.
      now rewrite Hitems.
    - unfold loweredCorpus. rewrite filter_lowered. unfold items.
      rewrite filter_map_commute.
      rewrite (map_map _ SearchIndexItem.contactId).
      cbn [SearchIndexItem.contactId SearchIndexItem.text].
      f_equal. apply filter_ext. intros c. unfold searchEntry.
      now rewrite toLowerCase_idempotent. }
  destruct (initMessages_cases items) as [[-> Hnil] | ->]; cbn [app].
  - apply Hsearch. now left.
  - rewrite runWorker_init_first. apply Hsearch. now right.
Qed.

Lemma map_NoDup_filter (X : Type) (idf : X -> jsstring) (p : X -> bool)
  (l : list X) :
  NoDup (map idf l) -> NoDup (map idf (filter p l)).
Proof.
  induction l as [|x l IH]; simpl; [constructor|].
  intros Hnd. inversion Hnd as [|? ? Hnotin Hnd']; subst.
  destruct (p x); simpl; [|now apply IH].
  constructor; [|now apply IH].
  intros Hin. apply Hnotin. apply in_map_iff in Hin as (y & Hy & Hin).
  apply filter_In in Hin as [Hin _]. apply in_map_iff. now exists y.
Qed.

(** X8. Asked over the index built from the processed data, the worker
    posts one list of ids: the empty list for a blank query, and otherwise
    the ids of the returned contacts whose index entry contains the
    lowercased, trimmed query, each id once and in the order of the
    contacts (newest conversation first). *)
Theorem search_over_the_data (data : list UnifiedRecord) (id : number)
  (query : jsstring) :
  let out := processMessagesData data in
  let lowerQuery := trim (toLowerCase query) in
  exists res,
    searchData data id query = [res]
    /\ NoDup res
    /\ (lowerQuery = [] -> res = [])
    /\ (lowerQuery <> [] ->
        res = map contactIdOf
                (filter (fun c => includes (searchEntry out c) lowerQuery)
                   (contacts out))
        /\ forall contactId,
             In contactId res <->
             exists c, In c (contacts out)
                       /\ contactIdOf c = contactId
                       /\ isSubstring lowerQuery (searchEntry out c)).
Proof.
  intros out lowerQuery. eexists. split; [apply searchData_value|].
  fold out lowerQuery. destruct (truthy lowerQuery) eqn:Ht.
  - split; [apply map_NoDup_filter, contacts_ids_NoDup|].
    split; [intros ->; discriminate|]. intros _. split; [reflexivity|].
    intros cid. rewrite in_map_iff. split.
    + intros (c & Hid & Hin). apply filter_In in Hin as [Hin Hinc].
      exists c. repeat split; auto. now apply includes_spec.
    + intros (c & Hin & Hid & Hsub). exists c. split; [assumption|].
      apply filter_In. split; [assumption|]. now apply includes_spec.
  - apply truthy_false in Ht. split; [constructor|].
    split; [reflexivity | intros Hne; contradiction].
Qed.

Lemma search_over_the_data_witness :
  searchData Samples.amy (Num 1) (str "hello") = [[str "9601234567"]].
Proof.
  destruct (search_over_the_data Samples.amy (Num 1) (str "hello"))
    as (res & Hres & _ & _ & Hsome).
  destruct Hsome as [Heq _]; [vm_compute; discriminate|].
  rewrite Hres, Heq. vm_compute. reflexivity.
Defined.

Lemma accepted_message_listed (data : list UnifiedRecord)
  (rf : UnifiedRecord * Fields) :
  In rf (acceptedRecords data) ->
  exists c,
    In c (contacts (processMessagesData data))
    /\ contactIdOf c = keyOf rf
    /\ In (messageOf rf)
         (listAt (keyOf rf)
            (out_messagesByContact (processMessagesData data))).
Proof.
  intros Hin. pose proof (processAll_consistent data) as C.
  assert (Hfilter : In rf (filter (mapsTo (keyOf rf)) (acceptedRecords data))).
  { apply filter_In. split; [assumption|]. unfold mapsTo. apply streq_refl. }
  assert (Hkey : In (keyOf rf) (Map_keys (contactsMap (processAll data)))).
  { apply processAll_keys. unfold recordsWithKey.
    destruct (filter (mapsTo (keyOf rf)) (acceptedRecords data));
      [contradiction | simpl; lia]. }
  apply Map_get_keys in Hkey.
  destruct (Map_get (keyOf rf) (contactsMap (processAll data))) as [c|] eqn:Hc;
    [|congruence].
  exists c. split; [|split].
  - apply contacts_In. now rewrite (contactIdOf_entry _ _ _ C Hc).
  - exact (contactIdOf_entry _ _ _ C Hc).
  - destruct (contact_entry C _ Hc) as (_ & _ & _ & _ & ms & Hms & _).
    unfold listAt. rewrite out_messages_get, Hms. simpl.
    apply sort_In.
    pose proof (processAll_messages data (keyOf rf)) as Hl.
    unfold listAt in Hl. rewrite Hms in Hl. rewrite Hl.
    now apply in_map.
Qed.

(** X9. No conversation is missed: when the body of an accepted record
    contains the lowercased, trimmed, non-empty query, letter case aside,
    the id of the contact the record was attributed to is among the ids the
    worker posts; and so is the id of every returned contact whose name,
    phone or last message contains it. *)
Theorem search_finds_every_matching_conversation
  (data : list UnifiedRecord) (id : number) (query : jsstring) :
  let out := processMessagesData data in
  let lowerQuery := trim (toLowerCase query) in
  lowerQuery <> [] ->
  exists res,
    searchData data id query = [res]
    /\ (forall rf,
          In rf (acceptedRecords data) ->
          isSubstring lowerQuery (toLowerCase (f_messageText (snd rf))) ->
          In (keyOf rf) res)
    /\ (forall c,
          In c (contacts out) ->
          isSubstring lowerQuery (toLowerCase (Contact.name c))
          \/ isSubstring lowerQuery (toLowerCase (Contact.phone c))
          \/ isSubstring lowerQuery (toLowerCase (Contact.lastMessage c)) ->
          In (contactIdOf c) res).
Proof.
  intros out lowerQuery Hne. eexists. split; [apply searchData_value|].
  fold out lowerQuery.
  assert (Ht : truthy lowerQuery = true)
    by (destruct lowerQuery; [congruence | reflexivity]).
  rewrite Ht.
  assert (Hpart : forall c part,
            In c (contacts out) ->
            In part (aggregatedParts c
                       (listAt (contactIdOf c) (out_messagesByContact out))
                       (listAt (contactIdOf c) (out_searchableData out))) ->
            isSubstring lowerQuery (toLowerCase part) ->
            In (contactIdOf c)
              (map contactIdOf
                 (filter (fun c => includes (searchEntry out c) lowerQuery)
                    (contacts out)))).
  { intros c part Hc Hin Hsub. apply in_map, filter_In.
    split; [assumption|]. apply includes_spec.
    apply (isSubstring_trans _ (toLowerCase part)); [assumption|].
    unfold searchEntry. now apply isSubstring_lower, join_contains. }
  split.
  - intros rf Hrf Hsub.
    destruct (accepted_message_listed data rf Hrf) as (c & Hc & Hid & Hm).
    rewrite <- Hid. apply (Hpart c (f_messageText (snd rf))); try assumption.
    unfold aggregatedParts. apply in_or_app. right. apply in_or_app. left.
    rewrite in_map_iff. exists (messageOf rf).
    split; [apply orElse_nil|]. fold out. now rewrite Hid.
  - intros c Hc Hsub. unfold aggregatedParts in Hpart.
    destruct Hsub as [Hsub|[Hsub|Hsub]].
    + apply (Hpart c (Contact.name c)); try assumption.
      rewrite orElse_nil. now left.
    + apply (Hpart c (Contact.phone c)); try assumption.
      rewrite !orElse_nil. right. now left.
    + apply (Hpart c (Contact.lastMessage c)); try assumption.
      rewrite !orElse_nil. do 3 right. now left.
Qed.

Lemma search_finds_every_matching_conversation_witness :
  exists res,
    searchData Samples.amy (Num 1) (str " HELLO ") = [res]
    /\ In (str "9601234567") res.
Proof.
  destruct (search_finds_every_matching_conversation
              Samples.amy (Num 1) (str " HELLO "))
    as (res & Hres & Hbody & _); [vm_compute; discriminate|].
  exists res. split; [exact Hres|].
  assert (Hrf : exists rf,
             In rf (acceptedRecords Samples.amy)
             /\ toLowerCase (f_messageText (snd rf)) = str "hello"
             /\ keyOf rf = str "9601234567").
  { vm_compute. eexists. split; [right; left; reflexivity|].
    split; reflexivity. }
  destruct Hrf as (rf & Hin & Htext & Hkey).
  rewrite <- Hkey. apply Hbody; [exact Hin|].
  rewrite Htext. exists [], []. reflexivity.
Defined.

Lemma NoDup_map_injective (X : Type) (idf : X -> jsstring) (l : list X)
  (x y : X) :
  NoDup (map idf l) -> In x l -> In y l -> idf x = idf y -> x = y.
Proof.
  induction l as [|z l IH]; simpl; [contradiction|].
  intros Hnd Hx Hy Heq. inversion Hnd as [|? ? Hnotin Hnd']; subst.
  destruct Hx as [->|Hx], Hy as [->|Hy]; auto.
  - exfalso. apply Hnotin. rewrite Heq. now apply in_map.
  - exfalso. apply Hnotin. rewrite <- Heq. now apply in_map.
Qed.

Lemma existsb_streq (k : jsstring) (l : list jsstring) :
  existsb (streq k) l = true <-> In k l.
Proof.
  rewrite existsb_exists. split.
  - intros (x & Hin & Heq). apply streq_true in Heq. now subst.
  - intros Hin. exists k. split; [assumption | apply streq_refl].
Qed.

(** X10. The list the component shows.  With no result yet
    ([filteredContactIds] null) or a blank query it is the whole contact
    list; with the ids the worker posted for the query it is the contacts
    whose index entry contains the lowercased, trimmed query, in the order
    of the contact list. *)
Theorem filtered_list_is_the_matching_contacts (data : list UnifiedRecord)
  (id : number) (query : jsstring) :
  let out := processMessagesData data in
  let lowerQuery := trim (toLowerCase query) in
  let posted := hd [] (searchData data id query) in
  filteredContacts (contacts out) query None = contacts out
  /\ filteredContacts (contacts out) query (Some posted) =
     if truthy lowerQuery
     then filter (fun c => includes (searchEntry out c) lowerQuery)
            (contacts out)
     else contacts out.
Proof.
  intros out lowerQuery posted. split; [reflexivity|].
  unfold posted. rewrite searchData_value. fold out lowerQuery.
  cbn [hd]. unfold filteredContacts.
  assert (Ht : truthy (trim query) = truthy lowerQuery).
  { unfold lowerQuery. rewrite trim_toLowerCase. unfold toLowerCase.
    now destruct (trim query). }
  rewrite Ht. destruct (truthy lowerQuery); [|reflexivity].
  cbn [negb]. apply filter_ext_in. intros c Hc.
  fold (contactIdOf c).
  destruct (includes (searchEntry out c) lowerQuery) eqn:Hinc.
  - apply existsb_streq, in_map, filter_In. now split.
  - destruct (existsb (streq (contactIdOf c)) _) eqn:Hex; [|reflexivity].
    apply existsb_streq, in_map_iff in Hex as (c' & Hid & Hin).
    apply filter_In in Hin as [Hin Hinc'].
    assert (c' = c).
    { apply (NoDup_map_injective _ contactIdOf (contacts out));
        auto using contacts_ids_NoDup. apply contacts_ids_NoDup. }
    subst c'. congruence.
Qed.

(* ================================================================== *)
(** ** Further properties of the aggregation *)
(* ================================================================== *)

Lemma list_sum_perm (l l' : list nat) :
  Permutation l l' -> list_sum l = list_sum l'.
Proof.
  induction 1; simpl; lia.
Qed.

Lemma length_by_key (keys : list jsstring) (l : list (UnifiedRecord * Fields)) :
  NoDup keys ->
  (forall rf, In rf l -> In (keyOf rf) keys) ->
  length l = list_sum (map (fun key => recordsWithKey key l) keys).
Proof.
  intros Hnd. unfold recordsWithKey.
  induction l as [|rf l IH]; intros Hall.
  - assert (H0 : forall ks : list jsstring,
               list_sum (map (fun _ => 0) ks) = 0)
      by (induction ks; simpl; auto).
    simpl. now rewrite H0.
  - simpl filter.
    rewrite (map_ext _ (fun key => (if streq (keyOf rf) key then 1 else 0)
                          + length (filter (mapsTo key) l))).
    2:{ intros key. unfold mapsTo at 1.
        now destruct (streq (keyOf rf) key). }
    rewrite list_sum_add, <- IH by (intros; apply Hall; now right).
    rewrite indicator_sum by assumption.
    destruct (in_dec (list_eq_dec N.eq_dec) (keyOf rf) keys) as [_|Hn];
      [reflexivity|].
    exfalso. apply Hn, Hall. now left.
Qed.

Lemma entry_count (data : list UnifiedRecord) (key : jsstring) (c : Contact.t) :
  In (key, c) (contactsMap (processAll data)) ->
  Contact.messageCount c = recordsWithKey key (acceptedRecords data).
Proof.
  intros Hin. pose proof (processAll_consistent data) as C.
  apply Map_In_get in Hin; [|exact (keys_nodup C)].
  destruct (contact_entry C _ Hin) as (_ & _ & _ & _ & ms & Hms & Hcount).
  pose proof (processAll_messages data key) as Hl.
  unfold listAt in Hl. rewrite Hms in Hl.
  rewrite Hcount, Hl, length_map. reflexivity.
Qed.

(** X11. Every accepted record is counted once: the [messageCount]s of the
    returned contacts add up to the number of accepted records, and so do
    the lengths of the returned message lists. *)
Theorem every_accepted_record_is_counted_once (data : list UnifiedRecord) :
  let out := processMessagesData data in
  list_sum (map Contact.messageCount (contacts out))
  = length (acceptedRecords data)
  /\ list_sum (map (fun kv => length (snd kv)) (out_messagesByContact out))
     = length (acceptedRecords data).
Proof.
  intros out. pose proof (processAll_consistent data) as C.
  assert (Hkeys : length (acceptedRecords data) =
                  list_sum (map (fun key => recordsWithKey key
                                              (acceptedRecords data))
                              (Map_keys (contactsMap (processAll data))))).
  { apply length_by_key; [exact (keys_nodup C)|].
    intros rf Hrf. apply processAll_keys. unfold recordsWithKey.
    assert (Hin : In rf (filter (mapsTo (keyOf rf)) (acceptedRecords data))).
    { apply filter_In. split; [assumption | apply streq_refl]. }
    destruct (filter (mapsTo (keyOf rf)) (acceptedRecords data));
      [contradiction | simpl; lia]. }
  split.
  - rewrite Hkeys. unfold out. simpl contacts.
    rewrite (list_sum_perm _ (map Contact.messageCount
                                (Map_values (contactsMap (processAll data)))))
      by (apply Permutation_map, sort_perm).
    unfold Map_values, Map_keys. rewrite !map_map. f_equal.
    apply map_ext_in. intros [k c] Hin. simpl. now apply entry_count.
  - rewrite Hkeys, (keys_agree C). unfold out. simpl out_messagesByContact.
    unfold Map_keys. rewrite !map_map. f_equal.
    apply map_ext_in. intros [k ms] Hin. simpl. rewrite sort_length.
    pose proof (processAll_messages data k) as Hl.
    unfold listAt in Hl.
    assert (Hnd : NoDup (Map_keys (messagesByContact (processAll data))))
      by (rewrite <- (keys_agree C); exact (keys_nodup C)).
    rewrite (Map_In_get _ _ _ _ Hnd Hin) in Hl.
    unfold recordsWithKey. now rewrite Hl, length_map.
Qed.

(** The contact of a key keeps the phone and the name it was created
    with. *)
Lemma run_keeps_identity (data : list UnifiedRecord) (st : State)
  (key : jsstring) (c : Contact.t) :
  Map_get key (contactsMap st) = Some c ->
  exists c',
    Map_get key (contactsMap (fold_left processRecord data st)) = Some c'
    /\ Contact.phone c' = Contact.phone c
    /\ Contact.name c' = Contact.name c.
Proof.
  revert st c. induction data as [|r data IH]; intros st c Hget; simpl.
  - now exists c.
  - destruct (processRecord_contact st r key c Hget)
      as (c1 & Hget1 & _ & _ & Hp & Hn).
    destruct (IH _ c1 Hget1) as (c' & Hget' & Hp' & Hn').
    exists c'. split; [assumption|]. split; congruence.
Qed.

Lemma run_first_seen (data : list UnifiedRecord) (st : State)
  (key : jsstring) (rf : UnifiedRecord * Fields)
  (rest : list (UnifiedRecord * Fields)) :
  Map_get key (contactsMap st) = None ->
  filter (mapsTo key) (acceptedFrom st data) = rf :: rest ->
  exists c,
    Map_get key (contactsMap (fold_left processRecord data st)) = Some c
    /\ Contact.phone c = f_phone (snd rf)
    /\ Contact.name c = f_contactName (snd rf).
Proof.
  revert st. induction data as [|r data IH]; intros st Hnone Hfirst;
    [discriminate|].
  simpl in *. pose proof (processRecord_accepted st r) as Hstep.
  destruct (accepted st r) as [f|] eqn:Hacc.
  - simpl in Hfirst. unfold mapsTo at 1, keyOf at 1 in Hfirst.
    simpl snd in Hfirst.
    destruct (streq (contactKeyOf (f_phone f)) key) eqn:Ek.
    + apply streq_true in Ek. injection Hfirst as <- _.
      assert (Hnew : exists c,
                 Map_get key (contactsMap (processRecord st r)) = Some c
                 /\ Contact.phone c = f_phone f
                 /\ Contact.name c = f_contactName f).
      { rewrite Hstep. simpl contactsMap. rewrite Ek.
        unfold updateContact. rewrite Hnone, Map_get_set_same.
        eexists. split; [reflexivity|]. split; reflexivity. }
      destruct Hnew as (c0 & Hc0 & Hp0 & Hn0).
      destruct (run_keeps_identity data _ _ _ Hc0) as (c & Hc & Hp & Hn).
      exists c. split; [assumption|]. simpl. split; congruence.
    + apply IH; [|assumption].
      rewrite Hstep. simpl contactsMap.
      rewrite updateContact_get; [assumption|].
      apply streq_false in Ek. congruence.
  - simpl in Hstep, Hfirst. rewrite Hstep in *. apply IH; assumption.
Qed.

(** X12. A contact carries the phone string and the name of the first
    accepted record that mapped to its key, whatever later records of the
    key say, and its [normalizedPhone] is the normalisation of that phone
    string. *)
Theorem contact_keeps_first_seen_identity (data : list UnifiedRecord)
  (key : jsstring) (rf : UnifiedRecord * Fields)
  (rest : list (UnifiedRecord * Fields)) :
  filter (mapsTo key) (acceptedRecords data) = rf :: rest ->
  exists c,
    filter (fun c' => streq (contactIdOf c') key)
      (contacts (processMessagesData data)) = [c]
    /\ Contact.phone c = f_phone (snd rf)
    /\ Contact.name c = f_contactName (snd rf)
    /\ Contact.normalizedPhone c = normalizePhoneNumber (f_phone (snd rf)).
Proof.
  intros Hfirst. pose proof (processAll_consistent data) as C.
  destruct (run_first_seen data initialState key rf rest eq_refl Hfirst)
    as (c & Hc & Hp & Hn).
  exists c. split; [now apply contacts_of_key|].
  destruct (contact_entry C _ Hc) as (_ & Hnorm & _).
  repeat split; congruence.
Qed.

Lemma contact_keeps_first_seen_identity_witness :
  exists c,
    filter (fun c' => streq (contactIdOf c') (str "9607781405"))
      (contacts (processMessagesData Samples5.renamed)) = [c]
    /\ Contact.phone c = str "+960 7781405"
    /\ Contact.name c = str "Ali"
    /\ Contact.messageCount c = 2.
Proof.
  assert (Hfirst : exists rf rest,
             filter (mapsTo (str "9607781405"))
               (acceptedRecords Samples5.renamed) = rf :: rest
             /\ f_phone (snd rf) = str "+960 7781405"
             /\ f_contactName (snd rf) = str "Ali").
  { vm_compute. eexists. eexists. split; [reflexivity|]. split; reflexivity. }
  destruct Hfirst as (rf & rest & Hfirst & Hphone & Hname).
  destruct (contact_keeps_first_seen_identity
              Samples5.renamed (str "9607781405") rf rest Hfirst)
    as (c & Hfilter & Hp & Hn & _).
  exists c. split; [exact Hfilter|].
  rewrite Hp, Hn. split; [exact Hphone|]. split; [exact Hname|].
  assert (Hc : In c (filter (fun c' => streq (contactIdOf c') (str "9607781405"))
                       (contacts (processMessagesData Samples5.renamed))))
    by (rewrite Hfilter; now left).
  vm_compute in Hc. destruct Hc as [<-|[]]. reflexivity.
Defined.

Lemma StronglySorted_impl (A : Type) (R1 R2 : A -> A -> Prop) (l : list A) :
  (forall a b, R1 a b -> R2 a b) ->
  StronglySorted R1 l -> StronglySorted R2 l.
Proof.
  intros Himpl. induction 1 as [|a l Hs IH Hall]; constructor; auto.
  eapply Forall_impl; [|exact Hall]. auto.
Qed.

Lemma processAll_dated (data : list UnifiedRecord) :
  Forall (fun record => validDate (recordTime record)) data ->
  Dated (processAll data).
Proof.
  intros Hvalid. apply run_dated; auto using initialState_consistent.
  intros k c H. discriminate.
Qed.

(** X13. When every record's timestamp is a valid date, the returned
    contacts are in descending order of [lastMessageTime]: the newest
    conversation comes first. *)
Theorem contacts_are_newest_first (data : list UnifiedRecord) :
  Forall (fun record => validDate (recordTime record)) data ->
  StronglySorted newestFirst (contacts (processMessagesData data)).
Proof.
  intros Hvalid. pose proof (processAll_dated data Hvalid) as D.
  pose proof (processAll_consistent data) as C.
  simpl contacts.
  apply (StronglySorted_impl _
           (ascendingBy (fun c => (- timeOf (Contact.lastMessageTime c))%Z))).
  { unfold ascendingBy, newestFirst. intros a b. lia. }
  apply (sort_sorted _ _ _ (fun c => validDate (Contact.lastMessageTime c))).
  - intros a b [x Hx] [y Hy]. unfold byLastMessageTimeDesc, timeOf.
    rewrite Hx, Hy. simpl. f_equal. lia.
  - apply Forall_forall. intros c Hc.
    apply Map_values_In in Hc as (k & Hin).
    apply Map_In_get in Hin; [|exact (keys_nodup C)].
    exact (proj1 (D k c Hin)).
Qed.

Lemma contacts_are_newest_first_witness :
  StronglySorted newestFirst
    (contacts (processMessagesData
                 (Samples.twoSpellings ++ Samples.outOfOrder))).
Proof.
  apply contacts_are_newest_first.
  repeat constructor; eexists; reflexivity.
Defined.

(* ------------------------------------------------------------------ *)
(** *** Searchable terms *)

Lemma searchTermsOf_fields (record : UnifiedRecord) :
  searchTermsOf record = filter truthy (fieldsSearched record).
Proof.
  destruct record as [r|r]; simpl.
  - destruct (SMSRecord.party r) as [party|]; simpl;
      repeat match goal with
             | |- context [truthy ?s] => destruct (truthy s)
             end; reflexivity.
  - destruct (truthy (DataRecord.Party r)),
      (truthy (DataRecord.Description r)); reflexivity.
Qed.

Lemma run_terms (data : list UnifiedRecord) (st : State) (key : jsstring) :
  listAt key (searchableData (fold_left processRecord data st)) =
  listAt key (searchableData st)
  ++ termsOf (filter (mapsTo key) (acceptedFrom st data)).
Proof.
  revert st. induction data as [|r data IH]; intros st; simpl.
  - unfold termsOf. simpl. now rewrite app_nil_r.
  - rewrite IH, processRecord_accepted.
    destruct (accepted st r) as [f|]; simpl; [|reflexivity].
    unfold listAt at 1. rewrite Map_get_push.
    unfold mapsTo at 2, keyOf. simpl snd.
    destruct (streq (contactKeyOf (f_phone f)) key) eqn:E.
    + apply streq_true in E. subst key. rewrite streq_refl.
      unfold listAt, termsOf. simpl.
      rewrite searchTermsOf_fields. now rewrite <- !app_assoc.
    + assert (E' : streq key (contactKeyOf (f_phone f)) = false).
      { apply streq_false. apply streq_false in E. congruence. }
      rewrite E'. reflexivity.
Qed.

Lemma run_terms_keys (data : list UnifiedRecord) (st : State) :
  Map_keys (searchableData st) = Map_keys (messagesByContact st) ->
  Map_keys (searchableData (fold_left processRecord data st))
  = Map_keys (messagesByContact (fold_left processRecord data st)).
Proof.
  revert st. induction data as [|r data IH]; intros st Hkeys; simpl;
    [assumption|].
  apply IH. rewrite processRecord_accepted.
  destruct (accepted st r) as [f|]; [|assumption].
  simpl. rewrite !Map_keys_push, Hkeys.
  set (key := contactKeyOf (f_phone f)).
  assert (Hsame : Map_get key (searchableData st) = None
                  <-> Map_get key (messagesByContact st) = None)
    by (rewrite !Map_get_None_keys, Hkeys; reflexivity).
  destruct (Map_get key (searchableData st)) eqn:E1;
    destruct (Map_get key (messagesByContact st)) eqn:E2; try reflexivity.
  - destruct Hsame as [_ H]. specialize (H eq_refl). discriminate.
  - destruct Hsame as [H _]. specialize (H eq_refl). discriminate.
Qed.

(** X14. [searchableData] has the keys of the contact registry, in the
    same order, and under each key the terms of the accepted records that
    mapped to it, in input order: for a unified record its Party and its
    Description, for a legacy record the party's name and phone and the
    message, empty ones left out. *)
Theorem searchable_terms_follow_the_records (data : list UnifiedRecord) :
  let st := processAll data in
  let out := processMessagesData data in
  Map_keys (out_searchableData out) = Map_keys (contactsMap st)
  /\ forall key,
       listAt key (out_searchableData out)
       = flat_map (fun rf => filter truthy (fieldsSearched (fst rf)))
           (filter (mapsTo key) (acceptedRecords data)).
Proof.
  intros st out. split.
  - unfold out, st. simpl out_searchableData. unfold processAll.
    rewrite run_terms_keys by reflexivity.
    symmetry. exact (keys_agree (processAll_consistent data)).
  - intros key. unfold out. simpl out_searchableData.
    unfold processAll, acceptedRecords. now rewrite run_terms.
Qed.

Lemma searchable_terms_follow_the_records_witness :
  listAt (str "9601234567")
    (out_searchableData (processMessagesData Samples.amy))
  = [str "From: +9601234567 Amy"; str "hi";
     str "To: +9601234567 Amy"; str "hello"]
  /\ listAt (str "9601234567")
       (out_searchableData (processMessagesData Samples.twoSpellings))
     = [str "Amy"; str "+960 1234567"; str "one";
        str "1234567"; str "two";
        str "Amy"; str "+960 1234567"; str "three"].
Proof.
  split.
  - rewrite (proj2 (searchable_terms_follow_the_records Samples.amy)).
    vm_compute. reflexivity.
  - rewrite (proj2 (searchable_terms_follow_the_records Samples.twoSpellings)).
    vm_compute. reflexivity.
Defined.

(* ------------------------------------------------------------------ *)
(** *** Unified records are read *)

Lemma accepted_unified_is_read (st : State) (r : DataRecord.t) (f : Fields) :
  accepted st (Unified r) = Some f -> f_isRead f = true.
Proof.
  unfold accepted.
  destruct (extractFields st (Unified r)) as [f0|] eqn:E; [|discriminate].
  destruct (truthy (f_phone f0)); [|discriminate]. intros [= <-].
  simpl in E.
  repeat match type of E with
         | (if ?b then _ else _) = _ => destruct b; try discriminate
         | match ?x with _ => _ end = _ => destruct x; try discriminate
         end;
    now injection E as <-.
Qed.

Lemma acceptedFrom_records (data : list UnifiedRecord) (st : State)
  (rf : UnifiedRecord * Fields) :
  In rf (acceptedFrom st data) ->
  In (fst rf) data /\ exists st', accepted st' (fst rf) = Some (snd rf).
Proof.
  revert st. induction data as [|r data IH]; intros st; simpl; [contradiction|].
  intros Hin. apply in_app_or in Hin as [Hin|Hin].
  - destruct (accepted st r) as [f|] eqn:E; [|contradiction].
    destruct Hin as [<-|[]]. simpl. split; [now left | now exists st].
  - destruct (IH _ Hin) as [H1 H2]. split; [now right | assumption].
Qed.

Lemma run_all_read (data : list UnifiedRecord) (st : State) :
  allUnified data ->
  (forall key c, Map_get key (contactsMap st) = Some c ->
                 Contact.isRead c = true) ->
  forall key c,
    Map_get key (contactsMap (fold_left processRecord data st)) = Some c ->
    Contact.isRead c = true.
Proof.
  revert st. induction data as [|r data IH]; intros st Hall Hst; simpl;
    [assumption|].
  inversion Hall as [|? ? Hr Hrest]; subst.
  apply IH; [assumption|].
  intros key c. rewrite processRecord_accepted.
  destruct (accepted st r) as [f|] eqn:Hacc; [|apply Hst].
  destruct r as [r|r]; [discriminate|].
  pose proof (accepted_unified_is_read _ _ _ Hacc) as Hread.
  simpl contactsMap.
  destruct (list_eq_dec N.eq_dec key (contactKeyOf (f_phone f))) as [->|Hne].
  - unfold updateContact.
    destruct (Map_get _ (contactsMap st)) as [c0|] eqn:E0;
      rewrite Map_get_set_same; intros [= <-]; simpl; rewrite Hread.
    + rewrite andb_false_r. now apply (Hst _ _ E0).
    + now destruct (negb (f_isFromMe f)).
  - rewrite updateContact_get by assumption. apply Hst.
Qed.

(** X15. The unified format carries no read state and every record of it
    is taken as read: when all records are of the unified format, every
    returned contact has [isRead] true and every returned message has
    [isRead] true and status read. *)
Theorem unified_input_is_all_read (data : list UnifiedRecord) :
  allUnified data ->
  let out := processMessagesData data in
  (forall c, In c (contacts out) -> Contact.isRead c = true)
  /\ (forall key messages,
        Map_get key (out_messagesByContact out) = Some messages ->
        Forall (fun m => Message.isRead m = true /\ Message.status m = read)
          messages).
Proof.
  intros Hall out. split.
  - intros c Hc. apply contacts_In in Hc.
    apply (run_all_read data initialState Hall) with (key := contactIdOf c);
      [discriminate | exact Hc].
  - intros key messages Hget. unfold out in Hget.
    rewrite out_messages_get in Hget.
    destruct (Map_get key (messagesByContact (processAll data))) as [ms|] eqn:E;
      [|discriminate].
    injection Hget as <-.
    apply Forall_forall. intros m Hm. apply sort_In in Hm.
    pose proof (processAll_messages data key) as Hl.
    unfold listAt in Hl. rewrite E in Hl. rewrite Hl in Hm.
    apply in_map_iff in Hm as (rf & <- & Hrf).
    apply filter_In in Hrf as [Hrf _].
    destruct (acceptedFrom_records data initialState rf Hrf)
      as (Hdata & st' & Hacc).
    unfold allUnified in Hall. rewrite Forall_forall in Hall.
    specialize (Hall _ Hdata).
    destruct rf as [[r|r] f]; simpl in *; [discriminate|].
    pose proof (accepted_unified_is_read _ _ _ Hacc) as Hread.
    unfold messageOf. simpl fst. simpl snd. split.
    + unfold buildMessage. simpl. exact Hread.
    + change (Message.status (buildMessage (Unified r) f) = read).
      rewrite buildMessage_status. now rewrite Hread.
Qed.

Lemma unified_input_is_all_read_witness :
  exists c,
    contacts (processMessagesData Samples.amy) = [c]
    /\ Contact.isRead c = true.
Proof.
  assert (Hc : exists c, contacts (processMessagesData Samples.amy) = [c])
    by (vm_compute; eexists; reflexivity).
  destruct Hc as (c & Hc). exists c. split; [exact Hc|].
  apply (unified_input_is_all_read Samples.amy).
  - repeat constructor.
  - rewrite Hc. now left.
Defined.

(* ------------------------------------------------------------------ *)
(** *** Which message supplies the preview *)

Lemma processRecord_firstNewest (st : State) (record : UnifiedRecord) :
  Consistent st -> FirstNewest st -> validDate (recordTime record) ->
  FirstNewest (processRecord st record).
Proof.
  intros C D Hvalid. rewrite processRecord_accepted.
  destruct (accepted st record) as [f|] eqn:Hacc; [|assumption].
  rewrite <- (accepted_timestamp _ _ _ Hacc) in Hvalid.
  set (key := contactKeyOf (f_phone f)).
  intros k c. cbn [contactsMap messagesByContact]. intros Hget.
  unfold listAt. rewrite Map_get_push.
  destruct (streq k key) eqn:Ek.
  2:{ apply streq_false in Ek. rewrite updateContact_get in Hget by assumption.
      exact (D k c Hget). }
  apply streq_true in Ek. subst k.
  assert (Hm : validMessage (buildMessage record f)) by exact Hvalid.
  unfold updateContact in Hget.
  destruct (Map_get key (contactsMap st)) as [c0|] eqn:E0;
    rewrite Map_get_set_same in Hget; injection Hget as <-; simpl.
  - destruct (D key c0 E0)
      as (Hlast & earlier & m & later & Hsplit & Htime & Htext & Hbefore & Hafter).
    unfold listAt in Hsplit.
    destruct (Map_get key (messagesByContact st)) as [ms|];
      [|now destruct earlier].
    subst ms. rewrite date_gt_valid by assumption.
    assert (Hmt : messageTime m = timeOf (Contact.lastMessageTime c0))
      by (unfold messageTime; now rewrite Htime).
    destruct (Z.ltb_spec (timeOf (Contact.lastMessageTime c0))
                (timeOf (f_timestamp f))) as [Hnew|Hold].
    + split; [assumption|].
      exists (earlier ++ m :: later), (buildMessage record f), [].
      repeat split; [|constructor].
      assert (Hnow : messageTime (buildMessage record f) = timeOf (f_timestamp f))
        by reflexivity.
      rewrite Hnow. apply Forall_app. split; [|constructor].
      * eapply Forall_impl; [|exact Hbefore]. simpl. intros m' [? ?].
        split; [assumption | lia].
      * split; [|lia]. unfold validMessage. now rewrite Htime.
      * eapply Forall_impl; [|exact Hafter]. simpl. intros m' [? ?].
        split; [assumption | lia].
    + split; [assumption|].
      exists earlier, m, (later ++ [buildMessage record f]).
      split; [now rewrite <- app_assoc|].
      repeat split; try assumption.
      apply Forall_app. split; [assumption|].
      constructor; [|constructor]. split; [assumption|].
      unfold messageTime at 1. simpl. lia.
  - apply (keys_agree_get st key C) in E0. rewrite E0. simpl.
    split; [assumption|].
    exists [], (buildMessage record f), []. repeat split; constructor.
Qed.

Lemma run_firstNewest (data : list UnifiedRecord) (st : State) :
  Consistent st -> FirstNewest st ->
  Forall (fun record => validDate (recordTime record)) data ->
  FirstNewest (fold_left processRecord data st).
Proof.
  revert st. induction data as [|r data IH]; intros st C D Hall; simpl;
    [assumption|].
  inversion Hall; subst.
  apply IH; auto using processRecord_consistent, processRecord_firstNewest.
Qed.

(** X16. When every record's timestamp is a valid date, a contact's
    preview ([lastMessage], [lastMessageTime]) is taken from the first, in
    input order, of its messages with the greatest timestamp: every
    message of the contact before that one is strictly older and none
    after it is newer, so a later message of equal time does not replace
    the preview. *)
Theorem preview_is_first_of_the_newest (data : list UnifiedRecord) :
  Forall (fun record => validDate (recordTime record)) data ->
  forall c,
    In c (contacts (processMessagesData data)) ->
    exists earlier m later,
      map messageOf (filter (mapsTo (contactIdOf c)) (acceptedRecords data))
      = earlier ++ m :: later
      /\ Contact.lastMessage c = Message.text m
      /\ Contact.lastMessageTime c = Message.timestamp m
      /\ Forall (fun m' => (messageTime m' < messageTime m)%Z) earlier
      /\ Forall (fun m' => (messageTime m' <= messageTime m)%Z) later.
Proof.
  intros Hvalid c Hc. apply contacts_In in Hc.
  assert (D : FirstNewest (processAll data)).
  { apply run_firstNewest; auto using initialState_consistent.
    intros k c0 H. discriminate. }
  destruct (D _ _ Hc)
    as (_ & earlier & m & later & Hsplit & Htime & Htext & Hbefore & Hafter).
  rewrite processAll_messages in Hsplit.
  exists earlier, m, later. repeat split; auto.
  - eapply Forall_impl; [|exact Hbefore]. now intros m' [_ ?].
  - eapply Forall_impl; [|exact Hafter]. now intros m' [_ ?].
Qed.

Lemma preview_is_first_of_the_newest_witness :
  exists c,
    contacts (processMessagesData Samples5.sameTime) = [c]
    /\ Contact.lastMessage c = str "first"
    /\ exists earlier m later,
         map messageOf (filter (mapsTo (contactIdOf c))
                          (acceptedRecords Samples5.sameTime))
         = earlier ++ m :: later
         /\ Contact.lastMessage c = Message.text m
         /\ Contact.lastMessageTime c = Message.timestamp m
         /\ Forall (fun m' => (messageTime m' < messageTime m)%Z) earlier
         /\ Forall (fun m' => (messageTime m' <= messageTime m)%Z) later.
Proof.
  assert (Hc : exists c,
             contacts (processMessagesData Samples5.sameTime) = [c]
             /\ Contact.lastMessage c = str "first")
    by (vm_compute; eexists; split; reflexivity).
  destruct Hc as (c & Hc & Hlast).
  exists c. split; [exact Hc|]. split; [exact Hlast|].
  apply (preview_is_first_of_the_newest Samples5.sameTime).
  - repeat constructor; eexists; reflexivity.
  - rewrite Hc. now left.
Defined.

(* ================================================================== *)
(** ** What [extractPhoneFromParty] returns *)
(* ================================================================== *)

Section RegexSound.
Variable R : Type.
Variable k : jsstring -> option R.

Lemma consumed0_sound (t m : jsstring) (r : R) :
  consumed0 k t = Some (m, r) -> m = [] /\ k t = Some r.
Proof.
  unfold consumed0. destruct (k t); [|discriminate].
  now intros [= <- <-].
Qed.

Lemma re_star_sound (p : char -> bool) (t m : jsstring) (r : R) :
  re_star k p t = Some (m, r) ->
  forallb p m = true /\ exists t', t = m ++ t' /\ k t' = Some r.
Proof.
  revert m r. induction t as [|c t IH]; intros m r; simpl.
  - intros H. apply consumed0_sound in H as [-> H]. split; [reflexivity|].
    now exists [].
  - assert (H0 : consumed0 k (c :: t) = Some (m, r) ->
                 forallb p m = true
                 /\ exists t', c :: t = m ++ t' /\ k t' = Some r).
    { intros H. apply consumed0_sound in H as [-> H]. split; [reflexivity|].
      now exists (c :: t). }
    destruct (p c) eqn:Hc; [|exact H0].
    destruct (re_star k p t) as [[m' r']|]; simpl; [|exact H0].
    intros [= <- <-]. destruct (IH _ _ eq_refl) as (Hm & t' & -> & Hk).
    split; [simpl; now rewrite Hc|]. now exists t'.
Qed.

Lemma re_plus_sound (p : char -> bool) (t m : jsstring) (r : R) :
  re_plus k p t = Some (m, r) ->
  m <> [] /\ forallb p m = true /\ exists t', t = m ++ t' /\ k t' = Some r.
Proof.
  unfold re_plus. destruct t as [|c t]; [discriminate|].
  destruct (p c) eqn:Hc; [|discriminate].
  destruct (re_star k p t) as [[m' r']|] eqn:E; simpl; [|discriminate].
  intros [= <- <-]. apply re_star_sound in E as (Hm & t' & -> & Hk).
  split; [discriminate|]. split; [simpl; now rewrite Hc|]. now exists t'.
Qed.

Lemma re_upto_sound (n : nat) (p : char -> bool) (t m : jsstring) (r : R) :
  re_upto k n p t = Some (m, r) ->
  forallb p m = true /\ length m <= n
  /\ exists t', t = m ++ t' /\ k t' = Some r.
Proof.
  revert t m r. induction n as [|n IH]; intros t m r.
  - destruct t; simpl; intros H; apply consumed0_sound in H as [-> H];
      (split; [reflexivity|]); (split; [simpl; lia|]);
      eexists; (split; [reflexivity | exact H]).
  - destruct t as [|c t]; simpl.
    + intros H. apply consumed0_sound in H as [-> H].
      split; [reflexivity|]. split; [simpl; lia|]. now exists [].
    + assert (H0 : consumed0 k (c :: t) = Some (m, r) ->
                   forallb p m = true /\ length m <= S n
                   /\ exists t', c :: t = m ++ t' /\ k t' = Some r).
      { intros H. apply consumed0_sound in H as [-> H].
        split; [reflexivity|]. split; [simpl; lia|]. now exists (c :: t). }
      destruct (p c) eqn:Hc; [|exact H0].
      destruct (re_upto k n p t) as [[m' r']|] eqn:E; simpl; [|exact H0].
      intros [= <- <-]. apply IH in E as (Hm & Hlen & t' & -> & Hk).
      split; [simpl; now rewrite Hc|]. split; [simpl; lia|]. now exists t'.
Qed.

Lemma re_opt_sound (c : char) (t m : jsstring) (r : R) :
  re_opt k c t = Some (m, r) ->
  (m = [] \/ m = [c]) /\ exists t', t = m ++ t' /\ k t' = Some r.
Proof.
  unfold re_opt.
  assert (H0 : consumed0 k t = Some (m, r) ->
               (m = [] \/ m = [c]) /\ exists t', t = m ++ t' /\ k t' = Some r).
  { intros H. apply consumed0_sound in H as [-> H]. split; [now left|].
    now exists t. }
  destruct t as [|c' t]; [exact H0|].
  destruct (N.eqb_spec c' c) as [->|_]; [|exact H0].
  destruct (k t) as [r'|] eqn:E; [|exact H0].
  intros [= <- <-]. split; [now right|]. now exists t.
Qed.
End RegexSound.

Lemma re_times_sound (R : Type) (n : nat) (p : char -> bool)
  (rest : jsstring -> option (jsstring * R)) (t m : jsstring) (r : R) :
  re_times n p rest t = Some (m, r) ->
  exists m1 m2 t',
    m = m1 ++ m2 /\ length m1 = n /\ forallb p m1 = true
    /\ t = m1 ++ t' /\ rest t' = Some (m2, r).
Proof.
  revert t m r. induction n as [|n IH]; intros t m r; simpl.
  - intros H. now exists [], m, t.
  - destruct t as [|c t]; [discriminate|].
    destruct (p c) eqn:Hc; [|discriminate].
    destruct (re_times n p rest t) as [[m' r']|] eqn:E; simpl; [|discriminate].
    intros [= <- <-].
    apply IH in E as (m1 & m2 & t' & -> & Hlen & Hm & -> & Hrest).
    exists (c :: m1), m2, t'. simpl. rewrite Hc, Hlen. auto.
Qed.

Lemma re_search_sound (R : Type) (m : jsstring -> option R) (t : jsstring)
  (r : R) :
  re_search m t = Some r -> exists skipped t', t = skipped ++ t' /\ m t' = Some r.
Proof.
  induction t as [|c t IH]; simpl.
  - destruct (m []) eqn:E; [|discriminate]. intros [= <-]. now exists [], [].
  - destruct (m (c :: t)) eqn:E.
    + intros [= <-]. now exists [], (c :: t).
    + intros H. destruct (IH H) as (s & t' & -> & Hm).
      now exists (c :: s), t'.
Qed.

Lemma re_eos_sound (t : jsstring) (u : unit) : re_eos t = Some u -> t = [].
Proof. now destruct t. Qed.

(** [/^(\+?\d+)\s+(.+)$/] splits its subject into a number, blanks and a
    rest that is not empty. *)
Lemma matchPhoneName_sound (s g1 g2 : jsstring) :
  matchPhoneName s = Some (g1, g2) ->
  exists sign digits blanks,
    g1 = sign ++ digits /\ (sign = [] \/ sign = str "+")
    /\ digits <> [] /\ forallb isDigit digits = true
    /\ g2 <> [] /\ s = g1 ++ blanks ++ g2.
Proof.
  unfold matchPhoneName.
  destruct (re_opt _ _ s) as [[sign [digits [blanks [g u]]]]|] eqn:E;
    [|discriminate].
  intros [= <- <-].
  apply re_opt_sound in E as (Hsign & t1 & -> & E).
  apply re_plus_sound in E as (Hne & Hdigits & t2 & -> & E).
  apply re_plus_sound in E as (_ & _ & t3 & -> & E).
  apply re_plus_sound in E as (Hg & _ & t4 & -> & E).
  apply re_eos_sound in E. subst t4.
  exists sign, digits, blanks. rewrite app_nil_r, <- !app_assoc. auto 10.
Qed.

Lemma matchPhoneOnly_sound (s : jsstring) :
  matchPhoneOnly s = true ->
  exists sign digits,
    s = sign ++ digits /\ (sign = [] \/ sign = str "+")
    /\ digits <> [] /\ forallb isDigit digits = true.
Proof.
  unfold matchPhoneOnly.
  destruct (re_opt _ _ s) as [[sign [digits u]]|] eqn:E; [|discriminate].
  intros _.
  apply re_opt_sound in E as (Hsign & t1 & -> & E).
  apply re_plus_sound in E as (Hne & Hdigits & t2 & -> & E).
  apply re_eos_sound in E. subst t2.
  exists sign, digits. rewrite app_nil_r. auto.
Qed.

Lemma matchEmbeddedPhone_sound (s phone : jsstring) :
  matchEmbeddedPhone s = Some phone ->
  exists sign digits before after,
    phone = sign ++ digits /\ (sign = [] \/ sign = str "+")
    /\ 7 <= length digits <= 15 /\ forallb isDigit digits = true
    /\ s = before ++ phone ++ after.
Proof.
  unfold matchEmbeddedPhone. intros H.
  apply re_search_sound in H as (before & t & -> & H).
  destruct (re_opt _ _ t) as [[sign [digits u]]|] eqn:E; [|discriminate].
  injection H as <-.
  apply re_opt_sound in E as (Hsign & t1 & -> & E).
  apply re_times_sound in E as (m1 & m2 & t2 & -> & Hlen & Hm1 & -> & E).
  apply re_upto_sound in E as (Hm2 & Hlen2 & t3 & -> & _).
  exists sign, (m1 ++ m2), before, t3.
  rewrite forallb_app, Hm1, Hm2, length_app, <- !app_assoc.
  repeat split; auto; lia.
Qed.

Lemma dropWhile_fixed (p : char -> bool) (s : jsstring) :
  forallb p (dropWhile p s) = true -> forallb p s = true.
Proof.
  induction s as [|c s IH]; simpl; [reflexivity|].
  destruct (p c) eqn:Hc; [exact IH|].
  simpl. now rewrite Hc.
Qed.

Lemma dropWhile_head (p : char -> bool) (s : jsstring) :
  match dropWhile p s with
  | [] => True
  | c :: _ => p c = false
  end.
Proof.
  induction s as [|c s IH]; simpl; [exact I|].
  destruct (p c) eqn:Hc; [exact IH | exact Hc].
Qed.

(** A trimmed string does not end in a blank. *)
Lemma trim_last_nonblank (s a : jsstring) (c : char) :
  trim s = a ++ [c] -> isWhiteSpace c = false.
Proof.
  unfold trim, trimEnd. intros H.
  pose proof (dropWhile_head isWhiteSpace (rev (trimStart s))) as Hhead.
  destruct (dropWhile isWhiteSpace (rev (trimStart s))) as [|c' x];
    [now destruct a|].
  simpl in H. apply app_inj_tail in H as [_ <-]. exact Hhead.
Qed.

(** Only a blank string trims to the empty string. *)
Lemma trim_nil_blank (s : jsstring) :
  trim s = [] -> forallb isWhiteSpace s = true.
Proof.
  unfold trim, trimEnd, trimStart. intros H.
  apply dropWhile_fixed.
  rewrite <- forallb_rev. apply dropWhile_fixed.
  apply (f_equal (@rev N)) in H. rewrite rev_involutive in H.
  now rewrite H.
Qed.

Lemma normalizePhoneNumber_nonempty (p : jsstring) :
  filter isDigit p <> [] -> normalizePhoneNumber p <> [].
Proof.
  unfold normalizePhoneNumber.
  destruct (filter isDigit p) as [|d c] eqn:E; [congruence|]. intros _.
  destruct (truthy p) eqn:Ht; [|destruct p; discriminate].
  simpl negb. cbv iota.
  repeat match goal with
         | |- context [if ?b then _ else _] => destruct b
         end; try discriminate; destruct c; discriminate.
Qed.

Lemma number_has_digit (sign digits : jsstring) :
  digits <> [] -> forallb isDigit digits = true ->
  filter isDigit (sign ++ digits) <> [].
Proof.
  intros Hne Hd. rewrite filter_app.
  rewrite (filter_fixed _ _ Hd).
  destruct digits; [congruence|]. now destruct (filter isDigit sign).
Qed.

(** X17. What [extractPhoneFromParty] returns, when it returns a value:
    the phone is an optional plus sign followed by at least one digit and
    nothing else, and the name is never empty.  So the ContactKey of such a
    phone is always its normalisation, a non-empty string of digits. *)
Theorem extractPhoneFromParty_shape (party phone name : jsstring) :
  extractPhoneFromParty party = Some (phone, name) ->
  (exists sign digits,
      phone = sign ++ digits /\ (sign = [] \/ sign = str "+")
      /\ digits <> [] /\ forallb isDigit digits = true)
  /\ name <> []
  /\ contactKeyOf phone = normalizePhoneNumber phone
  /\ normalizePhoneNumber phone <> [].
Proof.
  intros H.
  assert (Hshape : (exists sign digits,
      phone = sign ++ digits /\ (sign = [] \/ sign = str "+")
      /\ digits <> [] /\ forallb isDigit digits = true) /\ name <> []).
  { unfold extractPhoneFromParty in H.
    destruct (negb (truthy party)); [discriminate|].
    destruct (matchPartyPrefix party) as [m1|]; [|discriminate].
    destruct (matchPhoneName (trim m1)) as [[g1 g2]|] eqn:E1.
    - injection H as <- <-.
      apply matchPhoneName_sound in E1
        as (sign & digits & blanks & -> & Hsign & Hne & Hd & Hg2 & Hsplit).
      split; [now exists sign, digits|].
      intros Hblank. apply trim_nil_blank in Hblank.
      destruct (exists_last Hg2) as (g & c & ->).
      rewrite !app_assoc in Hsplit. apply trim_last_nonblank in Hsplit.
      rewrite forallb_app in Hblank. simpl in Hblank.
      rewrite Hsplit, andb_false_r in Hblank. discriminate.
    - destruct (matchPhoneOnly (trim m1)) eqn:E2.
      + injection H as <- <-. split; [|discriminate].
        now apply matchPhoneOnly_sound.
      + destruct (matchEmbeddedPhone (trim m1)) as [p|] eqn:E3; [|discriminate].
        injection H as <- <-.
        apply matchEmbeddedPhone_sound in E3
          as (sign & digits & _ & _ & -> & Hsign & Hlen & Hd & _).
        split.
        * exists sign, digits. repeat split; auto.
          intros ->. simpl in Hlen. lia.
        * unfold orElse. destruct (trim (removeFirst _ _)); simpl; intros Hnil.
          -- vm_compute in Hnil. discriminate Hnil.
          -- discriminate Hnil. }
  split; [exact (proj1 Hshape)|]. split; [exact (proj2 Hshape)|].
  destruct Hshape as [(sign & digits & -> & _ & Hne & Hd) _].
  pose proof (normalizePhoneNumber_nonempty _ (number_has_digit sign _ Hne Hd))
    as Hnorm.
  split; [|exact Hnorm].
  unfold contactKeyOf, orElse.
  now destruct (normalizePhoneNumber (sign ++ digits)).
Qed.

Lemma extractPhoneFromParty_shape_witness :
  extractPhoneFromParty (str "From: +9607791073 Oyittey")
  = Some (str "+9607791073", str "Oyittey")
  /\ contactKeyOf (str "+9607791073") = normalizePhoneNumber (str "+9607791073").
Proof.
  split; [reflexivity|].
  exact (proj1 (proj2 (proj2
    (extractPhoneFromParty_shape (str "From: +9607791073 Oyittey")
       (str "+9607791073") (str "Oyittey") eq_refl)))).
Defined.

(* ================================================================== *)
(** ** Avatar colours *)
(* ================================================================== *)

Lemma toInt32_range (z : Z) : (- 2 ^ 31 <= toInt32 z < 2 ^ 31)%Z.
Proof.
  unfold toInt32.
  pose proof (Z.mod_pos_bound (z + 2 ^ 31) (2 ^ 32) eq_refl). lia.
Qed.

Lemma toInt32_wraps (z : Z) : exists q, toInt32 z = (z + 2 ^ 32 * q)%Z.
Proof.
  unfold toInt32. exists (- ((z + 2 ^ 31) / 2 ^ 32))%Z.
  rewrite Z.mod_eq by discriminate. lia.
Qed.

Lemma toInt32_periodic (z q : Z) : toInt32 (z + 2 ^ 32 * q) = toInt32 z.
Proof.
  unfold toInt32. f_equal.
  replace (z + 2 ^ 32 * q + 2 ^ 31)%Z with (z + 2 ^ 31 + q * 2 ^ 32)%Z by lia.
  apply Z.mod_add. discriminate.
Qed.

Lemma toInt32_small (z : Z) : (- 2 ^ 31 <= z < 2 ^ 31)%Z -> toInt32 z = z.
Proof.
  intros H. unfold toInt32. rewrite Z.mod_small; lia.
Qed.

Lemma hashRound_wraps (a : Z) (c : N) :
  hashRound (toInt32 a) c = toInt32 (31 * a + Z.of_N c).
Proof.
  unfold hashRound. rewrite Z.land_diag.
  rewrite (toInt32_small (toInt32 a)) by apply toInt32_range.
  rewrite Z.shiftl_mul_pow2 by discriminate.
  destruct (toInt32_wraps (toInt32 a * 2 ^ 5)) as [q1 ->].
  destruct (toInt32_wraps a) as [q2 ->].
  replace ((a + 2 ^ 32 * q2) * 2 ^ 5 + 2 ^ 32 * q1 - (a + 2 ^ 32 * q2)
           + Z.of_N c)%Z
    with (31 * a + Z.of_N c + 2 ^ 32 * (q1 + 31 * q2))%Z by lia.
  apply toInt32_periodic.
Qed.

Lemma hash_loop_wraps (s : jsstring) (a : Z) :
  fold_left hashRound s (toInt32 a)
  = toInt32 (fold_left (fun h c => (31 * h + Z.of_N c)%Z) s a).
Proof.
  revert a. induction s as [|c s IH]; intros a; simpl; [reflexivity|].
  now rewrite hashRound_wraps, IH.
Qed.

Lemma hashString_range (s : jsstring) : (0 <= hashString s <= 2 ^ 31)%Z.
Proof.
  unfold hashString.
  pose proof (hash_loop_wraps s 0) as Hloop.
  change (toInt32 0) with 0%Z in Hloop. rewrite Hloop.
  pose proof (toInt32_range (fold_left (fun h c => (31 * h + Z.of_N c)%Z) s 0%Z)).
  lia.
Qed.

(** X18. [hashString] is the value of the string as a numeral in base 31
    (code units as digits, first one most significant), wrapped once to a
    signed 32-bit integer, in absolute value: wrapping after every round
    gives the same as wrapping at the end.  The result lies between 0 and
    2^31 inclusive. *)
Theorem hashString_is_wrapped_base31 (s : jsstring) :
  hashString s = Z.abs (toInt32 (base31 s))
  /\ (0 <= hashString s <= 2 ^ 31)%Z.
Proof.
  split; [|apply hashString_range].
  unfold hashString, base31.
  pose proof (hash_loop_wraps s 0) as Hloop.
  change (toInt32 0) with 0%Z in Hloop. now rewrite Hloop.
Qed.

(** X19. [getContactColor] never returns [undefined]: for every contact
    id, the empty string included, the index computed from the hash lies
    inside [COLOR_COMBINATIONS], and the result is one of its sixteen
    entries. *)
Theorem getContactColor_is_defined (contactId : jsstring) :
  exists colour,
    getContactColor contactId = Some colour
    /\ In colour COLOR_COMBINATIONS.
Proof.
  unfold getContactColor.
  set (i := Z.to_nat (hashString contactId mod Z.of_nat (length COLOR_COMBINATIONS))).
  assert (Hi : i < length COLOR_COMBINATIONS).
  { unfold i.
    pose proof (Z.mod_pos_bound (hashString contactId)
                  (Z.of_nat (length COLOR_COMBINATIONS)) eq_refl). lia. }
  destruct (nth_error COLOR_COMBINATIONS i) as [colour|] eqn:E.
  - exists colour. split; [reflexivity|]. now apply nth_error_In with i.
  - apply nth_error_None in E. lia.
Qed.

(* ================================================================== *)
(** ** The name shown for a contact *)
(* ================================================================== *)

(** X20. Every contact that [processMessagesData] returns is shown under a
    non-empty name: [getContactDisplayName] gives the contact's phone
    string, which is never empty, unless it gives the contact's name, and
    then the name is neither blank nor the placeholder Unknown. *)
Theorem display_name_is_never_empty (data : list UnifiedRecord)
  (c : Contact.t) :
  In c (contacts (processMessagesData data)) ->
  getContactDisplayName c <> []
  /\ (getContactDisplayName c = Contact.phone c
      \/ getContactDisplayName c = Contact.name c
         /\ trim (Contact.name c) <> []
         /\ Contact.name c <> str "Unknown").
Proof.
  intros Hc. apply contacts_In in Hc.
  destruct (contact_entry (processAll_consistent data) _ Hc)
    as (_ & _ & Hphone & _).
  unfold getContactDisplayName.
  destruct (truthy (Contact.name c)) eqn:Hn; simpl.
  2:{ split; [now destruct (Contact.phone c) | now left]. }
  destruct (streq (Contact.name c) (str "Unknown")) eqn:Hu; simpl.
  { split; [now destruct (Contact.phone c) | now left]. }
  destruct (streq (trim (Contact.name c)) []) eqn:Hb; simpl.
  { split; [now destruct (Contact.phone c) | now left]. }
  split; [now destruct (Contact.name c)|]. right.
  apply streq_false in Hu, Hb. auto.
Qed.

Lemma display_name_is_never_empty_witness :
  exists c,
    contacts (processMessagesData Samples5.renamed) = [c]
    /\ getContactDisplayName c = str "Ali".
Proof.
  assert (Hc : exists c,
             contacts (processMessagesData Samples5.renamed) = [c]
             /\ getContactDisplayName c = str "Ali")
    by (vm_compute; eexists; split; reflexivity).
  destruct Hc as (c & Hc & Hname). exists c. split; [exact Hc|].
  destruct (display_name_is_never_empty Samples5.renamed c) as [Hne _].
  - rewrite Hc. now left.
  - exact Hname.
Defined.

(* ================================================================== *)
(** ** Year dividers of a thread *)
(* ================================================================== *)

Lemma last_cons (A : Type) (x : A) (l : list A) (d : A) :
  last (x :: l) d = last l x.
Proof.
  revert x d. induction l as [|y l IH]; intros x d; [reflexivity|].
  change (last (y :: l) d = last (y :: l) x). now rewrite !IH.
Qed.

Section MessageThreadFacts.
Variable getFullYear : Date -> number.
Variable currentCalendarYear : number.

Local Abbreviation pushItems' := (pushItems getFullYear currentCalendarYear).
Local Abbreviation forEachFrom' := (forEachFrom getFullYear currentCalendarYear).
Local Abbreviation rowsOf' := (rowsOf getFullYear currentCalendarYear).
Local Abbreviation rows' := (rows getFullYear currentCalendarYear).

Lemma pushItems_rows (done rest : list Message.t) (items : list Item)
  (message : Message.t) :
  map item_data (pushItems' (done ++ message :: rest) items message (length done))
  = map item_data items ++ rowsOf' (last (map Some done) None) message.
Proof.
  unfold pushItems, rowsOf, dividerBefore.
  destruct done as [|d done'] using rev_ind.
  - cbn. destruct (strictNe _ currentCalendarYear);
      rewrite !map_app, <- ?app_assoc; reflexivity.
  - clear IHdone'. rewrite length_app, (map_app Some).
    change (map Some [d]) with [Some d]. rewrite last_last. simpl length.
    replace (length done' + 1 - 1) with (length done') by lia.
    replace (0 <? length done' + 1)%nat with true
      by (symmetry; apply Nat.ltb_lt; lia).
    replace (length done' + 1 =? 0)%nat with false
      by (symmetry; apply Nat.eqb_neq; lia).
    rewrite <- !app_assoc. rewrite nth_error_app2 by lia.
    rewrite Nat.sub_diag. cbn. rewrite orb_false_r.
    destruct (strictNe _ _); rewrite !map_app, <- ?app_assoc; reflexivity.
Qed.

Lemma forEachFrom_rows (rest done : list Message.t) (items : list Item) :
  map item_data (forEachFrom' (done ++ rest) (length done) rest items)
  = map item_data items ++ rows' (last (map Some done) None) rest.
Proof.
  revert done items. induction rest as [|m rest IH]; intros done items; simpl.
  - now rewrite app_nil_r.
  - replace (done ++ m :: rest) with ((done ++ [m]) ++ rest) at 1
      by now rewrite <- app_assoc.
    replace (S (length done)) with (length (done ++ [m]))
      by (rewrite length_app; simpl; lia).
    rewrite IH, pushItems_rows, (map_app Some).
    change (map Some [m]) with [Some m].
    now rewrite last_last, <- app_assoc.
Qed.

Lemma pushItems_indexed (messages : list Message.t) (items : list Item)
  (message : Message.t) (index : nat) :
  map item_index items = seq 0 (length items) ->
  map item_index (pushItems' messages items message index)
  = seq 0 (length (pushItems' messages items message index)).
Proof.
  assert (Hpush : forall l d,
             map item_index l = seq 0 (length l) ->
             map item_index (l ++ [mkItem d (length l)])
             = seq 0 (length (l ++ [mkItem d (length l)]))).
  { intros l d Hl. rewrite map_app, length_app, Hl. simpl.
    now rewrite Nat.add_1_r, seq_S. }
  intros H. unfold pushItems.
  destruct (_ || _); auto.
Qed.

Lemma forEachFrom_indexed (messages rest : list Message.t) (index : nat)
  (items : list Item) :
  map item_index items = seq 0 (length items) ->
  map item_index (forEachFrom' messages index rest items)
  = seq 0 (length (forEachFrom' messages index rest items)).
Proof.
  revert index items. induction rest as [|m rest IH]; intros index items H;
    simpl; [assumption|].
  apply IH. now apply pushItems_indexed.
Qed.

Lemma rows_framed (messages : list Message.t) (previous : option Message.t) :
  Framed getFullYear (rows' previous messages).
Proof.
  revert previous. induction messages as [|m rest IH]; intros previous; simpl.
  - constructor.
  - unfold rowsOf. destruct (dividerBefore _ _ _ _); simpl.
    + apply Framed_divider, IH.
    + apply Framed_message, IH.
Qed.

Lemma rows_messages (messages : list Message.t)
  (previous : option Message.t) (items : list Item) :
  map item_data items = rows' previous messages ->
  messagesOf items = messages.
Proof.
  unfold messagesOf.
  assert (H : forall l : list Item,
             flat_map (fun item => match item_data item with
                                   | MessageData m => [m]
                                   | DividerData _ => []
                                   end) l
             = flat_map (fun d => match d with
                                  | MessageData m => [m]
                                  | DividerData _ => []
                                  end) (map item_data l)).
  { induction l as [|x l IHl]; simpl; [reflexivity | now rewrite IHl]. }
  rewrite H. intros ->. clear H items.
  revert previous. induction messages as [|m rest IH]; intros previous;
    simpl; [reflexivity|].
  unfold rowsOf. rewrite flat_map_app, IH.
  now destruct (dividerBefore _ _ _ _).
Qed.

Lemma rows_length (messages : list Message.t) (previous : option Message.t) :
  length messages <= length (rows' previous messages) <= 2 * length messages.
Proof.
  revert previous. induction messages as [|m rest IH]; intros previous; simpl;
    [lia|].
  unfold rowsOf. specialize (IH (Some m)).
  rewrite length_app. destruct (dividerBefore _ _ _ _); simpl; lia.
Qed.

Lemma rows_app (l1 l2 : list Message.t) (previous : option Message.t) :
  rows' previous (l1 ++ l2)
  = rows' previous l1 ++ rows' (last (map Some l1) previous) l2.
Proof.
  revert previous. induction l1 as [|m l1 IH]; intros previous;
    [reflexivity|].
  change (map Some (m :: l1)) with (Some m :: map Some l1).
  rewrite last_cons. cbn [rows app]. now rewrite IH, <- app_assoc.
Qed.

Lemma itemsWithDividers_rows (messages : list Message.t) :
  map item_data (itemsWithDividers getFullYear currentCalendarYear messages)
  = rows' None messages.
Proof.
  unfold itemsWithDividers. exact (forEachFrom_rows messages [] []).
Qed.
End MessageThreadFacts.

(** X21. The rows of a thread are its messages, all of them and in their
    order, with dividers in between: every divider is directly followed by
    a message, whose year it shows, so that no thread ends in a divider and
    no two dividers are adjacent; there are at most as many dividers as
    messages; and every item's [index] is its position in the list. *)
Theorem thread_rows_frame_the_messages (getFullYear : Date -> number)
  (currentCalendarYear : number) (messages : list Message.t) :
  let items := itemsWithDividers getFullYear currentCalendarYear messages in
  messagesOf items = messages
  /\ Framed getFullYear (map item_data items)
  /\ map item_index items = seq 0 (length items)
  /\ length messages <= length items <= 2 * length messages.
Proof.
  intros items.
  pose proof (itemsWithDividers_rows getFullYear currentCalendarYear messages)
    as Hrows.
  fold items in Hrows. split; [|split; [|split]].
  - exact (rows_messages _ _ _ _ _ Hrows).
  - rewrite Hrows. apply rows_framed.
  - unfold items, itemsWithDividers. now apply forEachFrom_indexed.
  - rewrite <- (length_map item_data), Hrows. apply rows_length.
Qed.

(** X22. Where the dividers are: between two consecutive messages there
    is a divider exactly when their years differ under [!==], and then it
    shows the year of the later one; two messages with invalid dates are
    always separated, NaN being different from itself.  Before the first
    message there is one exactly when its year differs from the current
    calendar year. *)
Theorem dividers_mark_year_changes (getFullYear : Date -> number)
  (currentCalendarYear : number) (messages : list Message.t) :
  let year m := getMessageYear getFullYear (Message.timestamp m) in
  let items := map item_data
                 (itemsWithDividers getFullYear currentCalendarYear messages) in
  (forall first rest,
      messages = first :: rest ->
      exists after,
        items = (if strictNe (year first) currentCalendarYear
                 then [DividerData (year first)] else [])
                ++ MessageData first :: after)
  /\ (forall before a b rest,
        messages = before ++ a :: b :: rest ->
        exists above below,
          items = above ++ MessageData a
                    :: (if strictNe (year b) (year a)
                        then [DividerData (year b)] else [])
                    ++ MessageData b :: below).
Proof.
  intros year items. unfold items. rewrite itemsWithDividers_rows. split.
  - intros first rest ->. simpl. unfold rowsOf, dividerBefore.
    exists (rows getFullYear currentCalendarYear (Some first) rest).
    now rewrite <- app_assoc.
  - intros before a b rest ->.
    replace (before ++ a :: b :: rest) with ((before ++ [a]) ++ b :: rest)
      by now rewrite <- app_assoc.
    rewrite rows_app, (map_app Some).
    change (map Some [a]) with [Some a]. rewrite last_last.
    rewrite rows_app. simpl rows at 2. rewrite app_nil_r.
    unfold rowsOf at 1.
    exists (rows getFullYear currentCalendarYear None before
            ++ (if dividerBefore getFullYear currentCalendarYear
                     (last (map Some before) None) a
                then [DividerData (year a)] else [])),
      (rows getFullYear currentCalendarYear (Some b) rest).
    simpl rows. unfold rowsOf at 1, dividerBefore at 2.
    rewrite <- !app_assoc. reflexivity.
Qed.

Lemma dividers_mark_year_changes_witness :
  exists above below,
    map item_data
      (itemsWithDividers Samples5.approximateYear (Num 2026)
         [Samples5.inJune2019; Samples5.inMay2020])
    = above ++ MessageData Samples5.inJune2019
        :: [DividerData (Num 2020)]
        ++ MessageData Samples5.inMay2020 :: below.
Proof.
  destruct (proj2 (dividers_mark_year_changes Samples5.approximateYear
                     (Num 2026) [Samples5.inJune2019; Samples5.inMay2020])
              [] Samples5.inJune2019 Samples5.inMay2020 [] eq_refl)
    as (above & below & H).
  exists above, below. exact H.
Defined.

(* ================================================================== *)
(** ** The hook around the worker *)
(* ================================================================== *)

Lemma resolvers_has_In (id : Z) (resolvers : list Z) :
  resolvers_has id resolvers = true <-> In id resolvers.
Proof.
  unfold resolvers_has. rewrite existsb_exists. split.
  - intros (x & Hx & E). apply Z.eqb_eq in E. now subst.
  - intros H. exists id. split; [assumption | apply Z.eqb_refl].
Qed.

Lemma filter_keeps_all (A : Type) (p : A -> bool) (l : list A) :
  (forall x, In x l -> p x = true) -> filter p l = l.
Proof.
  induction l as [|x l IH]; simpl; intros H; [reflexivity|].
  rewrite (H x (or_introl eq_refl)), IH; auto.
Qed.

Lemma resolvers_delete_perm (id : Z) (resolvers : list Z) :
  NoDup resolvers -> In id resolvers ->
  Permutation resolvers (id :: resolvers_delete id resolvers).
Proof.
  unfold resolvers_delete. induction 1 as [|x l Hx Hnd IH]; [contradiction|].
  intros [->|Hin]; simpl.
  - rewrite Z.eqb_refl. simpl. apply perm_skip.
    rewrite filter_keeps_all; [reflexivity|]. intros y Hy.
    destruct (Z.eqb_spec id y) as [->|]; [contradiction | reflexivity].
  - destruct (Z.eqb_spec id x) as [->|Hne]; [contradiction|]. simpl.
    rewrite perm_swap. apply perm_skip. now apply IH.
Qed.

Lemma resolvers_delete_subset (id x : Z) (resolvers : list Z) :
  In x (resolvers_delete id resolvers) -> In x resolvers.
Proof. unfold resolvers_delete. intros H. now apply filter_In in H. Qed.

Lemma settle_flagged (h : Hook) (resolvers : list Z) :
  Flagged h -> (forall x, In x resolvers -> In x (resolversRef h)) ->
  Flagged (settle h resolvers).
Proof.
  unfold Flagged, settle. simpl. intros Hf Hsub.
  destruct resolvers as [|x l]; [reflexivity|].
  rewrite Hf. destruct (resolversRef h); [|reflexivity].
  destruct (Hsub x (or_introl eq_refl)).
Qed.

Lemma hookStep_flagged (h : Hook) (event : HookEvent) :
  Flagged h -> Flagged (fst (hookStep h event)).
Proof.
  intros Hf. destruct event as [|searchIndex|query|data| |id]; simpl.
  - exact Hf.
  - unfold initIndex. now destruct (negb (workerRef h)).
  - unfold search. destruct (negb (workerRef h)); [exact Hf|].
    unfold Flagged, resolvers_set. simpl.
    destruct (resolvers_has _ _) eqn:E.
    + apply resolvers_has_In in E. now destruct (resolversRef h).
    + now destruct (resolversRef h).
  - unfold handleMessage.
    destruct data as [[[id|] results|]|]; try exact Hf.
    + destruct (resolvers_has id (resolversRef h)); simpl;
        (apply settle_flagged; [exact Hf|]); intros x Hx;
        [exact (resolvers_delete_subset _ _ _ Hx) | exact Hx].
    + simpl. apply settle_flagged; [exact Hf | now intros x Hx].
  - reflexivity.
  - unfold onTimeout. destruct (resolvers_has id (resolversRef h)); simpl;
      [|exact Hf].
    apply settle_flagged; [exact Hf|]. intros x Hx.
    exact (resolvers_delete_subset _ _ _ Hx).
Qed.

Lemma runHook_app (h : Hook) (events : list HookEvent) (event : HookEvent) :
  runHook h (events ++ [event])
  = (fst (hookStep (fst (runHook h events)) event),
     snd (runHook h events) ++ snd (hookStep (fst (runHook h events)) event)).
Proof.
  revert h. induction events as [|e events IH]; intros h; simpl.
  - destruct (hookStep h event). simpl. now rewrite app_nil_r.
  - destruct (hookStep h e) as [h1 effects]. rewrite IH.
    destruct (runHook h1 events). simpl. now rewrite app_assoc.
Qed.

Lemma runHook_flagged (events : list HookEvent) :
  Flagged (fst (runHook initialHook events)).
Proof.
  induction events as [|event events IH] using rev_ind; [reflexivity|].
  rewrite runHook_app. simpl. now apply hookStep_flagged.
Qed.

Lemma resolvedIds_app (a b : list Effect) :
  resolvedIds (a ++ b) = resolvedIds a ++ resolvedIds b.
Proof. unfold resolvedIds. apply flat_map_app. Qed.

Lemma resolvedIds_all (resolvers : list Z) :
  resolvedIds (map (fun id => Resolve id []) resolvers) = resolvers.
Proof.
  induction resolvers as [|x l IH]; simpl; [reflexivity | now rewrite IH].
Qed.

Lemma accounted_delete (h : Hook) (done : list Z) (id : Z) :
  Accounted h done -> In id (resolversRef h) ->
  Accounted (settle h (resolvers_delete id (resolversRef h))) (done ++ [id]).
Proof.
  intros (Hpos & Hnd & Hiff) Hin. unfold Accounted. simpl.
  assert (Hperm : Permutation (done ++ resolversRef h)
                    ((done ++ [id]) ++ resolvers_delete id (resolversRef h))).
  { rewrite <- app_assoc. apply Permutation_app_head. simpl.
    apply resolvers_delete_perm; [|assumption].
    now apply NoDup_app_remove_l in Hnd. }
  split; [assumption|]. split.
  - now apply (Permutation_NoDup Hperm).
  - intros x. rewrite <- Hiff. split; intros Hx.
    + now apply (Permutation_in x (Permutation_sym Hperm)).
    + now apply (Permutation_in x Hperm).
Qed.

Lemma hookStep_accounted (h : Hook) (event : HookEvent) (done : list Z) :
  Accounted h done ->
  Accounted (fst (hookStep h event))
    (done ++ resolvedIds (snd (hookStep h event))).
Proof.
  intros Ha. pose proof Ha as (Hpos & Hnd & Hiff).
  destruct event as [|searchIndex|query|data| |id]; simpl.
  - rewrite app_nil_r. exact Ha.
  - unfold initIndex. destruct (negb (workerRef h)); simpl;
      rewrite app_nil_r; exact Ha.
  - unfold search. destruct (negb (workerRef h)); simpl; rewrite app_nil_r;
      [exact Ha|].
    assert (Hfresh : ~ In (nextIdRef h + 1)%Z (done ++ resolversRef h))
      by (rewrite Hiff; lia).
    unfold resolvers_set.
    destruct (resolvers_has _ _) eqn:E.
    { apply resolvers_has_In in E. destruct Hfresh. apply in_or_app. now right. }
    unfold Accounted. simpl. rewrite app_assoc.
    split; [lia|]. split.
    + apply NoDup_app; [assumption | repeat constructor; intros [] |].
      intros x Hx [<-|[]]. contradiction.
    + intros x. rewrite in_app_iff, Hiff. simpl. split.
      * intros [H|[<-|[]]]; lia.
      * intros H. destruct (Z.eq_dec x (nextIdRef h + 1)) as [->|Hne];
          [right; now left | left; lia].
  - unfold handleMessage.
    destruct data as [[[id|] results|]|]; simpl;
      try (rewrite app_nil_r; exact Ha).
    destruct (resolvers_has id (resolversRef h)) eqn:E; simpl.
    + apply accounted_delete; [assumption | now apply resolvers_has_In].
    + rewrite app_nil_r. exact Ha.
  - rewrite resolvedIds_all. unfold Accounted. simpl.
    rewrite app_nil_r. auto.
  - unfold onTimeout.
    destruct (resolvers_has id (resolversRef h)) eqn:E; simpl.
    + apply accounted_delete; [assumption | now apply resolvers_has_In].
    + rewrite app_nil_r. exact Ha.
Qed.

Lemma runHook_accounted (events : list HookEvent) :
  Accounted (fst (runHook initialHook events))
    (resolvedIds (snd (runHook initialHook events))).
Proof.
  induction events as [|event events IH] using rev_ind.
  - unfold Accounted. simpl. split; [lia|]. split; [constructor|].
    intros id. split; [contradiction | lia].
  - rewrite runHook_app. simpl. rewrite resolvedIds_app.
    now apply hookStep_accounted.
Qed.

(** X23. Whatever happens to the hook (searches, results, results for
    unknown requests, worker errors, timers), after every event
    [isSearching] is true exactly when some request is pending. *)
Theorem hook_is_searching_while_pending (events : list HookEvent) :
  let h := fst (runHook initialHook events) in
  isSearching h = true <-> resolversRef h <> [].
Proof.
  intros h. pose proof (runHook_flagged events) as Hf. fold h in Hf.
  unfold Flagged in Hf. rewrite Hf.
  destruct (resolversRef h); split; congruence.
Qed.

(** X24. No request is lost and none is answered twice: after any
    sequence of events the requests sent so far are numbered 1 to
    [nextIdRef], and each of them is either still pending or has had its
    promise resolved exactly once; nothing else is ever resolved through a
    resolver. *)
Theorem every_request_is_resolved_at_most_once (events : list HookEvent) :
  let h := fst (runHook initialHook events) in
  let resolved := resolvedIds (snd (runHook initialHook events)) in
  NoDup (resolved ++ resolversRef h)
  /\ forall id, In id (resolved ++ resolversRef h)
                <-> (1 <= id <= nextIdRef h)%Z.
Proof.
  intros h resolved.
  destruct (runHook_accounted events) as (_ & Hnd & Hiff). now split.
Qed.

(** X25. A round trip: once the hook is mounted, [search(query)] posts one
    [search] message under a fresh id; the worker answers it with one
    result carrying that id; and when that result arrives the promise of
    the request is resolved with the worker's list, and the hook is back
    in the state it was in, with only the id counter advanced. *)
Theorem search_round_trip (events : list HookEvent)
  (index : list SearchIndexItem.t) (query : jsstring) :
  let h := fst (runHook initialHook events) in
  workerRef h = true ->
  exists r,
    let id := (nextIdRef h + 1)%Z in
    let h1 := fst (search h query) in
    snd (search h query) = [PostMessage (SearchMessage (Num id) query)]
    /\ onmessage index (SearchMessage (Num id) query) = (index, Some r)
    /\ result_id r = Num id
    /\ handleMessage h1 (Some (ResultData (result_id r) (Some (results r))))
       = (mkHook true (isSearching h) (resolversRef h) id,
          [Resolve id (results r)]).
Proof.
  intros h Hworker.
  destruct (onmessage_search index (Num (nextIdRef h + 1)) query) as [res Hres].
  exists (mkResult (Num (nextIdRef h + 1)) res). cbv zeta.
  pose proof (runHook_flagged events) as Hf.
  destruct (runHook_accounted events) as (_ & Hnd & Hiff).
  fold h in Hf, Hnd, Hiff.
  assert (Hfresh : ~ In (nextIdRef h + 1)%Z (resolversRef h)).
  { intros Hin.
    assert (H : In (nextIdRef h + 1)%Z
                  (resolvedIds (snd (runHook initialHook events))
                   ++ resolversRef h)) by (apply in_or_app; now right).
    apply Hiff in H. lia. }
  unfold search. rewrite Hworker. simpl.
  split; [reflexivity|]. split; [exact Hres|]. split; [reflexivity|].
  unfold resolvers_set.
  destruct (resolvers_has (nextIdRef h + 1) (resolversRef h)) eqn:E;
    [apply resolvers_has_In in E; contradiction|].
  assert (Hhas : resolvers_has (nextIdRef h + 1)
                   (resolversRef h ++ [(nextIdRef h + 1)%Z]) = true).
  { apply resolvers_has_In, in_or_app. right. now left. }
  rewrite Hhas.
  assert (Hdel : resolvers_delete (nextIdRef h + 1)
                   (resolversRef h ++ [(nextIdRef h + 1)%Z]) = resolversRef h).
  { unfold resolvers_delete. rewrite filter_app. simpl.
    rewrite Z.eqb_refl. simpl. rewrite app_nil_r.
    apply filter_keeps_all. intros y Hy.
    destruct (Z.eqb_spec (nextIdRef h + 1) y) as [<-|]; [contradiction|].
    reflexivity. }
  rewrite Hdel. unfold settle. simpl. f_equal. f_equal.
  unfold Flagged in Hf. rewrite Hf. reflexivity.
Qed.

Lemma search_round_trip_witness :
  exists r,
    onmessage [SearchIndexItem.mk (str "k1") (str "hello")]
      (SearchMessage (Num 1) (str "HELL"))
    = ([SearchIndexItem.mk (str "k1") (str "hello")], Some r)
    /\ handleMessage (fst (search (fst (runHook initialHook [Mount]))
                             (str "HELL")))
         (Some (ResultData (result_id r) (Some (results r))))
       = (mkHook true false [] 1, [Resolve 1%Z (results r)]).
Proof.
  destruct (search_round_trip [Mount]
              [SearchIndexItem.mk (str "k1") (str "hello")] (str "HELL")
              eq_refl) as (r & _ & Hreply & _ & Hback).
  exists r. split; [exact Hreply | exact Hback].
Defined.
